(** * MPI-Othello: the game engine, evaluator and search of [simon_v6.c]

    A shallow embedding of the board model, the move engine, the static
    evaluator, the alpha-beta search, the best-move selection and the
    moves of the referee protocol of [simon_v6.c], followed by the
    properties established about them.

    Conventions of the embedding.
    - A C [int] is a [Z].  Every quantity computed here stays far below
      [2^31] in absolute value (cell indices are below 200, piece counts
      below 100, scores below 10^6), so no wrap-around is written out.
      C's [/] and [%] are [Z.quot] and [Z.rem].
    - An [int *] board is a [list Z]; reading or writing outside the list
      is undefined behaviour in C and the error [OutOfBounds] here.  A
      division by zero is the error [DivisionByZero].
    - [while] loops whose bound is not syntactic carry a fuel argument and
      fail with [OutOfFuel] when it is exhausted.
    - The [FILE *fp] argument and the log lines written to it are left out.
    - C truth values that are only ever tested ([validp], [legalp]) are
      [bool]; [would_flip] and [find_bracket_piece], whose result is a
      square index doubling as a truth value, return a [Z]. *)

From Stdlib Require Import ZArith Lia Bool String Ascii Sorted.
From stdpp Require Import base list list_numbers.

Local Open Scope Z_scope.

(** ** Results of fallible computations *)

Inductive error : Type :=
| OutOfBounds
| DivisionByZero
| OutOfFuel.

Inductive result (A : Type) : Type :=
| Ok (a : A)
| Err (e : error).

Arguments Ok {A} a.
Arguments Err {A} e.

Definition rbind {A B : Type} (r : result A) (k : A -> result B) : result B :=
  match r with
  | Ok a => k a
  | Err e => Err e
  end.

Notation "'let*' x ':=' r 'in' k" := (rbind r (fun x => k))
  (at level 10, x name, r at level 100, k at level 200).

(** A loop that threads an accumulator through a list and stops at the
    first error. *)
Fixpoint rfoldl {A B : Type} (f : A -> B -> result A) (a : A) (l : list B)
  : result A :=
  match l with
  | [] => Ok a
  | x :: l' => let* a' := f a x in rfoldl f a' l'
  end.

(** ** Constants of the program *)

Definition EMPTY : Z := 0.
Definition BLACK : Z := 1.
Definition WHITE : Z := 2.
Definition OUTER : Z := 3.
Definition ALLDIRECTIONS : list Z := [-11; -10; -9; -1; 1; 9; 10; 11].
Definition BOARDSIZE : Z := 100.

Definition weights : list Z :=
  [0; 0; 0; 0; 0; 0; 0; 0; 0; 0;
   0; 120; -20; 20; 5; 5; 20; -20; 120; 0;
   0; -20; -40; -5; -5; -5; -5; -40; -20; 0;
   0; 20; -5; 15; 3; 3; 15; -5; 20; 0;
   0; 5; -5; 3; 3; 3; 3; -5; 5; 0;
   0; 5; -5; 3; 3; 3; 3; -5; 5; 0;
   0; 20; -5; 15; 3; 3; 15; -5; 20; 0;
   0; -20; -40; -5; -5; -5; -5; -40; -20; 0;
   0; 120; -20; 20; 5; 5; 20; -20; 120; 0;
   0; 0; 0; 0; 0; 0; 0; 0; 0; 0].

(** ** Board model *)

Abbreviation Board := (list Z).

(** [board[i]] as an rvalue. *)
Definition rd (b : Board) (i : Z) : result Z :=
  if 0 <=? i then
    match b !! Z.to_nat i with
    | Some v => Ok v
    | None => Err OutOfBounds
    end
  else Err OutOfBounds.

(** [board[i] = v]. *)
Definition wr (b : Board) (i v : Z) : result Board :=
  if (0 <=? i) && (i <? Z.of_nat (length b)) then Ok (<[Z.to_nat i := v]> b)
  else Err OutOfBounds.

(** The position [initialise_board] builds. *)
Definition initial_cell (i : Z) : Z :=
  if (i <=? 9) then OUTER
  else if (i <=? 89) then
    if (1 <=? Z.rem i 10) && (Z.rem i 10 <=? 8) then EMPTY else OUTER
  else OUTER.

Definition initialise_board : Board :=
  <[55%nat := WHITE]> (<[54%nat := BLACK]> (<[45%nat := BLACK]> (<[44%nat := WHITE]>
    (initial_cell <$> seqZ 0 BOARDSIZE)))).

(** ** Move engine *)

Definition opponent (player : Z) : Z :=
  if player =? BLACK then WHITE
  else if player =? WHITE then BLACK
  else EMPTY.

Definition validp (move : Z) : bool :=
  (11 <=? move) && (move <=? 88) && (1 <=? Z.rem move 10) && (Z.rem move 10 <=? 8).

(** The scan of [find_bracket_piece]: walk from [square] in direction [dir]
    while the cell holds the opponent's colour. *)
Fixpoint find_bracket_piece (fuel : nat) (g : Board) (square dir player : Z)
  : result Z :=
  match fuel with
  | O => Err OutOfFuel
  | S fuel' =>
      let* v := rd g square in
      if v =? opponent player then
        find_bracket_piece fuel' g (square + dir) dir player
      else if v =? player then Ok square
      else Ok 0
  end.

(** Fuel handed to the two ray loops: a ray that stays inside a
    [BOARDSIZE]-cell array makes fewer than [BOARDSIZE] steps. *)
Definition ray_fuel : nat := 101.

Definition would_flip (g : Board) (move dir player : Z) : result Z :=
  let c := move + dir in
  let* v := rd g c in
  if v =? opponent player then find_bracket_piece ray_fuel g (c + dir) dir player
  else Ok 0.

(** The [while (i <= 7 && !would_flip(...)) i++] loop of [legalp], over the
    directions still to try; [true] when it stops before [i == 8]. *)
Fixpoint some_dir_flips (g : Board) (move player : Z) (dirs : list Z)
  : result bool :=
  match dirs with
  | [] => Ok false
  | dir :: dirs' =>
      let* r := would_flip g move dir player in
      if r =? 0 then some_dir_flips g move player dirs' else Ok true
  end.

Definition legalp (g : Board) (move player : Z) : result bool :=
  if negb (validp move) then Ok false
  else
    let* v := rd g move in
    if v =? EMPTY then some_dir_flips g move player ALLDIRECTIONS
    else Ok false.

(** [for (move = 11; move <= 88; move++)] of [legal_moves]; the C array
    [moves] (count in cell 0, moves from cell 1) is the list of moves. *)
Fixpoint legal_moves_loop (n : nat) (move : Z) (g : Board) (player : Z)
  : result (list Z) :=
  match n with
  | O => Ok []
  | S n' =>
      let* l := legalp g move player in
      let* rest := legal_moves_loop n' (move + 1) g player in
      Ok (if l then move :: rest else rest)
  end.

Definition legal_moves (g : Board) (player : Z) : result (list Z) :=
  legal_moves_loop 78 11 g player.

(** [num_valid_moves(player, board, fp)]: the [board] argument is never
    read, [legalp] works on the global board [g]. *)
Fixpoint num_valid_moves_loop (n : nat) (move : Z) (g : Board) (player i : Z)
  : result Z :=
  match n with
  | O => Ok i
  | S n' =>
      let* l := legalp g move player in
      num_valid_moves_loop n' (move + 1) g player (if l then i + 1 else i)
  end.

Definition num_valid_moves (g : Board) (player : Z) (board : Board) : result Z :=
  num_valid_moves_loop 78 11 g player 0.

(** The [do ... while (c != bracketer)] loop of [make_flips]. *)
Fixpoint flip_run (fuel : nat) (g : Board) (c dir player bracketer : Z)
  : result Board :=
  match fuel with
  | O => Err OutOfFuel
  | S fuel' =>
      let* g' := wr g c player in
      let c' := c + dir in
      if c' =? bracketer then Ok g'
      else flip_run fuel' g' c' dir player bracketer
  end.

Definition make_flips (g : Board) (move dir player : Z) : result Board :=
  let* bracketer := would_flip g move dir player in
  if bracketer =? 0 then Ok g
  else flip_run ray_fuel g (move + dir) dir player bracketer.

(** The [for (i = 0; i <= 7; i++)] loop of [make_move], as a left fold
    over the directions. *)
Definition make_flips_all (g : Board) (move player : Z) (dirs : list Z)
  : result Board :=
  rfoldl (fun g' dir => make_flips g' move dir player) g dirs.

Definition make_move (g : Board) (move player : Z) : result Board :=
  let* g' := wr g move player in
  make_flips_all g' move player ALLDIRECTIONS.

(** [count(player, board)]. *)
Fixpoint count_loop (n : nat) (i : Z) (player : Z) (board : Board) (cnt : Z)
  : result Z :=
  match n with
  | O => Ok cnt
  | S n' =>
      let* v := rd board i in
      count_loop n' (i + 1) player board (if v =? player then cnt + 1 else cnt)
  end.

Definition count (player : Z) (board : Board) : result Z :=
  count_loop 88 1 player board 0.

(** ** Evaluator *)

(** [game_stage()] reads the global board [g] and the global [my_colour]. *)
Fixpoint game_stage_loop (n : nat) (i : Z) (g : Board) (my_colour opp : Z)
  (pcoins ocoins : Z) : result (Z * Z) :=
  match n with
  | O => Ok (pcoins, ocoins)
  | S n' =>
      let* v := rd g i in
      if v =? my_colour then
        game_stage_loop n' (i + 1) g my_colour opp (pcoins + 1) ocoins
      else if v =? opp then
        game_stage_loop n' (i + 1) g my_colour opp pcoins (ocoins + 1)
      else game_stage_loop n' (i + 1) g my_colour opp pcoins ocoins
  end.

Definition game_stage (g : Board) (my_colour : Z) : result Z :=
  let opp := opponent my_colour in
  let* pc := game_stage_loop 88 1 g my_colour opp 0 0 in
  let total := fst pc + snd pc in
  Ok (if total <=? 20 then 1
      else if (20 <? total) && (total <=? 40) then 2
      else if 40 <? total then 3
      else 0).

(** The four accumulators of the main loop of [evaluate]. *)
Record tally : Type := Tally { pcnt : Z; pcoins : Z; ocnt : Z; ocoins : Z }.

Fixpoint tally_loop (n : nat) (i : Z) (player opp : Z) (board : Board)
  (t : tally) : result tally :=
  match n with
  | O => Ok t
  | S n' =>
      let* v := rd board i in
      if v =? player then
        let* w := rd weights i in
        tally_loop n' (i + 1) player opp board
          (Tally (pcnt t + w) (pcoins t + 1) (ocnt t) (ocoins t))
      else if v =? opp then
        let* w := rd weights i in
        tally_loop n' (i + 1) player opp board
          (Tally (pcnt t) (pcoins t) (ocnt t + w) (ocoins t + 1))
      else tally_loop n' (i + 1) player opp board t
  end.

(** [parity = 100 * (pcoins - ocoins) / (pcoins + ocoins)]. *)
Definition parity_of (pcoins ocoins : Z) : result Z :=
  if pcoins + ocoins =? 0 then Err DivisionByZero
  else Ok (Z.quot (100 * (pcoins - ocoins)) (pcoins + ocoins)).

(** The guarded quotient of the mobility heuristic. *)
Definition mobility_of (pmoves omoves : Z) : Z :=
  if negb (pmoves + omoves =? 0)
  then Z.quot (100 * (pmoves - omoves)) (pmoves + omoves)
  else 0.

(** One [if (board[c] == player) pcoins++; else if (board[c] == opp)
    ocoins++;] statement, on the pair [(pcoins, ocoins)]. *)
Definition tick (player opp : Z) (board : Board) (c : Z) (po : Z * Z)
  : result (Z * Z) :=
  let* v := rd board c in
  Ok (if v =? player then (fst po + 1, snd po)
      else if v =? opp then (fst po, snd po + 1)
      else po).

Definition corners_captured (player opp : Z) (board : Board) : result Z :=
  let* po := rfoldl (fun po c => tick player opp board c po) (0, 0) [11; 18; 81; 88] in
  Ok (25 * (fst po - snd po)).

(** The character constant ['.'] the corner cells are compared with. *)
Definition dot : Z := 46.

(** One [if (board[corner] == '.') { ... }] block. *)
Definition near_corner (player opp : Z) (board : Board) (corner : Z)
  (adjacent : list Z) (po : Z * Z) : result (Z * Z) :=
  let* v := rd board corner in
  if v =? dot then rfoldl (fun po c => tick player opp board c po) po adjacent
  else Ok po.

(** [int cc = -12.5 * (pcoins - ocoins)]: the product is exact in double
    precision and the conversion to [int] truncates toward zero. *)
Definition corner_closeness (player opp : Z) (board : Board) : result Z :=
  let* po := near_corner player opp board 11 [12; 22; 21] (0, 0) in
  let* po := near_corner player opp board 18 [17; 27; 28] po in
  let* po := near_corner player opp board 81 [82; 72; 71] po in
  let* po := near_corner player opp board 88 [78; 77; 87] po in
  Ok (Z.quot (-125 * (fst po - snd po)) 10).

(** The five terms of the final sum. *)
Record terms : Type :=
  Terms { position : Z; parity : Z; mobility : Z; corner_occ : Z; cc : Z }.

(** [final = position + (10 * parity) + (78.922 * mobility)
             + (801.724 * corner_occ) + (382.026 * cc)], assigned to an
    [int].  C evaluates the sum in double precision and truncates it toward
    zero; it is taken here in exact thousandths.  The two agree whenever
    [mobility] and [cc] are zero: the remaining product is a multiple of
    [801.724 * 25 = 20043.1], whose distance to the nearest integer (at
    least 0.1) exceeds the rounding error (below 10^-9) of the double
    computation. *)
Definition final_score (t : terms) : Z :=
  Z.quot (1000 * (position t + 10 * parity t) + 78922 * mobility t
          + 801724 * corner_occ t + 382026 * cc t) 1000.

(** [evaluate(player, board, fp)], up to the final sum.  [g] is the content
    of the global board, which [num_valid_moves] and [game_stage] read
    instead of the argument [board]. *)
Definition evaluate_terms (g : Board) (my_colour : Z) (player : Z) (board : Board)
  : result terms :=
  let opp := opponent player in
  let* omoves := num_valid_moves g player board in
  let* pmoves := num_valid_moves g player board in
  let* t := tally_loop 88 1 player opp board (Tally 0 0 0 0) in
  let position := pcnt t - ocnt t in
  let* parity := parity_of (pcoins t) (ocoins t) in
  let mobility := mobility_of pmoves omoves in
  let* corner_occ := corners_captured player opp board in
  let* cc := corner_closeness player opp board in
  let* stage := game_stage g my_colour in
  let mobility := (3 - stage) * mobility in
  Ok (Terms position parity mobility corner_occ cc).

Definition evaluate (g : Board) (my_colour : Z) (player : Z) (board : Board)
  : result Z :=
  let* t := evaluate_terms g my_colour player board in
  Ok (final_score t).

(** ** Program state

    The C globals the search reads and writes, and the heap of boards they
    point into.  A board pointer is an index into [s_heap]; [copy_board]
    allocates at the end of the heap and nothing is ever reused ([free] is
    left out).  [s_board] is the global [board], [s_my_colour] the global
    [my_colour] and [s_size] the global [size]. *)

Record state : Type := State {
  s_heap : list Board;
  s_board : nat;
  s_my_colour : Z;
  s_size : Z
}.

Definition M (A : Type) : Type := state -> result (A * state).

Definition ret {A : Type} (a : A) : M A := fun s => Ok (a, s).

Definition bind {A B : Type} (m : M A) (k : A -> M B) : M B :=
  fun s =>
    match m s with
    | Ok (a, s') => k a s'
    | Err e => Err e
    end.

Notation "x <- m ;; k" := (bind m (fun x => k))
  (at level 100, m at next level, right associativity).
Notation "m ;;; k" := (bind m (fun _ => k))
  (at level 100, right associativity).

Definition lift {A : Type} (r : result A) : M A :=
  fun s =>
    match r with
    | Ok a => Ok (a, s)
    | Err e => Err e
    end.

Definition get_board : M nat := fun s => Ok (s_board s, s).
Definition get_my_colour : M Z := fun s => Ok (s_my_colour s, s).
Definition get_size : M Z := fun s => Ok (s_size s, s).

(** [board = p]. *)
Definition set_board (p : nat) : M unit :=
  fun s => Ok (tt, State (s_heap s) p (s_my_colour s) (s_size s)).

Definition deref (p : nat) : M Board :=
  fun s =>
    match s_heap s !! p with
    | Some b => Ok (b, s)
    | None => Err OutOfBounds
    end.

Definition store (p : nat) (b : Board) : M unit :=
  fun s =>
    if (p <? length (s_heap s))%nat
    then Ok (tt, State (<[p := b]> (s_heap s)) (s_board s) (s_my_colour s) (s_size s))
    else Err OutOfBounds.

(** [copy_board(p)]: a fresh block holding the content of [p]. *)
Definition copy_board (p : nat) : M nat :=
  b <- deref p ;;
  fun s => Ok (length (s_heap s),
               State (s_heap s ++ [b]) (s_board s) (s_my_colour s) (s_size s)).

(** The move engine and the evaluator on the global board. *)
Definition run_legal_moves (player : Z) : M (list Z) :=
  p <- get_board ;; g <- deref p ;; lift (legal_moves g player).

Definition run_make_move (move player : Z) : M unit :=
  p <- get_board ;; g <- deref p ;;
  g' <- lift (make_move g move player) ;;
  store p g'.

Definition run_evaluate (player : Z) (board : nat) : M Z :=
  p <- get_board ;; g <- deref p ;;
  mc <- get_my_colour ;;
  b <- deref board ;;
  lift (evaluate g mc player b).

(** ** Search engine *)

Definition dynamic_depth (moves size : Z) : Z :=
  if (3 <=? moves) && (moves <? 8) then 6
  else if (8 <=? moves) && (moves <? 15) then 5
  else if 15 <=? moves then 4
  else if size =? 1 then 0
  else 7.

(** The [for (int i = 1; i <= moves[0]; i++)] loop of [alpha_beta];
    [recur m alpha beta] is the recursive call on reply [m]. *)
Fixpoint alpha_beta_loop (recur : Z -> Z -> Z -> M Z) (colour : Z) (new_board : nat)
  (moves : list Z) (alpha beta : Z) : M (Z * Z) :=
  match moves with
  | [] => ret (alpha, beta)
  | m :: moves' =>
      result <- recur m alpha beta ;;
      nb <- copy_board new_board ;;
      set_board nb ;;;
      run_make_move m colour ;;;
      mc <- get_my_colour ;;
      let alpha' :=
        if colour =? mc then (if result >? alpha then result else alpha) else alpha in
      let beta' :=
        if colour =? mc then beta else (if result <? beta then result else beta) in
      if alpha' >=? beta' then ret (alpha', beta')
      else alpha_beta_loop recur colour new_board moves' alpha' beta'
  end.

Fixpoint alpha_beta (fuel : nat) (move_made alpha beta colour depth : Z)
  (sent_board : nat) : M Z :=
  match fuel with
  | O => fun _ => Err OutOfFuel
  | S fuel' =>
      mc <- get_my_colour ;;
      _ <- run_legal_moves mc ;;
      new_board <- copy_board sent_board ;;
      if depth =? 0 then run_evaluate mc new_board
      else
        run_make_move move_made colour ;;;
        new_board <- copy_board sent_board ;;
        moves <- run_legal_moves (opponent colour) ;;
        match moves with
        | [] => run_evaluate mc new_board
        | _ :: _ =>
            ab <- alpha_beta_loop
                    (fun m a b =>
                       alpha_beta fuel' m a b (opponent colour) (depth - 1) new_board)
                    colour new_board moves alpha beta ;;
            ret (if colour =? mc then fst ab else snd ab)
        end
  end.

(** The recursion of [alpha_beta] decreases [depth] down to 0: from a
    non-negative [depth] it nests [depth + 1] calls. *)
Definition search_fuel (depth : Z) : nat := S (Z.to_nat depth).

Definition minimax (move colour : Z) (sent_board : nat) : M Z :=
  mc <- get_my_colour ;;
  moves <- run_legal_moves mc ;;
  size <- get_size ;;
  let depth := dynamic_depth (Z.of_nat (length moves)) size in
  alpha_beta (search_fuel depth) move (-10000) 10000 colour depth sent_board.

(** ** Best-move selection *)

(** The [for (int i = 1; i <= moves[0]; i++)] loop of [serial]. *)
Fixpoint serial_loop (my_colour : Z) (new_board : nat) (moves : list Z)
  (best_move best_score : Z) : M Z :=
  match moves with
  | [] => ret best_move
  | m :: moves' =>
      p <- get_board ;;
      result <- minimax m my_colour p ;;
      nb <- copy_board new_board ;;
      set_board nb ;;;
      run_make_move m my_colour ;;;
      if result >? best_score
      then serial_loop my_colour new_board moves' m result
      else serial_loop my_colour new_board moves' best_move best_score
  end.

Definition serial (my_colour : Z) : M Z :=
  moves <- run_legal_moves my_colour ;;
  match moves with
  | [] => ret (-1)
  | _ :: _ =>
      p <- get_board ;;
      new_board <- copy_board p ;;
      serial_loop my_colour new_board moves (-100) (-2000)
  end.

(** The selection loop at the end of the parallel branch of
    [gen_move_master], over the arrays [rec_Moves] and [rec_Scores] and the
    number [moves_rec] of recorded results. *)
Fixpoint select_loop (n : nat) (i : Z) (rec_Moves rec_Scores : list Z)
  (best_move best_score : Z) : result Z :=
  match n with
  | O => Ok best_move
  | S n' =>
      let* sc := rd rec_Scores i in
      if sc >? best_score then
        let* mv := rd rec_Moves i in
        select_loop n' (i + 1) rec_Moves rec_Scores mv sc
      else select_loop n' (i + 1) rec_Moves rec_Scores best_move best_score
  end.

Definition select_best (rec_Moves rec_Scores : list Z) (moves_rec : nat) : result Z :=
  let* first := rd rec_Moves 0 in
  select_loop moves_rec 0 rec_Moves rec_Scores first (-2000).

(** ** Move strings *)

(** Conversion of an [int] to a [char] and back. *)
Definition char_of (z : Z) : ascii := ascii_of_N (Z.to_N (z mod 256)).
Definition code (c : ascii) : Z := Z.of_N (N_of_ascii c).

(** [get_move_string(loc, ms)]: the string left in [ms]; the terminating
    zero stored in [ms[3]] is the end of the Rocq string. *)
Definition get_move_string (loc : Z) : string :=
  let new_loc := loc - (9 + 2 * (Z.quot loc 10)) in
  let row := Z.quot new_loc 8 in
  let col := Z.rem new_loc 8 in
  String (char_of (row + code "0"))
    (String (char_of (col + code "0"))
       (String (char_of 10) EmptyString)).

(** [movestring[i]], the terminating zero included. *)
Definition char_at (movestring : string) (i : nat) : result Z :=
  match String.get i movestring with
  | Some c => Ok (code c)
  | None => if (i =? String.length movestring)%nat then Ok 0 else Err OutOfBounds
  end.

Definition get_loc (movestring : string) : result Z :=
  let* c0 := char_at movestring 0 in
  let row := c0 - code "0" in
  let* c1 := char_at movestring 1 in
  let col := c1 - code "0" in
  Ok ((10 * (row + 1)) + col + 1).

(** The ten digit characters. *)
Definition digits : list ascii :=
  ["0"; "1"; "2"; "3"; "4"; "5"; "6"; "7"; "8"; "9"]%char.

(** ** Moves of the referee protocol *)

(** The characters of a C string: those before the first zero. *)
Fixpoint c_str (s : string) : string :=
  match s with
  | EmptyString => EmptyString
  | String c s' => if code c =? 0 then EmptyString else String c (c_str s')
  end.

(** [strcmp(a, b) == 0]. *)
Definition strcmp0 (a b : string) : bool := String.eqb (c_str a) (c_str b).

(** The literal ["pass\n"]. *)
Definition pass_string : string :=
  String "p" (String "a" (String "s" (String "s" (String "010" EmptyString)))).

(** [apply_opp_move(move, my_colour, fp)]. *)
Definition apply_opp_move (move : string) (my_colour : Z) : M unit :=
  if strcmp0 move pass_string then ret tt
  else
    loc <- lift (get_loc move) ;;
    run_make_move loc (opponent my_colour).

(** [random_strategy(my_colour, fp)]; [rand] is the value that the call
    of [rand()] returns.  The buffer [moves] holds the number of legal
    moves in [moves[0]] and the moves after it. *)
Definition random_strategy (rand : Z) (my_colour : Z) : M Z :=
  moves <- run_legal_moves my_colour ;;
  let n := Z.of_nat (length moves) in
  if n =? 0 then ret (-1)
  else lift (rd (n :: moves) (Z.rem rand n + 1)).

(** [gen_move_master(move, my_colour, fp)]; the result is the string left
    in [move].  With one process ([size == 1]) the move comes from
    [serial]; otherwise it comes from the exchange of messages with the
    workers and the selection loop that follows it, which is a parameter
    here ([parallel], given the list of legal moves). *)
Definition gen_move_master (parallel : list Z -> M Z) (my_colour : Z) : M string :=
  moves <- run_legal_moves my_colour ;;
  size <- get_size ;;
  best_move <- (if size =? 1 then serial my_colour else parallel moves) ;;
  let loc := best_move in
  if loc =? -1 then ret pass_string
  else
    let ms := get_move_string loc in
    run_make_move loc my_colour ;;;
    ret ms.

(** ** Well-formed boards *)

(** A cell index of the 10 x 10 array. *)
Definition in_grid (i : Z) : Prop := 0 <= i < BOARDSIZE.

(** Every cell outside the 8 x 8 interior of a 100-cell board is [OUTER]. *)
Definition border_outerb (b : Board) : bool :=
  (length b =? 100)%nat
  && forallb (fun i => validp i
                       || match rd b i with Ok v => v =? OUTER | Err _ => false end)
       (seqZ 0 BOARDSIZE).

Definition border_outer (b : Board) : Prop := border_outerb b = true.

(** Moreover every interior cell is [EMPTY], [BLACK] or [WHITE]. *)
Definition pieceb (v : Z) : bool := (v =? EMPTY) || (v =? BLACK) || (v =? WHITE).

Definition wf_boardb (b : Board) : bool :=
  border_outerb b
  && forallb (fun i => negb (validp i)
                       || match rd b i with Ok v => pieceb v | Err _ => false end)
       (seqZ 0 BOARDSIZE).

Definition wf_board (b : Board) : Prop := wf_boardb b = true.

Definition is_player (player : Z) : Prop := player = BLACK \/ player = WHITE.

(** Number of steps from [square] to the border of the grid along [dir]. *)
Definition room (square dir : Z) : Z :=
  if dir <=? -9 then square / 10
  else if 9 <=? dir then 9 - square / 10
  else if dir =? -1 then square mod 10
  else 9 - square mod 10.

(** Exchange of the two colours on a board. *)
Definition swap_cell (v : Z) : Z :=
  if v =? BLACK then WHITE else if v =? WHITE then BLACK else v.

Definition swap_board (b : Board) : Board := swap_cell <$> b.

(** ** Effect of a run of flips *)

(** 1 for [true], 0 for [false]. *)
Definition ind (b : bool) : Z := if b then 1 else 0.

(** [converts player opp k g g']: the board [g'] is [g] with [k] interior
    cells turned from [opp] to [player] and nothing else touched; the
    counts of [count] move accordingly. *)
Definition converts (player opp : Z) (k : Z) (g g' : Board) : Prop :=
  0 <= k
  /\ length g' = length g
  /\ (forall i, rd g' i = rd g i
                \/ (validp i = true /\ rd g i = Ok opp /\ rd g' i = Ok player))
  /\ (forall q c, count q g = Ok c ->
                  count q g' = Ok (c + k * (ind (q =? player) - ind (q =? opp)))).

(** ** The rule of the game *)

(** [bracket g move dir player k]: going from [move] in direction [dir],
    the next [k - 1] cells (at least one) hold the opponent's colour and
    the [k]-th holds the player's. *)
Definition bracket (g : Board) (move dir player k : Z) : Prop :=
  2 <= k
  /\ (forall j, 1 <= j < k -> rd g (move + j * dir) = Ok (opponent player))
  /\ rd g (move + k * dir) = Ok player.

(** [flipped g move player i]: cell [i] lies strictly between [move] and
    a bracketing piece, in one of the eight directions. *)
Definition flipped (g : Board) (move player i : Z) : Prop :=
  exists dir k j,
    In dir ALLDIRECTIONS /\ bracket g move dir player k
    /\ 1 <= j < k /\ i = move + j * dir.

(** The cells strictly inside the bracket of one direction. *)
Definition on_ray (g : Board) (move player dir i : Z) : Prop :=
  exists k j, bracket g move dir player k /\ 1 <= j < k /\ i = move + j * dir.

(** ** States of a search *)

(** Some cell of the board holds a BLACK or WHITE piece. *)
Definition has_piece (b : Board) : Prop :=
  exists i q, rd b i = Ok q /\ is_player q.

(** [search_state s sent S]: the global colour is BLACK or WHITE, the
    global [board] points to a well-formed board, and [sent] is another
    block, holding [S]. *)
Definition search_state (s : state) (sent : nat) (S : Board) : Prop :=
  is_player (s_my_colour s)
  /\ (exists g, s_heap s !! s_board s = Some g /\ wf_board g)
  /\ s_heap s !! sent = Some S
  /\ sent <> s_board s.

(** [search_frame s s']: what a search may change.  The globals
    [my_colour] and [size] stay; the heap only grows; every block other
    than the one the global [board] pointed to keeps its content; the
    global [board] points to the same block or to a new one, and that
    block holds a well-formed board. *)
Definition search_frame (s s' : state) : Prop :=
  s_my_colour s' = s_my_colour s
  /\ s_size s' = s_size s
  /\ (length (s_heap s) <= length (s_heap s'))%nat
  /\ (forall p b, p <> s_board s -> s_heap s !! p = Some b ->
                   s_heap s' !! p = Some b)
  /\ (s_board s' = s_board s \/ (length (s_heap s) <= s_board s')%nat)
  /\ (exists g', s_heap s' !! s_board s' = Some g' /\ wf_board g').

(** The values a search with window [(alpha, beta)] can return when every
    leaf evaluates to [v]. *)
Definition search_values (alpha beta v r : Z) : Prop :=
  r = v \/ r = Z.max alpha v \/ r = Z.min beta v
  \/ r = Z.max alpha (Z.min beta v).

(** ** Pieces never leave the heap *)

(** [keeps_pieces s s']: every block of [s] is still a block of [s'], and
    each of its cells that held a BLACK or WHITE piece holds one (of
    either colour) in [s']. *)
Definition keeps_pieces (s s' : state) : Prop :=
  forall (p : nat) (b : Board),
    s_heap s !! p = Some b ->
    exists b',
      s_heap s' !! p = Some b'
      /\ forall i v, rd b i = Ok v -> is_player v ->
                     exists v', rd b' i = Ok v' /\ is_player v'.

(** ** Positions used in examples *)

(** A game played by the rules: the players move in turn, and every move
    has to be legal for the player who makes it. *)
Fixpoint play_game (g : Board) (player : Z) (moves : list Z) : option Board :=
  match moves with
  | [] => Some g
  | m :: moves' =>
      match legalp g m player, make_move g m player with
      | Ok true, Ok g' => play_game g' (opponent player) moves'
      | _, _ => None
      end
  end.

(** The position reached from the opening position by the given moves,
    BLACK moving first. *)
Definition position_after (moves : list Z) : Board :=
  match play_game initialise_board BLACK moves with
  | Some g => g
  | None => []
  end.

(** The board with an empty interior. *)
Definition empty_board : Board := initial_cell <$> seqZ 0 BOARDSIZE.

(** BLACK 34, WHITE 33. *)
Definition two_moves_board : Board := position_after [34; 33].

(** Two moves later WHITE stands on 22, next to the empty corner 11. *)
Definition x_square_board : Board := position_after [34; 33; 32; 22].

(** And two moves later WHITE has taken the corner 11; BLACK is to move. *)
Definition corner_taken_board : Board := position_after [34; 33; 32; 22; 12; 11].

(** A game of 14 moves after which WHITE holds the corner 81 and BLACK,
    to move, has a move (58) that leaves WHITE without a reply. *)
Definition no_reply_board : Board :=
  position_after [56; 64; 73; 57; 67; 77; 63; 35; 78; 82; 76; 62; 72; 81].

(** A single-process run ([size == 1]) playing BLACK, the global [board]
    pointing to the only block of the heap. *)
Definition serial_state (b : Board) : state := State [b] 0 BLACK 1.

(** A worker of a three-process run ([size == 3]) playing BLACK, with the
    board it received by broadcast. *)
Definition worker_state (b : Board) : state := State [b] 0 BLACK 3.

(** The value a search returns. *)
Definition score (r : result (Z * state)) : result Z :=
  match r with
  | Ok (v, _) => Ok v
  | Err e => Err e
  end.

(** What a caller can see of the boards after a search: the returned
    score, the value of the global [board], the content of block [p], and
    the content of the block the global [board] then points to. *)
Definition observe (p : nat) (r : result (Z * state))
  : result (Z * nat * option Board * option Board) :=
  match r with
  | Ok (v, s') => Ok (v, s_board s', s_heap s' !! p, s_heap s' !! s_board s')
  | Err e => Err e
  end.


(** * Properties *)

Ltac invert H := inversion H; subst; clear H.

(** The ray loops are reasoned about through the lemmas below, never by
    unfolding their 101 iterations. *)
Lemma ray_fuel_bound : Z.of_nat ray_fuel = 101.
Proof. reflexivity. Qed.

Opaque ray_fuel.

(** ** Cell reads and writes *)

Lemma rd_Ok_range (b : Board) (i v : Z) :
  rd b i = Ok v -> 0 <= i < Z.of_nat (length b).
Proof.
  unfold rd. destruct (Z.leb_spec 0 i); [|discriminate].
  destruct (b !! Z.to_nat i) eqn:E; [|discriminate].
  intros _. apply lookup_lt_Some in E. lia.
Qed.

Lemma rd_total (b : Board) (i : Z) :
  0 <= i < Z.of_nat (length b) -> exists v, rd b i = Ok v.
Proof.
  intros H. unfold rd. destruct (Z.leb_spec 0 i); [|lia].
  destruct (lookup_lt_is_Some_2 b (Z.to_nat i)) as [v Hv]; [lia|].
  rewrite Hv. eauto.
Qed.

Lemma wr_Ok_inv (b b' : Board) (i v : Z) :
  wr b i v = Ok b' ->
  0 <= i < Z.of_nat (length b) /\ b' = <[Z.to_nat i := v]> b.
Proof.
  unfold wr. destruct (Z.leb_spec 0 i), (Z.ltb_spec i (Z.of_nat (length b)));
    simpl; intros E; invert E; auto with lia.
Qed.

Lemma wr_total (b : Board) (i v : Z) :
  0 <= i < Z.of_nat (length b) -> wr b i v = Ok (<[Z.to_nat i := v]> b).
Proof.
  intros H. unfold wr.
  destruct (Z.leb_spec 0 i), (Z.ltb_spec i (Z.of_nat (length b))); simpl; auto; lia.
Qed.

Lemma wr_length (b b' : Board) (i v : Z) :
  wr b i v = Ok b' -> length b' = length b.
Proof. intros H. apply wr_Ok_inv in H as [_ ->]. apply length_insert. Qed.

Lemma rd_wr_same (b b' : Board) (i v : Z) :
  wr b i v = Ok b' -> rd b' i = Ok v.
Proof.
  intros H. apply wr_Ok_inv in H as [Hi ->]. unfold rd.
  destruct (Z.leb_spec 0 i); [|lia].
  rewrite list_lookup_insert_eq by lia. reflexivity.
Qed.

Lemma rd_wr_other (b b' : Board) (i j v : Z) :
  wr b i v = Ok b' -> j <> i -> rd b' j = rd b j.
Proof.
  intros H Hne. apply wr_Ok_inv in H as [Hi ->]. unfold rd.
  destruct (Z.leb_spec 0 j); [|reflexivity].
  rewrite list_lookup_insert_ne by lia. reflexivity.
Qed.

(** ** Geometry of the padded grid *)

Lemma validp_spec (move : Z) :
  validp move = true <-> 1 <= move / 10 <= 8 /\ 1 <= move mod 10 <= 8.
Proof.
  unfold validp. rewrite !andb_true_iff, !Z.leb_le.
  split.
  - intros [[[H1 H2] H3] H4]. rewrite Z.rem_mod_nonneg in H3, H4 by lia.
    split; [|lia]. Z.to_euclidean_division_equations; lia.
  - intros [H1 H2].
    assert (11 <= move <= 88) by (Z.to_euclidean_division_equations; lia).
    rewrite Z.rem_mod_nonneg by lia. lia.
Qed.

Lemma validp_in_grid (move : Z) : validp move = true -> in_grid move.
Proof.
  intros H. apply validp_spec in H. unfold in_grid, BOARDSIZE.
  Z.to_euclidean_division_equations; lia.
Qed.

Lemma in_ALLDIRECTIONS (dir : Z) :
  In dir ALLDIRECTIONS ->
  dir = -11 \/ dir = -10 \/ dir = -9 \/ dir = -1 \/
  dir = 1 \/ dir = 9 \/ dir = 10 \/ dir = 11.
Proof. simpl. intuition auto. Qed.

(** One step along a ray from an interior cell stays on the grid and
    comes one step closer to the border. *)
Lemma step_in_grid (square dir : Z) :
  validp square = true -> In dir ALLDIRECTIONS ->
  in_grid (square + dir) /\ room (square + dir) dir = room square dir - 1
  /\ 1 <= room square dir <= 8.
Proof.
  intros Hv Hd. apply validp_spec in Hv. apply in_ALLDIRECTIONS in Hd.
  unfold in_grid, BOARDSIZE, room.
  destruct Hd as [->|[->|[->|[->|[->|[->|[->| ->]]]]]]]; simpl;
    Z.to_euclidean_division_equations; lia.
Qed.

Lemma room_nonneg (square dir : Z) : in_grid square -> 0 <= room square dir.
Proof.
  unfold in_grid, BOARDSIZE, room. intros H.
  destruct (dir <=? -9), (9 <=? dir), (dir =? -1);
    Z.to_euclidean_division_equations; lia.
Qed.


(** ** Boards with a sentinel border *)

Lemma border_outer_length (b : Board) : border_outer b -> length b = 100%nat.
Proof.
  unfold border_outer, border_outerb. rewrite andb_true_iff.
  intros [H _]. apply Nat.eqb_eq in H. exact H.
Qed.

Lemma border_outer_total (b : Board) (i : Z) :
  border_outer b -> in_grid i -> exists v, rd b i = Ok v.
Proof.
  intros Hb Hi. apply rd_total. rewrite (border_outer_length b Hb).
  unfold in_grid, BOARDSIZE in Hi. lia.
Qed.

Lemma in_grid_seqZ (i : Z) : in_grid i <-> In i (seqZ 0 BOARDSIZE).
Proof. rewrite <- list_elem_of_In, elem_of_seqZ. unfold in_grid. lia. Qed.

Lemma border_outer_rd (b : Board) (i : Z) :
  border_outer b -> in_grid i -> validp i = false -> rd b i = Ok OUTER.
Proof.
  unfold border_outer, border_outerb. rewrite andb_true_iff.
  intros [_ H] Hi Hv. rewrite forallb_forall in H.
  apply in_grid_seqZ in Hi. apply H in Hi. rewrite Hv, orb_false_l in Hi.
  destruct (rd b i) as [v|e]; [|discriminate].
  apply Z.eqb_eq in Hi. congruence.
Qed.

Lemma border_outer_intro (b : Board) :
  length b = 100%nat ->
  (forall i, in_grid i -> validp i = false -> rd b i = Ok OUTER) ->
  border_outer b.
Proof.
  intros Hl H. unfold border_outer, border_outerb. rewrite andb_true_iff. split.
  - apply Nat.eqb_eq, Hl.
  - apply forallb_forall. intros i Hi. apply in_grid_seqZ in Hi.
    destruct (validp i) eqn:E; [reflexivity|].
    rewrite (H i Hi E). reflexivity.
Qed.

Lemma opponent_player (player : Z) :
  is_player player ->
  is_player (opponent player) /\ opponent player <> player
  /\ opponent player <> OUTER /\ opponent player <> EMPTY
  /\ opponent (opponent player) = player.
Proof. intros [-> | ->]; vm_compute; intuition congruence. Qed.

(** A cell that holds a piece of a player is an interior cell. *)
Lemma piece_is_interior (g : Board) (square v : Z) :
  border_outer g -> in_grid square -> rd g square = Ok v -> v <> OUTER ->
  validp square = true.
Proof.
  intros Hb Hg Hr Hv. destruct (validp square) eqn:E; [reflexivity|].
  rewrite (border_outer_rd g square Hb Hg E) in Hr. congruence.
Qed.

(** ** The ray scan *)

Section Scan.
Variables (g : Board) (dir player : Z).
Hypothesis Hborder : border_outer g.
Hypothesis Hplayer : is_player player.
Hypothesis Hdir : In dir ALLDIRECTIONS.

(** From any cell of the grid the scan of [find_bracket_piece] stops
    within [room] steps, at the first cell that does not hold the
    opponent, and every cell it reads is on the grid. *)
Lemma find_bracket_piece_scan (fuel : nat) :
  forall square : Z,
    in_grid square -> room square dir < Z.of_nat fuel ->
    exists n v,
      0 <= n <= room square dir
      /\ (forall j, 0 <= j < n -> rd g (square + j * dir) = Ok (opponent player))
      /\ rd g (square + n * dir) = Ok v
      /\ v <> opponent player
      /\ find_bracket_piece fuel g square dir player
         = Ok (if v =? player then square + n * dir else 0).
Proof.
  induction fuel as [|fuel IH]; intros square Hg Hroom.
  - pose proof (room_nonneg square dir Hg). lia.
  - destruct (border_outer_total g square Hborder Hg) as [v Hv].
    destruct (opponent_player player Hplayer) as (_ & Hne & Hout & _ & _).
    simpl. rewrite Hv. simpl.
    destruct (Z.eqb_spec v (opponent player)) as [->|Hvo].
    + assert (validp square = true) as Hval
        by (eapply piece_is_interior; eauto).
      destruct (step_in_grid square dir Hval Hdir) as (Hg' & Hr' & Hr).
      destruct (IH (square + dir) Hg') as (n & v' & Hn & Hrun & Hstop & Hv' & Hres);
        [lia|].
      exists (n + 1), v'.
      replace (square + (n + 1) * dir) with (square + dir + n * dir) by lia.
      split; [lia|]. split; [|auto].
      intros j Hj. destruct (Z.eq_dec j 0) as [->|Hj0].
      * rewrite Z.mul_0_l, Z.add_0_r. exact Hv.
      * replace (square + j * dir) with (square + dir + (j - 1) * dir) by lia.
        apply Hrun. lia.
    + exists 0, v.
      pose proof (room_nonneg square dir Hg).
      rewrite Z.mul_0_l, Z.add_0_r.
      split; [lia|]. split; [intros; lia|]. split; [exact Hv|]. split; [exact Hvo|].
      destruct (v =? player); reflexivity.
Qed.

(** [would_flip] from an interior cell: it returns, and a non-zero
    result is the bracketing square at the end of a run of opponent
    pieces. *)
Lemma would_flip_scan (move : Z) :
  validp move = true ->
  exists r,
    would_flip g move dir player = Ok r
    /\ (r = 0 \/
        exists k, 2 <= k <= 8 /\ r = move + k * dir /\ r <> 0
                  /\ in_grid r /\ rd g r = Ok player
                  /\ forall j, 1 <= j < k -> rd g (move + j * dir) = Ok (opponent player)).
Proof.
  intros Hval.
  destruct (step_in_grid move dir Hval Hdir) as (Hg1 & Hr1 & Hroom).
  destruct (border_outer_total g (move + dir) Hborder Hg1) as [v Hv].
  destruct (opponent_player player Hplayer) as (_ & Hne & Hout & _ & _).
  unfold would_flip. rewrite Hv. cbn [rbind].
  destruct (Z.eqb_spec v (opponent player)) as [->|Hvo]; [|eauto].
  assert (validp (move + dir) = true) as Hval1
    by (eapply piece_is_interior; eauto).
  destruct (step_in_grid (move + dir) dir Hval1 Hdir) as (Hg2 & Hr2 & _).
  destruct (find_bracket_piece_scan ray_fuel (move + dir + dir) Hg2)
    as (n & v' & Hn & Hrun & Hstop & Hv' & Hres).
  { pose proof ray_fuel_bound. lia. }
  rewrite Hres. eexists. split; [reflexivity|].
  destruct (Z.eqb_spec v' player) as [->|Hvp]; [|left; reflexivity].
  assert (in_grid (move + dir + dir + n * dir)) as Hgr.
  { apply rd_Ok_range in Hstop. rewrite (border_outer_length g Hborder) in Hstop.
    unfold in_grid, BOARDSIZE. lia. }
  assert (validp (move + dir + dir + n * dir) = true) as Hvr.
  { eapply piece_is_interior; eauto. destruct Hplayer as [-> | ->]; discriminate. }
  right. exists (n + 2).
  replace (move + (n + 2) * dir) with (move + dir + dir + n * dir) by lia.
  split; [lia|]. split; [reflexivity|]. split.
  { intros H0. rewrite H0 in Hvr. discriminate Hvr. }
  split; [exact Hgr|]. split; [exact Hstop|].
  intros j Hj. destruct (Z.eq_dec j 1) as [->|Hj1].
  - rewrite Z.mul_1_l. exact Hv.
  - replace (move + j * dir) with (move + dir + dir + (j - 2) * dir) by lia.
    apply Hrun. lia.
Qed.
End Scan.


(** ** C9: the sentinel border stops every ray scan *)

(** C9.  On a 100-cell board whose non-interior cells are all [OUTER], for
    a player BLACK or WHITE, an interior move and a direction of
    [ALLDIRECTIONS]: [would_flip] returns (no read leaves the array), and
    [find_bracket_piece], started on any cell of the grid, stops after at
    most 9 steps on the first cell that does not hold the opponent, every
    cell it reads lying in 0..99; any fuel above 9 is enough. *)
Theorem ray_scans_terminate (g : Board) (player move dir : Z) :
  border_outer g -> is_player player -> validp move = true ->
  In dir ALLDIRECTIONS ->
  (exists r, would_flip g move dir player = Ok r
             /\ (r = 0 \/ (in_grid r /\ rd g r = Ok player)))
  /\ forall (square : Z) (fuel : nat),
       in_grid square -> (9 < fuel)%nat ->
       exists n v,
         0 <= n <= 9
         /\ (forall j, 0 <= j <= n -> in_grid (square + j * dir))
         /\ (forall j, 0 <= j < n -> rd g (square + j * dir) = Ok (opponent player))
         /\ rd g (square + n * dir) = Ok v
         /\ v <> opponent player
         /\ find_bracket_piece fuel g square dir player
            = Ok (if v =? player then square + n * dir else 0).
Proof.
  intros Hb Hp Hv Hd. split.
  - destruct (would_flip_scan g dir player Hb Hp Hd move Hv) as (r & Hr & Hcase).
    exists r. split; [exact Hr|].
    destruct Hcase as [->|(k & _ & _ & _ & Hg & Hrd & _)]; auto.
  - intros square fuel Hg Hfuel.
    assert (room square dir <= 9) as Hroom.
    { unfold room, in_grid, BOARDSIZE in *.
      destruct (dir <=? -9), (9 <=? dir), (dir =? -1);
        Z.to_euclidean_division_equations; lia. }
    destruct (find_bracket_piece_scan g dir player Hb Hp Hd fuel square Hg)
      as (n & v & Hn & Hrun & Hstop & Hvo & Hres); [lia|].
    exists n, v. split; [lia|]. split; [|auto].
    intros j Hj. assert (exists w, rd g (square + j * dir) = Ok w) as [w Hw].
    { destruct (Z.eq_dec j n) as [->|]; [eauto|]. eexists. apply Hrun. lia. }
    apply rd_Ok_range in Hw. rewrite (border_outer_length g Hb) in Hw.
    unfold in_grid, BOARDSIZE. lia.
Qed.

Lemma ray_scans_terminate_witness :
  border_outer initialise_board /\ is_player BLACK /\ validp 34 = true
  /\ In 10 ALLDIRECTIONS
  /\ exists r, would_flip initialise_board 34 10 BLACK = Ok r
               /\ (r = 0 \/ (in_grid r /\ rd initialise_board r = Ok BLACK)).
Proof.
  assert (border_outer initialise_board) as Hb by (vm_compute; reflexivity).
  assert (is_player BLACK) as Hp by (left; reflexivity).
  assert (validp 34 = true) as Hv by reflexivity.
  assert (In 10 ALLDIRECTIONS) as Hd by (simpl; tauto).
  split; [exact Hb|]. split; [exact Hp|]. split; [exact Hv|]. split; [exact Hd|].
  exact (proj1 (ray_scans_terminate initialise_board BLACK 34 10 Hb Hp Hv Hd)).
Defined.

(** ** C10: move strings *)

Lemma interior_cases (loc : Z) :
  1 <= Z.quot loc 10 <= 8 -> 1 <= Z.rem loc 10 <= 8 ->
  exists r c, loc = 10 * r + c /\ 1 <= r <= 8 /\ 1 <= c <= 8
              /\ Z.quot loc 10 = r /\ Z.rem loc 10 = c.
Proof.
  intros Hr Hc. exists (Z.quot loc 10), (Z.rem loc 10).
  repeat split; try lia. Z.to_euclidean_division_equations; lia.
Qed.

(** C10.  For an interior cell [loc] (row component [loc / 10] and column
    component [loc % 10] both in 1..8), [get_loc] decodes the string that
    [get_move_string] produces back to [loc]; that string is the digit of
    the 0-based row, the digit of the 0-based column and a newline; and
    cell 11 is encoded as "00" followed by the newline. *)
Theorem move_string_round_trip (loc : Z) :
  1 <= Z.quot loc 10 <= 8 -> 1 <= Z.rem loc 10 <= 8 ->
  get_loc (get_move_string loc) = Ok loc
  /\ (exists d1 d2,
        digits !! Z.to_nat (Z.quot loc 10 - 1) = Some d1
        /\ digits !! Z.to_nat (Z.rem loc 10 - 1) = Some d2
        /\ get_move_string loc = String d1 (String d2 (String "010" EmptyString)))
  /\ get_move_string 11 = String "0" (String "0" (String "010" EmptyString)).
Proof.
  intros Hr Hc.
  destruct (interior_cases loc Hr Hc) as (r & c & -> & Hr' & Hc' & Hq & Hm).
  rewrite Hq, Hm. clear Hr Hc Hq Hm.
  assert (r = 1 \/ r = 2 \/ r = 3 \/ r = 4 \/ r = 5 \/ r = 6 \/ r = 7 \/ r = 8)
    as Hrs by lia.
  assert (c = 1 \/ c = 2 \/ c = 3 \/ c = 4 \/ c = 5 \/ c = 6 \/ c = 7 \/ c = 8)
    as Hcs by lia.
  destruct Hrs as [->|[->|[->|[->|[->|[->|[->| ->]]]]]]];
    destruct Hcs as [->|[->|[->|[->|[->|[->|[->| ->]]]]]]];
    (split; [reflexivity|]; split; [|reflexivity]);
    vm_compute; eexists _, _; repeat split.
Qed.

Lemma move_string_round_trip_witness :
  1 <= Z.quot 34 10 <= 8 /\ 1 <= Z.rem 34 10 <= 8
  /\ get_loc (get_move_string 34) = Ok 34.
Proof.
  assert (1 <= Z.quot 34 10 <= 8) as Hr by (change (Z.quot 34 10) with 3; lia).
  assert (1 <= Z.rem 34 10 <= 8) as Hc by (change (Z.rem 34 10) with 4; lia).
  split; [exact Hr|]. split; [exact Hc|].
  exact (proj1 (move_string_round_trip 34 Hr Hc)).
Defined.


(** ** Totality of the move engine on bordered boards *)

Lemma some_dir_flips_total (g : Board) (move player : Z) (dirs : list Z) :
  border_outer g -> is_player player -> validp move = true ->
  (forall d, In d dirs -> In d ALLDIRECTIONS) ->
  exists r, some_dir_flips g move player dirs = Ok r.
Proof.
  intros Hb Hp Hv. induction dirs as [|d dirs IH]; intros Hd.
  - eexists. reflexivity.
  - destruct (would_flip_scan g d player Hb Hp (Hd d (or_introl eq_refl)) move Hv)
      as (r & Hr & _).
    cbn [some_dir_flips]. rewrite Hr. cbn [rbind].
    destruct (r =? 0); [|eauto].
    apply IH. intros d' Hd'. apply Hd. right. exact Hd'.
Qed.

Lemma legalp_total (g : Board) (move player : Z) :
  border_outer g -> is_player player -> exists r, legalp g move player = Ok r.
Proof.
  intros Hb Hp. unfold legalp. destruct (validp move) eqn:Hv; [|eauto].
  cbn [negb].
  destruct (border_outer_total g move Hb (validp_in_grid move Hv)) as [v ->].
  cbn [rbind]. destruct (v =? EMPTY); [|eauto].
  apply some_dir_flips_total; auto.
Qed.

Lemma num_valid_moves_loop_total (g : Board) (player : Z) (n : nat) :
  border_outer g -> is_player player ->
  forall move i, exists r, num_valid_moves_loop n move g player i = Ok r.
Proof.
  intros Hb Hp. induction n as [|n IH]; intros move i.
  - eexists. reflexivity.
  - cbn [num_valid_moves_loop].
    destruct (legalp_total g move player Hb Hp) as [l ->]. cbn [rbind]. apply IH.
Qed.

Lemma num_valid_moves_total (g : Board) (player : Z) (board : Board) :
  border_outer g -> is_player player ->
  exists r, num_valid_moves g player board = Ok r.
Proof. intros. apply num_valid_moves_loop_total; assumption. Qed.

Lemma legal_moves_loop_total (g : Board) (player : Z) (n : nat) :
  border_outer g -> is_player player ->
  forall move, exists l, legal_moves_loop n move g player = Ok l.
Proof.
  intros Hb Hp. induction n as [|n IH]; intros move.
  - eexists. reflexivity.
  - cbn [legal_moves_loop].
    destruct (legalp_total g move player Hb Hp) as [l ->].
    destruct (IH (move + 1)) as [rest ->]. cbn [rbind]. eauto.
Qed.

Lemma game_stage_loop_total (g : Board) (my_colour opp : Z) (n : nat) :
  forall i p o,
    0 <= i -> i + Z.of_nat n <= Z.of_nat (length g) ->
    exists r, game_stage_loop n i g my_colour opp p o = Ok r.
Proof.
  induction n as [|n IH]; intros i p o Hi Hn.
  - eexists. reflexivity.
  - cbn [game_stage_loop].
    destruct (rd_total g i) as [v ->]; [lia|]. cbn [rbind].
    destruct (v =? my_colour); [apply IH; lia|].
    destruct (v =? opp); apply IH; lia.
Qed.

Lemma game_stage_total (g : Board) (my_colour : Z) :
  border_outer g -> exists stage, game_stage g my_colour = Ok stage.
Proof.
  intros Hb. unfold game_stage.
  destruct (game_stage_loop_total g my_colour (opponent my_colour) 88 1 0 0)
    as [r ->]; [lia| |].
  - rewrite (border_outer_length g Hb). lia.
  - cbn [rbind]. eauto.
Qed.

(** ** The mobility term *)

Lemma mobility_of_same (n : Z) : mobility_of n n = 0.
Proof.
  unfold mobility_of. destruct (negb (n + n =? 0)); [|reflexivity].
  rewrite Z.sub_diag, Z.mul_0_r. reflexivity.
Qed.

(** Both move counts of [evaluate] are taken for [player], so the
    mobility term vanishes whatever the boards. *)
Lemma mobility_term_zero (g : Board) (my_colour player : Z) (board : Board)
  (t : terms) :
  evaluate_terms g my_colour player board = Ok t -> mobility t = 0.
Proof.
  unfold evaluate_terms.
  destruct (num_valid_moves g player board) as [n|]; [|discriminate].
  cbn [rbind].
  destruct (tally_loop _ _ _ _ _ _) as [tl|]; [|discriminate]. cbn [rbind].
  destruct (parity_of _ _) as [par|]; [|discriminate]. cbn [rbind].
  destruct (corners_captured _ _ _) as [occ|]; [|discriminate]. cbn [rbind].
  destruct (corner_closeness _ _ _) as [c|]; [|discriminate]. cbn [rbind].
  destruct (game_stage _ _) as [stage|]; [|discriminate]. cbn [rbind].
  intros H. invert H. cbn [mobility]. rewrite mobility_of_same. lia.
Qed.

(** C3.  On the position reached after BLACK 34 and WHITE 33, BLACK has
    4 legal moves and WHITE has 5, the game stage is 1, and the formula
    [100 * (playerMoves - oppMoves) / (playerMoves + oppMoves)] scaled by
    [3 - game_stage()] gives -22 for BLACK; the mobility term that
    [evaluate] computes for BLACK on that position is 0. *)
Theorem mobility_term_ignores_opponent :
  play_game initialise_board BLACK [34; 33] = Some two_moves_board
  /\ legal_moves two_moves_board BLACK = Ok [32; 43; 56; 65]
  /\ legal_moves two_moves_board (opponent BLACK) = Ok [24; 35; 46; 53; 64]
  /\ game_stage two_moves_board BLACK = Ok 1
  /\ (3 - 1) * mobility_of 4 5 = -22
  /\ exists t, evaluate_terms two_moves_board BLACK BLACK two_moves_board = Ok t
               /\ mobility t = 0.
Proof.
  do 5 (split; [vm_compute; reflexivity|]).
  eexists. split; [vm_compute; reflexivity|reflexivity].
Qed.

(** ** The corner-closeness term *)

Lemma near_corner_skip (player opp : Z) (board : Board) (corner : Z)
  (adjacent : list Z) (po po' : Z * Z) :
  rd board corner <> Ok dot ->
  near_corner player opp board corner adjacent po = Ok po' -> po' = po.
Proof.
  unfold near_corner. intros Hne.
  destruct (rd board corner) as [v|]; [|discriminate]. cbn [rbind].
  destruct (Z.eqb_spec v dot) as [->|_]; [congruence|].
  intros H. invert H. reflexivity.
Qed.

(** The corners are compared with the character ['.'] (46), not with
    [EMPTY] (0): on a board none of whose corners holds 46 no adjacent cell
    is counted. *)
Lemma corner_closeness_zero (player opp : Z) (board : Board) (r : Z) :
  (forall c, In c [11; 18; 81; 88] -> rd board c <> Ok dot) ->
  corner_closeness player opp board = Ok r -> r = 0.
Proof.
  intros Hc. unfold corner_closeness.
  destruct (near_corner _ _ _ 11 _ _) as [p1|] eqn:E1; [|discriminate].
  apply near_corner_skip in E1 as ->; [|apply Hc; simpl; tauto]. cbn [rbind].
  destruct (near_corner _ _ _ 18 _ _) as [p2|] eqn:E2; [|discriminate].
  apply near_corner_skip in E2 as ->; [|apply Hc; simpl; tauto]. cbn [rbind].
  destruct (near_corner _ _ _ 81 _ _) as [p3|] eqn:E3; [|discriminate].
  apply near_corner_skip in E3 as ->; [|apply Hc; simpl; tauto]. cbn [rbind].
  destruct (near_corner _ _ _ 88 _ _) as [p4|] eqn:E4; [|discriminate].
  apply near_corner_skip in E4 as ->; [|apply Hc; simpl; tauto]. cbn [rbind].
  intros H. invert H. reflexivity.
Qed.

(** C4.  In the game BLACK 34, WHITE 33, BLACK 32, WHITE 22 the corner 11
    is still [EMPTY] and its diagonal neighbour 22 is held by WHITE: for
    BLACK the count of the claim is -1 and the term [-12.5 * -1] truncates
    to 12, for WHITE it is +1 and the term is -12; the corner-closeness
    term that [evaluate] computes is 0 for both. *)
Theorem corner_closeness_never_counts :
  play_game initialise_board BLACK [34; 33; 32; 22] = Some x_square_board
  /\ wf_board x_square_board
  /\ rd x_square_board 11 = Ok EMPTY
  /\ rd x_square_board 22 = Ok WHITE
  /\ Z.quot (-125 * (0 - 1)) 10 = 12
  /\ Z.quot (-125 * (1 - 0)) 10 = -12
  /\ corner_closeness BLACK (opponent BLACK) x_square_board = Ok 0
  /\ corner_closeness WHITE (opponent WHITE) x_square_board = Ok 0
  /\ (exists t, evaluate_terms x_square_board BLACK BLACK x_square_board = Ok t
                /\ cc t = 0)
  /\ (exists t, evaluate_terms x_square_board BLACK WHITE x_square_board = Ok t
                /\ cc t = 0).
Proof.
  do 8 (split; [vm_compute; reflexivity|]).
  split; eexists; (split; [vm_compute; reflexivity|reflexivity]).
Qed.

(** ** The parity term *)

(** When some piece is on the board the parity term is the truncated
    quotient. *)
Lemma parity_of_defined (pcoins ocoins : Z) :
  pcoins + ocoins > 0 ->
  parity_of pcoins ocoins = Ok (Z.quot (100 * (pcoins - ocoins)) (pcoins + ocoins)).
Proof.
  intros H. unfold parity_of.
  destruct (Z.eqb_spec (pcoins + ocoins) 0); [lia|reflexivity].
Qed.

(** C5.  The board with an empty interior is well formed, both coin
    counts are zero on it, and [evaluate] divides by zero there, for either
    player: the parity quotient has no guard. *)
Theorem parity_divides_by_zero :
  wf_board empty_board
  /\ tally_loop 88 1 BLACK (opponent BLACK) empty_board (Tally 0 0 0 0)
     = Ok (Tally 0 0 0 0)
  /\ evaluate empty_board BLACK BLACK empty_board = Err DivisionByZero
  /\ evaluate empty_board BLACK WHITE empty_board = Err DivisionByZero
  /\ evaluate initialise_board BLACK BLACK empty_board = Err DivisionByZero.
Proof.
  do 4 (split; [vm_compute; reflexivity|]). vm_compute. reflexivity.
Qed.

(** ** The base case of the search *)

Lemma bind_Ok {A B : Type} (m : M A) (k : A -> M B) (s s' : state) (a : A) :
  m s = Ok (a, s') -> bind m k s = k a s'.
Proof. intros H. unfold bind. rewrite H. reflexivity. Qed.

Lemma run_legal_moves_Ok (s : state) (g : Board) (player : Z) (l : list Z) :
  s_heap s !! s_board s = Some g -> legal_moves g player = Ok l ->
  run_legal_moves player s = Ok (l, s).
Proof.
  intros Hg Hl. unfold run_legal_moves, bind, get_board, deref, lift.
  rewrite Hg, Hl. reflexivity.
Qed.

Lemma copy_board_Ok (s : state) (p : nat) (b : Board) :
  s_heap s !! p = Some b ->
  copy_board p s
  = Ok (length (s_heap s),
        State (s_heap s ++ [b]) (s_board s) (s_my_colour s) (s_size s)).
Proof.
  intros Hb. unfold copy_board, bind, deref. rewrite Hb. reflexivity.
Qed.

Lemma run_evaluate_eq (s : state) (g b : Board) (player : Z) (p : nat) :
  s_heap s !! s_board s = Some g -> s_heap s !! p = Some b ->
  run_evaluate player p s
  = match evaluate g (s_my_colour s) player b with
    | Ok v => Ok (v, s)
    | Err e => Err e
    end.
Proof.
  intros Hg Hb. unfold run_evaluate, bind, get_board, get_my_colour, deref, lift.
  rewrite Hg, Hb. reflexivity.
Qed.

(** At depth 0 [alpha_beta] evaluates a copy of [sent_board] as it was
    handed in: [move_made], [alpha], [beta] and [colour] play no part. *)
Lemma alpha_beta_depth_0 (fuel : nat) (move_made alpha beta colour : Z)
  (sent_board : nat) (s : state) (g b : Board) (l : list Z) :
  s_heap s !! s_board s = Some g ->
  s_heap s !! sent_board = Some b ->
  legal_moves g (s_my_colour s) = Ok l ->
  alpha_beta (S fuel) move_made alpha beta colour 0 sent_board s
  = match evaluate g (s_my_colour s) (s_my_colour s) b with
    | Ok v => Ok (v, State (s_heap s ++ [b]) (s_board s) (s_my_colour s) (s_size s))
    | Err e => Err e
    end.
Proof.
  intros Hg Hb Hl. cbn [alpha_beta].
  rewrite (bind_Ok get_my_colour _ s s (s_my_colour s)) by reflexivity.
  rewrite (bind_Ok _ _ s s l) by (eapply run_legal_moves_Ok; eauto).
  rewrite (bind_Ok _ _ _ _ _ (copy_board_Ok s sent_board b Hb)).
  cbn [Z.eqb].
  assert (s_board s < length (s_heap s))%nat as Hp by (eapply lookup_lt_Some; eauto).
  erewrite run_evaluate_eq; cbn [s_heap s_board s_my_colour s_size].
  - reflexivity.
  - rewrite lookup_app_l by exact Hp. exact Hg.
  - rewrite lookup_app_r by lia. rewrite Nat.sub_diag. reflexivity.
Qed.

(** C2.  From the opening position with BLACK as root colour, move 34 is
    legal for BLACK; [alpha_beta] at depth 0 on it returns 0, the
    evaluation of the position before the move, whereas the position after
    34 evaluates to 609. *)
Theorem depth_0_skips_move_made :
  legalp initialise_board 34 BLACK = Ok true
  /\ (exists s', alpha_beta 1 34 (-10000) 10000 BLACK 0 0
                   (serial_state initialise_board) = Ok (0, s'))
  /\ evaluate initialise_board BLACK BLACK initialise_board = Ok 0
  /\ exists b', make_move initialise_board 34 BLACK = Ok b'
                /\ evaluate b' BLACK BLACK b' = Ok 609
                /\ evaluate initialise_board BLACK BLACK b' = Ok 609.
Proof.
  split; [vm_compute; reflexivity|]. split.
  - eexists. vm_compute. reflexivity.
  - split; [vm_compute; reflexivity|].
    eexists. split; [vm_compute; reflexivity|].
    split; vm_compute; reflexivity.
Qed.

(** ** Best-move selection *)

(** As long as no recorded score exceeds the current best score, the
    selection loop keeps the current best move. *)
Lemma select_loop_keeps (rec_Moves rec_Scores : list Z) (best_move best_score : Z)
  (n : nat) :
  forall i,
    (forall j, i <= j < i + Z.of_nat n ->
               exists sc, rd rec_Scores j = Ok sc /\ sc <= best_score) ->
    select_loop n i rec_Moves rec_Scores best_move best_score = Ok best_move.
Proof.
  induction n as [|n IH]; intros i H; [reflexivity|].
  cbn [select_loop]. destruct (H i) as (sc & -> & Hsc); [lia|]. cbn [rbind].
  destruct (Z.gtb_spec sc best_score) as [|_]; [lia|].
  apply IH. intros j Hj. apply H. lia.
Qed.

(** When no recorded score exceeds -2000 the coordinator returns the move
    recorded first, whatever the scores. *)
Lemma select_best_all_low (rec_Moves rec_Scores : list Z) (moves_rec : nat)
  (first : Z) :
  rd rec_Moves 0 = Ok first ->
  (forall j, 0 <= j < Z.of_nat moves_rec ->
             exists sc, rd rec_Scores j = Ok sc /\ sc <= -2000) ->
  select_best rec_Moves rec_Scores moves_rec = Ok first.
Proof.
  intros Hf H. unfold select_best. rewrite Hf. cbn [rbind].
  apply select_loop_keeps. intros j Hj. apply H. lia.
Qed.

(** C7.  Coordinator: in a game of 14 legal moves BLACK is to move with
    the legal moves 34, 47, 53 and 58; a worker of a three-process run
    scores 58 as -20453 and the other three as -10000.  When the result
    for 58 is recorded first, the selection loop returns 58, although the
    three other recorded moves have a strictly greater score.
    Serial fallback: in a game of 6 legal moves BLACK is to move with the
    legal moves 43, 56 and 65, and [serial] returns -100, which is none of
    them.  Both loops start from a best score of -2000. *)
Theorem selection_misses_low_scores :
  (play_game initialise_board BLACK
     [56; 64; 73; 57; 67; 77; 63; 35; 78; 82; 76; 62; 72; 81]
   = Some no_reply_board
   /\ legal_moves no_reply_board BLACK = Ok [34; 47; 53; 58]
   /\ score (minimax 58 BLACK 0 (worker_state no_reply_board)) = Ok (-20453)
   /\ score (minimax 34 BLACK 0 (worker_state no_reply_board)) = Ok (-10000)
   /\ score (minimax 47 BLACK 0 (worker_state no_reply_board)) = Ok (-10000)
   /\ score (minimax 53 BLACK 0 (worker_state no_reply_board)) = Ok (-10000)
   /\ select_best [58; 34; 47; 53] [-20453; -10000; -10000; -10000] 4 = Ok 58)
  /\ (play_game initialise_board BLACK [34; 33; 32; 22; 12; 11]
      = Some corner_taken_board
      /\ legal_moves corner_taken_board BLACK = Ok [43; 56; 65]
      /\ score (serial BLACK (serial_state corner_taken_board)) = Ok (-100)).
Proof.
  split.
  - do 6 (split; [vm_compute; reflexivity|]). vm_compute. reflexivity.
  - do 2 (split; [vm_compute; reflexivity|]). vm_compute. reflexivity.
Qed.


(** ** Colour symmetry of the evaluator *)

Lemma rd_swap_board (b : Board) (i : Z) :
  rd (swap_board b) i
  = match rd b i with
    | Ok v => Ok (swap_cell v)
    | Err e => Err e
    end.
Proof.
  unfold rd, swap_board. destruct (0 <=? i); [|reflexivity].
  rewrite list_lookup_fmap. destruct (b !! Z.to_nat i); reflexivity.
Qed.

Lemma swap_cell_opponent (player v : Z) :
  is_player player -> (swap_cell v =? opponent player) = (v =? player).
Proof.
  intros Hp. apply Bool.eq_iff_eq_true. rewrite !Z.eqb_eq.
  destruct Hp as [-> | ->]; unfold swap_cell, opponent, BLACK, WHITE; simpl;
    destruct (Z.eqb_spec v 1), (Z.eqb_spec v 2); lia.
Qed.

Lemma swap_cell_player (player v : Z) :
  is_player player -> (swap_cell v =? player) = (v =? opponent player).
Proof.
  intros Hp. apply Bool.eq_iff_eq_true. rewrite !Z.eqb_eq.
  destruct Hp as [-> | ->]; unfold swap_cell, opponent, BLACK, WHITE; simpl;
    destruct (Z.eqb_spec v 1), (Z.eqb_spec v 2); lia.
Qed.

Lemma swap_cell_dot (v : Z) : (swap_cell v =? dot) = (v =? dot).
Proof.
  apply Bool.eq_iff_eq_true. rewrite !Z.eqb_eq.
  unfold swap_cell, dot, BLACK, WHITE.
  destruct (Z.eqb_spec v 1), (Z.eqb_spec v 2); lia.
Qed.

Section Swap.
Variables (player : Z) (board : Board).
Hypothesis Hplayer : is_player player.

Lemma tally_loop_swap (n : nat) :
  forall (i : Z) (t : tally),
    tally_loop n i (opponent player) player (swap_board board) t
    = tally_loop n i player (opponent player) board t.
Proof.
  induction n as [|n IH]; intros i t; [reflexivity|].
  cbn [tally_loop]. rewrite rd_swap_board.
  destruct (rd board i) as [v|e]; [|reflexivity]. cbn [rbind].
  rewrite swap_cell_opponent, swap_cell_player by exact Hplayer.
  destruct (v =? player).
  - destruct (rd weights i); [|reflexivity]. cbn [rbind]. apply IH.
  - destruct (v =? opponent player); [|apply IH].
    destruct (rd weights i); [|reflexivity]. cbn [rbind]. apply IH.
Qed.

Lemma tick_swap (c : Z) (po : Z * Z) :
  tick (opponent player) player (swap_board board) c po
  = tick player (opponent player) board c po.
Proof.
  unfold tick. rewrite rd_swap_board.
  destruct (rd board c) as [v|e]; [|reflexivity]. cbn [rbind].
  rewrite swap_cell_opponent, swap_cell_player by exact Hplayer. reflexivity.
Qed.

Lemma ticks_swap (cells : list Z) :
  forall po : Z * Z,
    rfoldl (fun po c => tick (opponent player) player (swap_board board) c po) po cells
    = rfoldl (fun po c => tick player (opponent player) board c po) po cells.
Proof.
  induction cells as [|c cells IH]; intros po; [reflexivity|].
  cbn [rfoldl]. rewrite tick_swap.
  destruct (tick player (opponent player) board c po); [|reflexivity].
  cbn [rbind]. apply IH.
Qed.

Lemma corners_captured_swap :
  corners_captured (opponent player) player (swap_board board)
  = corners_captured player (opponent player) board.
Proof. unfold corners_captured. rewrite ticks_swap. reflexivity. Qed.

Lemma near_corner_swap (corner : Z) (adjacent : list Z) (po : Z * Z) :
  near_corner (opponent player) player (swap_board board) corner adjacent po
  = near_corner player (opponent player) board corner adjacent po.
Proof.
  unfold near_corner. rewrite rd_swap_board.
  destruct (rd board corner) as [v|e]; [|reflexivity]. cbn [rbind].
  rewrite swap_cell_dot. destruct (v =? dot); [apply ticks_swap|reflexivity].
Qed.

Lemma corner_closeness_swap :
  corner_closeness (opponent player) player (swap_board board)
  = corner_closeness player (opponent player) board.
Proof.
  unfold corner_closeness.
  repeat (rewrite near_corner_swap;
          destruct (near_corner player (opponent player) board _ _ _);
          [cbn [rbind]|reflexivity]).
  reflexivity.
Qed.

(** The evaluation of the swapped board for the opponent has the same
    five terms, whatever well-bordered global boards and whatever global
    colours the two calls run with. *)
Lemma evaluate_terms_swap (g g' : Board) (my_colour my_colour' : Z) :
  border_outer g -> border_outer g' ->
  evaluate_terms g' my_colour' (opponent player) (swap_board board)
  = evaluate_terms g my_colour player board.
Proof.
  intros Hg Hg'.
  destruct (opponent_player player Hplayer) as (Hopp & _ & _ & _ & Hinv).
  unfold evaluate_terms. rewrite Hinv.
  destruct (num_valid_moves_total g' (opponent player) (swap_board board) Hg' Hopp)
    as [n' ->].
  destruct (num_valid_moves_total g player board Hg Hplayer) as [n ->].
  destruct (game_stage_total g my_colour Hg) as [stage ->].
  destruct (game_stage_total g' my_colour' Hg') as [stage' ->].
  cbn [rbind]. rewrite tally_loop_swap, corners_captured_swap, corner_closeness_swap.
  destruct (tally_loop 88 1 player (opponent player) board _); [|reflexivity].
  cbn [rbind]. destruct (parity_of _ _); [|reflexivity].
  cbn [rbind]. destruct (corners_captured _ _ _); [|reflexivity].
  cbn [rbind]. destruct (corner_closeness _ _ _); [|reflexivity].
  cbn [rbind]. rewrite !mobility_of_same, !Z.mul_0_r. reflexivity.
Qed.
End Swap.

Lemma border_outer_swap (g : Board) : border_outer g -> border_outer (swap_board g).
Proof.
  intros Hg. apply border_outer_intro.
  - unfold swap_board. rewrite length_fmap. apply border_outer_length, Hg.
  - intros i Hi Hv. rewrite rd_swap_board, (border_outer_rd g i Hg Hi Hv).
    reflexivity.
Qed.

(** C8.  For a player BLACK or WHITE and any board [B], evaluating the
    colour-swapped board for the opponent gives the same result as
    evaluating [B] for the player (the same score, or the same failure).
    The globals that [evaluate] reads besides its arguments may be any
    well-bordered board and any colour on either side; in particular the
    global board may be kept, or swapped as well. *)
Theorem evaluate_colour_symmetry (g g' : Board) (my_colour my_colour' : Z)
  (player : Z) (B : Board) :
  is_player player -> border_outer g -> border_outer g' ->
  evaluate g' my_colour' (opponent player) (swap_board B)
  = evaluate g my_colour player B
  /\ evaluate (swap_board g) my_colour (opponent player) (swap_board B)
     = evaluate g my_colour player B.
Proof.
  intros Hp Hg Hg'. unfold evaluate. split.
  - rewrite (evaluate_terms_swap player B Hp g g' my_colour my_colour' Hg Hg').
    reflexivity.
  - rewrite (evaluate_terms_swap player B Hp g (swap_board g) my_colour my_colour Hg
               (border_outer_swap g Hg)).
    reflexivity.
Qed.

Lemma evaluate_colour_symmetry_witness :
  is_player BLACK /\ border_outer two_moves_board /\ border_outer initialise_board
  /\ evaluate initialise_board WHITE (opponent BLACK) (swap_board two_moves_board)
     = evaluate two_moves_board BLACK BLACK two_moves_board.
Proof.
  assert (is_player BLACK) as Hp by (left; reflexivity).
  assert (border_outer two_moves_board) as Hg by (vm_compute; reflexivity).
  assert (border_outer initialise_board) as Hg' by (vm_compute; reflexivity).
  split; [exact Hp|]. split; [exact Hg|]. split; [exact Hg'|].
  exact (proj1 (evaluate_colour_symmetry two_moves_board initialise_board BLACK WHITE
                  BLACK two_moves_board Hp Hg Hg')).
Defined.


(** ** Counting pieces *)

Lemma count_loop_shift (q : Z) (g : Board) (n : nat) :
  forall s acc d c,
    count_loop n s q g acc = Ok c -> count_loop n s q g (acc + d) = Ok (c + d).
Proof.
  induction n as [|n IH]; intros s acc d c H.
  - cbn in *. invert H. reflexivity.
  - cbn [count_loop] in *. destruct (rd g s) as [y|]; [|discriminate].
    cbn [rbind] in *.
    replace (if y =? q then acc + d + 1 else acc + d)
      with ((if y =? q then acc + 1 else acc) + d) by (destruct (y =? q); lia).
    apply IH, H.
Qed.

Lemma count_loop_total (q : Z) (g : Board) (n : nat) :
  forall s acc,
    0 <= s -> s + Z.of_nat n <= Z.of_nat (length g) ->
    exists c, count_loop n s q g acc = Ok c.
Proof.
  induction n as [|n IH]; intros s acc Hs Hn.
  - eexists. reflexivity.
  - cbn [count_loop]. destruct (rd_total g s) as [y ->]; [lia|].
    cbn [rbind]. apply IH; lia.
Qed.

Lemma count_eq (q : Z) (g : Board) : count q g = count_loop 88 1 q g 0.
Proof. reflexivity. Qed.

Lemma count_total (q : Z) (g : Board) :
  length g = 100%nat -> exists c, count q g = Ok c.
Proof. intros Hl. rewrite count_eq. apply count_loop_total; lia. Qed.

Lemma in_range_true (s i n : Z) :
  s <= i < s + n -> (s <=? i) && (i <? s + n) = true.
Proof. intros H. apply andb_true_iff. rewrite Z.leb_le, Z.ltb_lt. exact H. Qed.

Lemma in_range_false (s i n : Z) :
  ~ (s <= i < s + n) -> (s <=? i) && (i <? s + n) = false.
Proof.
  intros H. destruct (Z.leb_spec s i), (Z.ltb_spec i (s + n)); try reflexivity. lia.
Qed.

(** One write changes the count of [q] by what the cell gains and loses. *)
Lemma count_loop_wr (g g' : Board) (i v x q : Z) (n : nat) :
  wr g i v = Ok g' -> rd g i = Ok x ->
  forall s acc c,
    count_loop n s q g acc = Ok c ->
    count_loop n s q g' acc
    = Ok (c + (if (s <=? i) && (i <? s + Z.of_nat n)
               then ind (v =? q) - ind (x =? q) else 0)).
Proof.
  intros Hw Hx. induction n as [|n IH]; intros s acc c H.
  - cbn [count_loop] in *. invert H.
    rewrite in_range_false by lia. f_equal. lia.
  - cbn [count_loop] in *. destruct (rd g s) as [y|] eqn:Hy; [|discriminate].
    cbn [rbind] in H. destruct (Z.eq_dec s i) as [->|Hne].
    + rewrite (rd_wr_same g g' i v Hw). cbn [rbind].
      rewrite Hx in Hy. invert Hy.
      apply IH in H. rewrite in_range_false in H by lia.
      rewrite in_range_true by lia.
      apply (count_loop_shift q g' n (i + 1) _ (ind (v =? q) - ind (y =? q))) in H.
      replace (if v =? q then acc + 1 else acc)
        with ((if y =? q then acc + 1 else acc) + (ind (v =? q) - ind (y =? q)))
        by (unfold ind; destruct (v =? q), (y =? q); lia).
      rewrite H. f_equal. lia.
    + rewrite (rd_wr_other g g' i s v Hw Hne), Hy. cbn [rbind].
      apply IH in H. rewrite H. do 2 f_equal.
      destruct (Z_lt_le_dec i s) as [Hlt|Hge].
      * rewrite !in_range_false by lia. reflexivity.
      * destruct (Z_lt_le_dec i (s + Z.of_nat (S n))).
        -- rewrite !in_range_true by lia. reflexivity.
        -- rewrite !in_range_false by lia. reflexivity.
Qed.

Lemma count_wr (g g' : Board) (i v x q c : Z) :
  wr g i v = Ok g' -> rd g i = Ok x -> validp i = true ->
  count q g = Ok c ->
  count q g' = Ok (c + ind (v =? q) - ind (x =? q)).
Proof.
  intros Hw Hx Hv Hc.
  assert (1 <= i < 1 + 88) as Hi.
  { apply validp_spec in Hv. clear - Hv. Z.to_euclidean_division_equations; lia. }
  rewrite count_eq in Hc |- *.
  pose proof (count_loop_wr g g' i v x q 88 Hw Hx 1 0 c Hc) as H.
  change (Z.of_nat 88) with 88 in H.
  rewrite (in_range_true 1 i 88 Hi) in H.
  rewrite H. f_equal. lia.
Qed.

(** ** Runs of flips *)

Section Converts.
Variables (player opp : Z).
Hypothesis Hne : player <> opp.

Lemma converts_refl (g : Board) : converts player opp 0 g g.
Proof.
  unfold converts. split; [lia|]. split; [reflexivity|]. split; [auto|].
  intros q c H. rewrite H. f_equal. lia.
Qed.

Lemma converts_trans (k1 k2 : Z) (g1 g2 g3 : Board) :
  converts player opp k1 g1 g2 -> converts player opp k2 g2 g3 ->
  converts player opp (k1 + k2) g1 g3.
Proof.
  intros (Hk1 & Hl1 & Hp1 & Hc1) (Hk2 & Hl2 & Hp2 & Hc2).
  unfold converts. split; [lia|]. split; [congruence|]. split.
  - intros i. destruct (Hp2 i) as [E2|(Hv & Ho & Hn)].
    + rewrite E2. apply Hp1.
    + destruct (Hp1 i) as [E1|(_ & _ & Hn1)].
      * right. rewrite <- E1. auto.
      * congruence.
  - intros q c H. rewrite (Hc2 q _ (Hc1 q c H)). f_equal. lia.
Qed.

(** Writing [player] over an interior cell that holds [opp]. *)
Lemma converts_write (g g' : Board) (i : Z) :
  rd g i = Ok opp -> validp i = true -> wr g i player = Ok g' ->
  converts player opp 1 g g'.
Proof.
  intros Hr Hv Hw. unfold converts. split; [lia|].
  split; [eapply wr_length; eauto|]. split.
  - intros j. destruct (Z.eq_dec j i) as [->|Hj].
    + right. rewrite (rd_wr_same g g' i player Hw). auto.
    + left. eapply rd_wr_other; eauto.
  - intros q c Hc. rewrite (count_wr g g' i player opp q c Hw Hr Hv Hc).
    f_equal. rewrite (Z.eqb_sym player q), (Z.eqb_sym opp q). lia.
Qed.

Lemma converts_border (k : Z) (g g' : Board) :
  converts player opp k g g' -> border_outer g -> border_outer g'.
Proof.
  intros (_ & Hl & Hp & _) Hb. apply border_outer_intro.
  - rewrite Hl. apply border_outer_length, Hb.
  - intros i Hi Hv. destruct (Hp i) as [->|(Hv' & _)]; [|congruence].
    apply border_outer_rd; assumption.
Qed.

End Converts.

(** ** Extensionality of the ray scan *)

Lemma dir_nonzero (dir : Z) : In dir ALLDIRECTIONS -> dir <> 0.
Proof. intros H. apply in_ALLDIRECTIONS in H. lia. Qed.

Lemma off_origin (move dir j : Z) : dir <> 0 -> j <> 0 -> move + j * dir <> move.
Proof.
  intros Hd Hj H. assert (j * dir = 0) as H0 by lia.
  apply Z.mul_eq_0 in H0. lia.
Qed.

Lemma find_bracket_piece_ext (g g' : Board) (dir player : Z) (fuel : nat) :
  forall square,
    (forall j, 0 <= j -> rd g (square + j * dir) = rd g' (square + j * dir)) ->
    find_bracket_piece fuel g square dir player
    = find_bracket_piece fuel g' square dir player.
Proof.
  induction fuel as [|fuel IH]; intros square H; [reflexivity|].
  cbn [find_bracket_piece].
  assert (rd g square = rd g' square) as ->.
  { specialize (H 0). rewrite Z.mul_0_l, Z.add_0_r in H. apply H. lia. }
  destruct (rd g' square) as [v|]; cbn [rbind]; [|reflexivity].
  destruct (v =? opponent player); [|reflexivity].
  apply IH. intros j Hj.
  replace (square + dir + j * dir) with (square + (j + 1) * dir) by lia.
  apply H. lia.
Qed.

Lemma would_flip_eq (g : Board) (move dir player : Z) :
  would_flip g move dir player
  = rbind (rd g (move + dir))
      (fun v => if v =? opponent player
                then find_bracket_piece ray_fuel g (move + dir + dir) dir player
                else Ok 0).
Proof. reflexivity. Qed.

Lemma would_flip_ext (g g' : Board) (move dir player : Z) :
  (forall j, 1 <= j -> rd g (move + j * dir) = rd g' (move + j * dir)) ->
  would_flip g move dir player = would_flip g' move dir player.
Proof.
  intros H. rewrite !would_flip_eq.
  assert (rd g (move + dir) = rd g' (move + dir)) as E.
  { specialize (H 1). rewrite Z.mul_1_l in H. apply H. lia. }
  rewrite E. destruct (rd g' (move + dir)) as [v|]; cbn [rbind]; [|reflexivity].
  destruct (v =? opponent player); [|reflexivity].
  apply find_bracket_piece_ext. intros j Hj.
  replace (move + dir + dir + j * dir) with (move + (j + 2) * dir) by lia.
  apply H. lia.
Qed.

Lemma some_dir_flips_ext (g g' : Board) (move player : Z) (dirs : list Z) :
  (forall d j, In d dirs -> 1 <= j -> rd g (move + j * d) = rd g' (move + j * d)) ->
  some_dir_flips g move player dirs = some_dir_flips g' move player dirs.
Proof.
  induction dirs as [|d dirs IH]; intros H; [reflexivity|].
  cbn [some_dir_flips].
  rewrite (would_flip_ext g g' move d player)
    by (intros j Hj; apply H; [left; reflexivity|exact Hj]).
  destruct (would_flip g' move d player) as [r|]; cbn [rbind]; [|reflexivity].
  destruct (r =? 0); [|reflexivity].
  apply IH. intros d' j Hd' Hj. apply H; [right; exact Hd'|exact Hj].
Qed.

(** ** Flips along one ray and along all rays *)

Section Flips.
Variables (player move : Z).
Hypothesis Hplayer : is_player player.
Hypothesis Hmove : validp move = true.

Lemma player_neq_opponent : player <> opponent player.
Proof. destruct (opponent_player player Hplayer) as (_ & H & _). congruence. Qed.

Lemma flip_run_converts (dir : Z) (fuel : nat) :
  dir <> 0 ->
  forall (n c : Z) (g : Board),
    1 <= n <= Z.of_nat fuel ->
    (forall j, 0 <= j < n ->
               rd g (c + j * dir) = Ok (opponent player)
               /\ validp (c + j * dir) = true) ->
    exists g',
      flip_run fuel g c dir player (c + n * dir) = Ok g'
      /\ converts player (opponent player) n g g'.
Proof.
  intros Hd. induction fuel as [|fuel IH]; intros n c g Hn Hrun; [lia|].
  destruct (Hrun 0) as [Hc Hv]; [lia|].
  rewrite Z.mul_0_l, Z.add_0_r in Hc, Hv.
  pose proof (wr_total g c player (rd_Ok_range g c _ Hc)) as Hw.
  pose proof (converts_write player (opponent player) g _ c Hc Hv Hw) as Hone.
  cbn [flip_run]. rewrite Hw. cbn [rbind].
  destruct (Z.eqb_spec (c + dir) (c + n * dir)) as [He|Hne].
  - assert (n = 1) as ->.
    { assert ((n - 1) * dir = 0) as H0 by lia. apply Z.mul_eq_0 in H0. lia. }
    eauto.
  - assert (n <> 1) as Hn1 by (intros ->; lia).
    destruct (IH (n - 1) (c + dir) (<[Z.to_nat c := player]> g)) as (g' & Hg' & Hconv).
    + lia.
    + intros j Hj.
      replace (c + dir + j * dir) with (c + (j + 1) * dir) by lia.
      rewrite (rd_wr_other g _ c (c + (j + 1) * dir) player Hw)
        by (apply off_origin; lia).
      apply Hrun. lia.
    + replace (c + dir + (n - 1) * dir) with (c + n * dir) in Hg' by lia.
      exists g'. split; [exact Hg'|].
      replace n with (1 + (n - 1)) by lia.
      exact (converts_trans player (opponent player) player_neq_opponent
               1 (n - 1) g _ g' Hone Hconv).
Qed.

(** [make_flips] in one direction: nothing happens when [would_flip]
    answers 0, otherwise at least one opponent piece is converted. *)
Lemma make_flips_converts (g : Board) (dir : Z) :
  border_outer g -> In dir ALLDIRECTIONS ->
  exists r g' k,
    would_flip g move dir player = Ok r
    /\ make_flips g move dir player = Ok g'
    /\ converts player (opponent player) k g g'
    /\ (r = 0 -> g' = g /\ k = 0)
    /\ (r <> 0 -> 1 <= k).
Proof.
  intros Hb Hd.
  destruct (opponent_player player Hplayer) as (_ & _ & Hout & _ & _).
  destruct (would_flip_scan g dir player Hb Hplayer Hd move Hmove)
    as (r & Hr & [->|(k & Hk & -> & Hr0 & Hgr & Hrd & Hrun)]).
  - exists 0, g, 0. unfold make_flips. rewrite Hr. cbn [rbind Z.eqb].
    split; [reflexivity|]. split; [reflexivity|].
    split; [apply converts_refl|]. split; [auto|congruence].
  - destruct (flip_run_converts dir ray_fuel (dir_nonzero dir Hd) (k - 1)
                (move + dir) g) as (g' & Hg' & Hconv).
    + pose proof ray_fuel_bound. lia.
    + intros j Hj.
      replace (move + dir + j * dir) with (move + (j + 1) * dir) by lia.
      assert (rd g (move + (j + 1) * dir) = Ok (opponent player)) as Hcell
        by (apply Hrun; lia).
      split; [exact Hcell|].
      eapply piece_is_interior; eauto.
      apply rd_Ok_range in Hcell. rewrite (border_outer_length g Hb) in Hcell.
      unfold in_grid, BOARDSIZE. lia.
    + replace (move + dir + (k - 1) * dir) with (move + k * dir) in Hg' by lia.
      exists (move + k * dir), g', (k - 1).
      unfold make_flips. rewrite Hr. cbn [rbind].
      destruct (Z.eqb_spec (move + k * dir) 0) as [E|_]; [congruence|].
      split; [reflexivity|]. split; [exact Hg'|]. split; [exact Hconv|].
      split; [congruence|lia].
Qed.

(** All the directions in turn: the board ends with [k] conversions, and
    [k] is positive exactly when the direction loop of [legalp] succeeds on
    the board the flips started from. *)
Lemma make_flips_all_converts (dirs : list Z) :
  (forall d, In d dirs -> In d ALLDIRECTIONS) ->
  forall g : Board,
    border_outer g ->
    exists g' k,
      make_flips_all g move player dirs = Ok g'
      /\ converts player (opponent player) k g g'
      /\ some_dir_flips g move player dirs = Ok (0 <? k).
Proof.
  induction dirs as [|d dirs IH]; intros Hd g Hb.
  - exists g, 0. split; [reflexivity|]. split; [|reflexivity].
    apply converts_refl.
  - destruct (make_flips_converts g d Hb (Hd d (or_introl eq_refl)))
      as (r & g1 & k1 & Hr & Hg1 & Hc1 & Hzero & Hpos).
    destruct (IH (fun d' H => Hd d' (or_intror H)) g1) as (g' & k2 & Hg' & Hc2 & Hs).
    { exact (converts_border player (opponent player) k1 g g1 Hc1 Hb). }
    exists g', (k1 + k2). unfold make_flips_all in *. cbn [rfoldl some_dir_flips].
    rewrite Hg1, Hr. cbn [rbind]. split; [exact Hg'|]. split.
    + exact (converts_trans player (opponent player) player_neq_opponent
               k1 k2 g g1 g' Hc1 Hc2).
    + destruct Hc2 as (Hk2 & _).
      destruct (Z.eqb_spec r 0) as [E|E].
      * destruct (Hzero E) as [-> ->]. exact Hs.
      * specialize (Hpos E). f_equal. symmetry. apply Z.ltb_lt. lia.
Qed.
End Flips.


(** ** Well-formed boards *)

Lemma wf_board_border (b : Board) : wf_board b -> border_outer b.
Proof.
  unfold wf_board, wf_boardb. rewrite andb_true_iff. intros [H _]. exact H.
Qed.

Lemma wf_board_piece (b : Board) (i : Z) :
  wf_board b -> validp i = true -> exists v, rd b i = Ok v /\ pieceb v = true.
Proof.
  unfold wf_board, wf_boardb. rewrite andb_true_iff. intros [_ H] Hv.
  rewrite forallb_forall in H.
  specialize (H i (proj1 (in_grid_seqZ i) (validp_in_grid i Hv))).
  rewrite Hv in H. cbn [negb orb] in H.
  destruct (rd b i) as [v|]; [eauto|discriminate].
Qed.

Lemma wf_board_intro (b : Board) :
  border_outer b ->
  (forall i, validp i = true -> exists v, rd b i = Ok v /\ pieceb v = true) ->
  wf_board b.
Proof.
  intros Hb H. unfold wf_board, wf_boardb. rewrite andb_true_iff.
  split; [exact Hb|]. apply forallb_forall. intros i _.
  destruct (validp i) eqn:Hv; [|reflexivity]. cbn [negb orb].
  destruct (H i Hv) as (v & -> & Hp). exact Hp.
Qed.

Lemma pieceb_cases (v : Z) : pieceb v = true -> v = EMPTY \/ v = BLACK \/ v = WHITE.
Proof.
  unfold pieceb. rewrite !orb_true_iff, !Z.eqb_eq. tauto.
Qed.

Lemma legalp_eq (g : Board) (move player : Z) :
  legalp g move player
  = if negb (validp move) then Ok false
    else rbind (rd g move)
           (fun v => if v =? EMPTY
                     then some_dir_flips g move player ALLDIRECTIONS
                     else Ok false).
Proof. reflexivity. Qed.

Lemma make_move_eq (g : Board) (move player : Z) :
  make_move g move player
  = rbind (wr g move player)
      (fun g' => make_flips_all g' move player ALLDIRECTIONS).
Proof. reflexivity. Qed.

(** ** C6: legality and the effect of a move *)

(** What [make_move] does to a well-formed board, whatever the target
    cell holds: the cell takes the player's colour and [k] opponent
    pieces are converted, where [k] is positive exactly when some
    direction would flip. *)
Lemma make_move_effect (B : Board) (player move x : Z) :
  wf_board B -> is_player player -> validp move = true ->
  rd B move = Ok x ->
  exists B1 B' k,
    wr B move player = Ok B1
    /\ make_move B move player = Ok B'
    /\ converts player (opponent player) k B1 B'
    /\ some_dir_flips B move player ALLDIRECTIONS = Ok (0 <? k).
Proof.
  intros Hwf Hp Hv Hx.
  pose proof (wf_board_border B Hwf) as Hb.
  pose proof (wr_total B move player (rd_Ok_range B move x Hx)) as Hw.
  assert (border_outer (<[Z.to_nat move := player]> B)) as Hb1.
  { apply border_outer_intro.
    - rewrite length_insert. apply border_outer_length, Hb.
    - intros i Hi Hvi.
      rewrite (rd_wr_other B _ move i player Hw) by congruence.
      apply border_outer_rd; assumption. }
  destruct (make_flips_all_converts player move Hp Hv ALLDIRECTIONS
              (fun d H => H) _ Hb1) as (B' & k & HB' & Hconv & Hs).
  exists (<[Z.to_nat move := player]> B), B', k.
  split; [exact Hw|]. split.
  - rewrite make_move_eq, Hw. exact HB'.
  - split; [exact Hconv|]. rewrite <- Hs.
    apply some_dir_flips_ext. intros d j Hd Hj. symmetry.
    apply (rd_wr_other B _ move (move + j * d) player Hw).
    apply off_origin; [apply dir_nonzero, Hd|lia].
Qed.

(** C6.  On a well-formed board [B], for a player BLACK or WHITE and an
    interior move: [make_move] and [legalp] return, and [legalp] answers
    true if and only if the move raises the player's piece count by
    [1 + f] and lowers the opponent's by the same [f], for some number
    [f >= 1] of flipped pieces.  Moreover the counts of BLACK, WHITE and
    EMPTY cells keep their sum, every cell outside the interior is left as
    it was, and the board is still well formed (its border is OUTER). *)
Theorem legal_iff_gain (B : Board) (player move : Z) :
  wf_board B -> is_player player -> validp move = true ->
  exists B' l p o e p' o' e',
    make_move B move player = Ok B'
    /\ legalp B move player = Ok l
    /\ count player B = Ok p
    /\ count (opponent player) B = Ok o
    /\ count EMPTY B = Ok e
    /\ count player B' = Ok p'
    /\ count (opponent player) B' = Ok o'
    /\ count EMPTY B' = Ok e'
    /\ (l = true <-> exists f, 1 <= f /\ p' = p + 1 + f /\ o' = o - f)
    /\ p' + o' + e' = p + o + e
    /\ (forall i, validp i = false -> rd B' i = rd B i)
    /\ wf_board B'.
Proof.
  intros Hwf Hp Hv.
  pose proof (wf_board_border B Hwf) as Hb.
  pose proof (border_outer_length B Hb) as Hlen.
  destruct (wf_board_piece B move Hwf Hv) as (x & Hx & Hpx).
  destruct (make_move_effect B player move x Hwf Hp Hv Hx)
    as (B1 & B' & k & Hw & Hmm & Hconv & Hs).
  destruct (count_total player B Hlen) as [p Hcp].
  destruct (count_total (opponent player) B Hlen) as [o Hco].
  destruct (count_total EMPTY B Hlen) as [e Hce].
  pose proof (count_wr B B1 move player x _ _ Hw Hx Hv Hcp) as Hcp1.
  pose proof (count_wr B B1 move player x _ _ Hw Hx Hv Hco) as Hco1.
  pose proof (count_wr B B1 move player x _ _ Hw Hx Hv Hce) as Hce1.
  destruct Hconv as (Hk & Hl & Hpt & Hcnt).
  pose proof (Hcnt _ _ Hcp1) as Hcp'.
  pose proof (Hcnt _ _ Hco1) as Hco'.
  pose proof (Hcnt _ _ Hce1) as Hce'.
  exists B', (if x =? EMPTY then 0 <? k else false).
  do 6 eexists.
  split; [exact Hmm|]. split.
  { rewrite legalp_eq, Hv, Hx. cbn [negb rbind].
    destruct (x =? EMPTY); [exact Hs|reflexivity]. }
  split; [exact Hcp|]. split; [exact Hco|]. split; [exact Hce|].
  split; [exact Hcp'|]. split; [exact Hco'|]. split; [exact Hce'|].
  assert (forall i, validp i = false -> rd B' i = rd B i) as Hframe.
  { intros i Hi. destruct (Hpt i) as [->|(Hvi & _)]; [|congruence].
    apply (rd_wr_other B B1 move i player Hw). congruence. }
  split; [|split; [|split; [exact Hframe|]]].
  - apply pieceb_cases in Hpx.
    destruct Hp as [-> | ->]; destruct Hpx as [-> | [-> | ->]];
      cbn; unfold ind; cbn;
      (split; [intros Hl0; try discriminate; apply Z.ltb_lt in Hl0;
               exists k; lia
              |intros (f & Hf1 & Hf2 & Hf3); try lia; apply Z.ltb_lt; lia]).
  - apply pieceb_cases in Hpx.
    destruct Hp as [-> | ->]; destruct Hpx as [-> | [-> | ->]];
      cbn; unfold ind; cbn; lia.
  - apply wf_board_intro.
    + apply border_outer_intro.
      * rewrite Hl, (wr_length B B1 move player Hw). exact Hlen.
      * intros i Hi Hvi. rewrite (Hframe i Hvi). apply border_outer_rd; assumption.
    + intros i Hvi. destruct (Hpt i) as [E|(_ & _ & E)].
      * rewrite E. destruct (Z.eq_dec i move) as [->|Hne].
        -- rewrite (rd_wr_same B B1 move player Hw). eexists. split; [reflexivity|].
           destruct Hp as [-> | ->]; reflexivity.
        -- rewrite (rd_wr_other B B1 move i player Hw Hne).
           apply wf_board_piece; assumption.
      * rewrite E. eexists. split; [reflexivity|].
        destruct Hp as [-> | ->]; reflexivity.
Qed.

Lemma legal_iff_gain_witness :
  wf_board initialise_board /\ is_player BLACK /\ validp 34 = true
  /\ exists B' l p o e p' o' e',
    make_move initialise_board 34 BLACK = Ok B'
    /\ legalp initialise_board 34 BLACK = Ok l
    /\ count BLACK initialise_board = Ok p
    /\ count (opponent BLACK) initialise_board = Ok o
    /\ count EMPTY initialise_board = Ok e
    /\ count BLACK B' = Ok p'
    /\ count (opponent BLACK) B' = Ok o'
    /\ count EMPTY B' = Ok e'
    /\ (l = true <-> exists f, 1 <= f /\ p' = p + 1 + f /\ o' = o - f)
    /\ p' + o' + e' = p + o + e
    /\ (forall i, validp i = false -> rd B' i = rd initialise_board i)
    /\ wf_board B'.
Proof.
  assert (wf_board initialise_board) as Hwf by (vm_compute; reflexivity).
  assert (is_player BLACK) as Hp by (left; reflexivity).
  assert (validp 34 = true) as Hv by reflexivity.
  split; [exact Hwf|]. split; [exact Hp|]. split; [exact Hv|].
  exact (legal_iff_gain initialise_board BLACK 34 Hwf Hp Hv).
Defined.


(** ** The search and the coordinator's board *)

(** *** What a move writes *)

Lemma flip_run_cells (dir player bracketer : Z) (fuel : nat) :
  forall (g g' : Board) (c : Z),
    flip_run fuel g c dir player bracketer = Ok g' ->
    forall i, rd g' i = rd g i \/ rd g' i = Ok player.
Proof.
  induction fuel as [|fuel IH]; intros g g' c H i; [discriminate|].
  cbn [flip_run] in H. destruct (wr g c player) as [g1|] eqn:Hw; [|discriminate].
  cbn [rbind] in H.
  assert (rd g1 i = rd g i \/ rd g1 i = Ok player) as H1.
  { destruct (Z.eq_dec i c) as [->|Hne].
    - right. eapply rd_wr_same; eauto.
    - left. eapply rd_wr_other; eauto. }
  destruct (c + dir =? bracketer).
  - invert H. exact H1.
  - destruct (IH g1 g' (c + dir) H i) as [E|E]; [|auto].
    rewrite E. exact H1.
Qed.

Lemma make_flips_cells (g g' : Board) (move dir player : Z) :
  make_flips g move dir player = Ok g' ->
  forall i, rd g' i = rd g i \/ rd g' i = Ok player.
Proof.
  unfold make_flips. destruct (would_flip g move dir player) as [r|]; [|discriminate].
  cbn [rbind]. destruct (r =? 0).
  - intros H. invert H. auto.
  - apply flip_run_cells.
Qed.

Lemma make_flips_all_cells (move player : Z) (dirs : list Z) :
  forall g g' : Board,
    make_flips_all g move player dirs = Ok g' ->
    forall i, rd g' i = rd g i \/ rd g' i = Ok player.
Proof.
  unfold make_flips_all. induction dirs as [|d dirs IH]; intros g g' H i.
  - cbn [rfoldl] in H. invert H. auto.
  - cbn [rfoldl] in H.
    destruct (make_flips g move d player) as [g1|] eqn:H1; [|discriminate].
    cbn [rbind] in H.
    destruct (IH g1 g' H i) as [E|E]; [|auto].
    rewrite E. eapply make_flips_cells; eauto.
Qed.

(** After [make_move] the target cell holds the player's colour, and any
    other cell is as before or holds the player's colour. *)
Lemma make_move_cells (g g' : Board) (move player : Z) :
  make_move g move player = Ok g' ->
  rd g' move = Ok player
  /\ forall i, rd g' i = rd g i \/ rd g' i = Ok player.
Proof.
  rewrite make_move_eq.
  destruct (wr g move player) as [g1|] eqn:Hw; [|discriminate]. cbn [rbind].
  intros H. pose proof (make_flips_all_cells move player _ g1 g' H) as Hc. split.
  - destruct (Hc move) as [E|E]; [|exact E].
    rewrite E. eapply rd_wr_same; eauto.
  - intros i. destruct (Hc i) as [E|E]; [|auto].
    rewrite E. destruct (Z.eq_dec i move) as [->|Hne].
    + right. eapply rd_wr_same; eauto.
    + left. eapply rd_wr_other; eauto.
Qed.

(** *** The search keeps every piece on the heap *)

Lemma bind_inv {A B : Type} (m : M A) (k : A -> M B) (s s'' : state) (b : B) :
  bind m k s = Ok (b, s'') ->
  exists a s', m s = Ok (a, s') /\ k a s' = Ok (b, s'').
Proof.
  unfold bind. destruct (m s) as [[a s']|]; [|discriminate]. eauto.
Qed.

Lemma keeps_pieces_refl (s : state) : keeps_pieces s s.
Proof. intros p b H. exists b. split; [exact H|]. eauto. Qed.

Lemma keeps_pieces_trans (s1 s2 s3 : state) :
  keeps_pieces s1 s2 -> keeps_pieces s2 s3 -> keeps_pieces s1 s3.
Proof.
  intros H12 H23 p b Hb.
  destruct (H12 p b Hb) as (b2 & Hb2 & Hc2).
  destruct (H23 p b2 Hb2) as (b3 & Hb3 & Hc3).
  exists b3. split; [exact Hb3|]. intros i v Hv Hp.
  destruct (Hc2 i v Hv Hp) as (v2 & Hv2 & Hp2). eauto.
Qed.

Lemma copy_board_keeps (p a : nat) (s s' : state) :
  copy_board p s = Ok (a, s') ->
  keeps_pieces s s' /\ s_board s' = s_board s /\ s_my_colour s' = s_my_colour s.
Proof.
  unfold copy_board, bind, deref. destruct (s_heap s !! p) as [b|]; [|discriminate].
  intros H. invert H. cbn [s_heap s_board s_my_colour]. split; [|auto].
  intros q c Hq. exists c. split; [|eauto].
  cbn [s_heap]. rewrite lookup_app_l; [exact Hq|]. eapply lookup_lt_Some; eauto.
Qed.

Lemma run_legal_moves_state (player : Z) (l : list Z) (s s' : state) :
  run_legal_moves player s = Ok (l, s') -> s' = s.
Proof.
  unfold run_legal_moves, bind, get_board, deref, lift.
  destruct (s_heap s !! s_board s); [|discriminate].
  destruct (legal_moves _ _); [|discriminate]. intros H. invert H. reflexivity.
Qed.

Lemma run_evaluate_state (player v : Z) (p : nat) (s s' : state) :
  run_evaluate player p s = Ok (v, s') -> s' = s.
Proof.
  unfold run_evaluate, bind, get_board, get_my_colour, deref, lift.
  destruct (s_heap s !! s_board s); [|discriminate].
  destruct (s_heap s !! p); [|discriminate].
  destruct (evaluate _ _ _ _); [|discriminate]. intros H. invert H. reflexivity.
Qed.

(** [run_make_move] rewrites the block the global [board] points to; the
    target cell then holds the player's colour. *)
Lemma run_make_move_effect (move player : Z) (u : unit) (s s' : state) :
  is_player player ->
  run_make_move move player s = Ok (u, s') ->
  keeps_pieces s s' /\ s_board s' = s_board s /\ s_my_colour s' = s_my_colour s
  /\ exists g', s_heap s' !! s_board s = Some g' /\ rd g' move = Ok player.
Proof.
  intros Hp. unfold run_make_move, bind, get_board, deref, lift, store.
  destruct (s_heap s !! s_board s) as [g|] eqn:Hg; [|discriminate].
  destruct (make_move g move player) as [g'|] eqn:Hm; [|discriminate].
  destruct (Nat.ltb_spec (s_board s) (length (s_heap s))) as [Hlt|]; [|discriminate].
  intros H. invert H. cbn [s_heap s_board s_my_colour].
  destruct (make_move_cells g g' move player Hm) as [Hcell Hcells].
  split; [|split; [reflexivity|split; [reflexivity|]]].
  - intros q b Hq. cbn [s_heap].
    destruct (Nat.eq_dec q (s_board s)) as [->|Hne].
    + exists g'. rewrite list_lookup_insert_eq by exact Hlt. split; [reflexivity|].
      assert (b = g) as -> by congruence.
      intros i v Hv Hpv. destruct (Hcells i) as [E|E].
      * rewrite E. eauto.
      * rewrite E. eauto.
    + exists b. rewrite list_lookup_insert_ne by congruence. split; [exact Hq|]. eauto.
  - exists g'. rewrite list_lookup_insert_eq by exact Hlt. auto.
Qed.

Lemma get_my_colour_inv (s s' : state) (mc : Z) :
  get_my_colour s = Ok (mc, s') -> s' = s /\ mc = s_my_colour s.
Proof. unfold get_my_colour. intros H. invert H. auto. Qed.

Lemma ret_inv {A : Type} (a b : A) (s s' : state) :
  ret a s = Ok (b, s') -> s' = s /\ b = a.
Proof. unfold ret. intros H. invert H. auto. Qed.

Lemma set_board_keeps (p : nat) (u : unit) (s s' : state) :
  set_board p s = Ok (u, s') -> keeps_pieces s s'.
Proof.
  unfold set_board. intros H. invert H. intros q b Hq. exists b. split; [exact Hq|].
  eauto.
Qed.

Lemma alpha_beta_loop_keeps (recur : Z -> Z -> Z -> M Z) (colour : Z)
  (new_board : nat) :
  is_player colour ->
  (forall m a b s v s', recur m a b s = Ok (v, s') -> keeps_pieces s s') ->
  forall (moves : list Z) (alpha beta : Z) (s s' : state) (ab : Z * Z),
    alpha_beta_loop recur colour new_board moves alpha beta s = Ok (ab, s') ->
    keeps_pieces s s'.
Proof.
  intros Hp Hrec. induction moves as [|m moves IH]; intros alpha beta s s' ab H.
  - cbn [alpha_beta_loop] in H. apply ret_inv in H as [-> _].
    apply keeps_pieces_refl.
  - cbn [alpha_beta_loop] in H.
    apply bind_inv in H as (result & s1 & H1 & H).
    apply bind_inv in H as (nb & s2 & H2 & H).
    apply bind_inv in H as (u3 & s3 & H3 & H).
    apply bind_inv in H as (u4 & s4 & H4 & H).
    apply bind_inv in H as (mc & s5 & H5 & H).
    apply get_my_colour_inv in H5 as [-> ->]. cbv zeta in H.
    assert (keeps_pieces s s4) as Hk.
    { eapply keeps_pieces_trans; [eapply Hrec; eauto|].
      eapply keeps_pieces_trans; [eapply copy_board_keeps; eauto|].
      eapply keeps_pieces_trans; [eapply set_board_keeps; eauto|].
      eapply run_make_move_effect; eauto. }
    match type of H with
    | (if ?c then _ else _) _ = _ => destruct c
    end.
    + apply ret_inv in H as [-> _]. exact Hk.
    + eapply keeps_pieces_trans; [exact Hk|]. eapply IH; eauto.
Qed.

(** Whatever [alpha_beta] does, no block of the heap loses a piece. *)
Lemma alpha_beta_keeps (fuel : nat) :
  forall (move_made alpha beta colour depth : Z) (sent_board : nat)
         (s s' : state) (v : Z),
    is_player colour ->
    alpha_beta fuel move_made alpha beta colour depth sent_board s = Ok (v, s') ->
    keeps_pieces s s'.
Proof.
  induction fuel as [|fuel IH];
    intros move_made alpha beta colour depth sent_board s s' v Hp H;
    [discriminate|].
  cbn [alpha_beta] in H.
  apply bind_inv in H as (mc & s0 & H0 & H).
  apply get_my_colour_inv in H0 as [-> ->].
  apply bind_inv in H as (l & s1 & H1 & H). apply run_legal_moves_state in H1 as ->.
  apply bind_inv in H as (nb & s2 & H2 & H).
  apply copy_board_keeps in H2 as (K2 & _).
  destruct (depth =? 0).
  { apply run_evaluate_state in H as ->. exact K2. }
  apply bind_inv in H as (u & s3 & H3 & H).
  apply (run_make_move_effect _ _ _ _ _ Hp) in H3 as (K3 & _).
  apply bind_inv in H as (nb' & s4 & H4 & H).
  apply copy_board_keeps in H4 as (K4 & _).
  apply bind_inv in H as (moves & s5 & H5 & H). apply run_legal_moves_state in H5 as ->.
  assert (keeps_pieces s s4) as K
    by (eapply keeps_pieces_trans; [|eapply keeps_pieces_trans]; eauto).
  destruct moves as [|m moves].
  { apply run_evaluate_state in H as ->. exact K. }
  apply bind_inv in H as (ab & s6 & H6 & H). apply ret_inv in H as [-> _].
  eapply keeps_pieces_trans; [exact K|].
  eapply alpha_beta_loop_keeps; [exact Hp| |exact H6].
  intros m' a b t w t' Hr. eapply IH; [|exact Hr].
  apply opponent_player, Hp.
Qed.

(** A search below depth 0 writes its root move into the block the
    global [board] points to when the search starts, and the piece is
    still there when it returns. *)
Lemma alpha_beta_overwrites (fuel : nat) (move_made alpha beta colour depth : Z)
  (sent_board : nat) (s s' : state) (v : Z) :
  is_player colour -> depth <> 0 ->
  alpha_beta fuel move_made alpha beta colour depth sent_board s = Ok (v, s') ->
  exists g' v',
    s_heap s' !! s_board s = Some g' /\ rd g' move_made = Ok v' /\ is_player v'.
Proof.
  intros Hp Hd H. destruct fuel as [|fuel]; [discriminate|].
  cbn [alpha_beta] in H.
  apply bind_inv in H as (mc & s0 & H0 & H).
  apply get_my_colour_inv in H0 as [-> ->].
  apply bind_inv in H as (l & s1 & H1 & H). apply run_legal_moves_state in H1 as ->.
  apply bind_inv in H as (nb & s2 & H2 & H).
  apply copy_board_keeps in H2 as (_ & B2 & _).
  destruct (Z.eqb_spec depth 0) as [|_]; [contradiction|].
  apply bind_inv in H as (u & s3 & H3 & H).
  apply (run_make_move_effect _ _ _ _ _ Hp) in H3 as (_ & _ & _ & g3 & Hg3 & Hcell).
  rewrite B2 in Hg3.
  assert (keeps_pieces s3 s') as K.
  { apply bind_inv in H as (nb' & s4 & H4 & H).
    apply copy_board_keeps in H4 as (K4 & _).
    apply bind_inv in H as (moves & s5 & H5 & H).
    apply run_legal_moves_state in H5 as ->.
    eapply keeps_pieces_trans; [exact K4|].
    destruct moves as [|m moves].
    - apply run_evaluate_state in H as ->. apply keeps_pieces_refl.
    - apply bind_inv in H as (ab & s6 & H6 & H). apply ret_inv in H as [-> _].
      eapply alpha_beta_loop_keeps; [exact Hp| |exact H6].
      intros m' a b t w t' Hr. eapply alpha_beta_keeps; [|exact Hr].
      apply opponent_player, Hp. }
  destruct (K _ _ Hg3) as (g' & Hg' & Hc).
  destruct (Hc move_made colour Hcell Hp) as (v' & Hv' & Hp').
  eauto.
Qed.

(** So does [minimax] on the coordinator's board, whenever the depth
    table gives a depth other than 0: the cell of the root move, [EMPTY]
    before the call for a legal move, holds a piece after it. *)
Lemma minimax_overwrites (move colour : Z) (s s' : state) (g : Board)
  (l : list Z) (v : Z) :
  is_player colour ->
  s_heap s !! s_board s = Some g ->
  legal_moves g (s_my_colour s) = Ok l ->
  dynamic_depth (Z.of_nat (length l)) (s_size s) <> 0 ->
  minimax move colour (s_board s) s = Ok (v, s') ->
  exists g' v',
    s_heap s' !! s_board s = Some g' /\ rd g' move = Ok v' /\ is_player v'.
Proof.
  intros Hp Hg Hl Hd H. unfold minimax in H.
  rewrite (bind_Ok get_my_colour _ s s (s_my_colour s)) in H by reflexivity.
  rewrite (bind_Ok _ _ s s l (run_legal_moves_Ok s g _ l Hg Hl)) in H.
  rewrite (bind_Ok get_size _ s s (s_size s)) in H by reflexivity.
  cbv zeta in H. eapply alpha_beta_overwrites; eauto.
Qed.

(** C1.  In a single-process run from the opening position, 34 is a
    legal root move for BLACK and [minimax] on it returns 609; afterwards
    the block the global [board] pointed to holds a BLACK piece on 34 (and
    differs from the opening position), and the global [board] points to
    another block, which differs from the opening position too.  By
    [minimax_overwrites] the first of these happens in every search whose
    depth is not 0. *)
Theorem search_overwrites_board :
  legal_moves initialise_board BLACK = Ok [34; 43; 56; 65]
  /\ rd initialise_board 34 = Ok EMPTY
  /\ exists s',
       minimax 34 BLACK 0 (serial_state initialise_board) = Ok (609, s')
       /\ (exists b, s_heap s' !! 0%nat = Some b
                     /\ rd b 34 = Ok BLACK /\ b <> initialise_board)
       /\ s_board s' <> 0%nat
       /\ (exists b, s_heap s' !! s_board s' = Some b
                     /\ rd b 34 = Ok BLACK /\ b <> initialise_board).
Proof.
  split; [vm_compute; reflexivity|]. split; [vm_compute; reflexivity|].
  eassert (observe 0 (minimax 34 BLACK 0 (serial_state initialise_board))
           = Ok (609, _, Some _, Some _)) as Hobs by (vm_compute; reflexivity).
  destruct (minimax 34 BLACK 0 (serial_state initialise_board))
    as [[v s']|e]; [|discriminate Hobs].
  cbn [observe] in Hobs. injection Hobs as -> Hp H0 Hb.
  exists s'. split; [reflexivity|]. split; [|split].
  - eexists. split; [exact H0|]. split; [vm_compute; reflexivity|].
    intros H. discriminate H.
  - rewrite Hp. discriminate.
  - eexists. split; [exact Hb|]. split; [vm_compute; reflexivity|].
    intros H. discriminate H.
Qed.


(** ** The list of legal moves *)

Lemma legal_moves_eq (g : Board) (player : Z) :
  legal_moves g player = legal_moves_loop 78 11 g player.
Proof. reflexivity. Qed.

Lemma num_valid_moves_eq (g : Board) (player : Z) (board : Board) :
  num_valid_moves g player board = num_valid_moves_loop 78 11 g player 0.
Proof. reflexivity. Qed.

Lemma legalp_true_validp (g : Board) (move player : Z) :
  legalp g move player = Ok true -> validp move = true.
Proof.
  rewrite legalp_eq. destruct (validp move); [reflexivity|].
  cbn [negb]. discriminate.
Qed.

(** What the scan loop of [legal_moves] collects. *)
Lemma legal_moves_loop_spec (g : Board) (player : Z) (n : nat) :
  forall (move : Z) (l : list Z),
    legal_moves_loop n move g player = Ok l ->
    StronglySorted Z.lt l
    /\ (forall m, In m l -> move <= m < move + Z.of_nat n)
    /\ (forall m, In m l <->
                  move <= m < move + Z.of_nat n /\ legalp g m player = Ok true).
Proof.
  induction n as [|n IH]; intros move l H.
  - cbn [legal_moves_loop] in H. invert H.
    split; [constructor|]. split; [intros m []|].
    intros m. split; [intros []|]. intros [Hm _]. lia.
  - cbn [legal_moves_loop] in H.
    destruct (legalp g move player) as [b|] eqn:Hb; [|discriminate].
    cbn [rbind] in H.
    destruct (legal_moves_loop n (move + 1) g player) as [rest|] eqn:Hrest;
      [|discriminate].
    cbn [rbind] in H. invert H.
    destruct (IH (move + 1) rest Hrest) as (Hs & Hr & Hin).
    assert (forall m, move <= m < move + Z.of_nat (S n) /\ legalp g m player = Ok true
                      <-> (m = move /\ b = true) \/ In m rest) as Hsplit.
    { intros m. rewrite Hin. split.
      - intros [Hm Hl]. destruct (Z.eq_dec m move) as [->|Hne].
        + left. split; [reflexivity|congruence].
        + right. split; [lia|exact Hl].
      - intros [[-> ->]|[Hm Hl]]; split; auto; lia. }
    destruct b.
    + split; [|split].
      * constructor; [exact Hs|]. apply Forall_forall. intros m Hm.
        apply list_elem_of_In, Hr in Hm. lia.
      * intros m [<-|Hm]; [lia|]. apply Hr in Hm. lia.
      * intros m. rewrite Hsplit. cbn [In]. split.
        -- intros [<-|Hm]; auto.
        -- intros [[-> _]|Hm]; auto.
    + split; [exact Hs|]. split.
      * intros m Hm. apply Hr in Hm. lia.
      * intros m. rewrite Hsplit. split; [auto|].
        intros [[_ Hf]|Hm]; [discriminate|exact Hm].
Qed.

(** X1.  On a board with an [OUTER] border, for a player BLACK or WHITE,
    [legal_moves] returns a list that is strictly increasing and holds
    exactly the moves for which [legalp] answers true. *)
Theorem legal_moves_sorted_sound_complete (g : Board) (player : Z) :
  border_outer g -> is_player player ->
  exists l,
    legal_moves g player = Ok l
    /\ StronglySorted Z.lt l
    /\ forall m, In m l <-> legalp g m player = Ok true.
Proof.
  intros Hb Hp. rewrite legal_moves_eq.
  destruct (legal_moves_loop_total g player 78 Hb Hp 11) as [l Hl].
  exists l. split; [exact Hl|].
  destruct (legal_moves_loop_spec g player 78 11 l Hl) as (Hs & _ & Hin).
  split; [exact Hs|]. intros m. rewrite Hin. split; [tauto|].
  intros Hm. split; [|exact Hm].
  apply legalp_true_validp, validp_spec in Hm.
  change (Z.of_nat 78) with 78. Z.to_euclidean_division_equations; lia.
Qed.

Lemma legal_moves_sorted_sound_complete_witness :
  border_outer initialise_board /\ is_player BLACK
  /\ exists l,
    legal_moves initialise_board BLACK = Ok l
    /\ StronglySorted Z.lt l
    /\ forall m, In m l <-> legalp initialise_board m BLACK = Ok true.
Proof.
  assert (border_outer initialise_board) as Hb by (vm_compute; reflexivity).
  assert (is_player BLACK) as Hp by (left; reflexivity).
  split; [exact Hb|]. split; [exact Hp|].
  exact (legal_moves_sorted_sound_complete initialise_board BLACK Hb Hp).
Defined.

(** The scan loop keeps at most one move per interior cell it visits. *)
Lemma legal_moves_loop_length (g : Board) (player : Z) (n : nat) :
  forall (move : Z) (l : list Z),
    legal_moves_loop n move g player = Ok l ->
    (length l <= length (filter (fun m => validp m = true) (seqZ move (Z.of_nat n))))%nat.
Proof.
  induction n as [|n IH]; intros move l H.
  - cbn [legal_moves_loop] in H. invert H. cbn. lia.
  - cbn [legal_moves_loop] in H.
    destruct (legalp g move player) as [b|] eqn:Hb; [|discriminate].
    cbn [rbind] in H.
    destruct (legal_moves_loop n (move + 1) g player) as [rest|] eqn:Hrest;
      [|discriminate].
    cbn [rbind] in H. invert H. apply IH in Hrest.
    rewrite seqZ_cons by lia.
    replace (Z.pred (Z.of_nat (S n))) with (Z.of_nat n) by lia.
    replace (Z.succ move) with (move + 1) by lia.
    rewrite filter_cons. destruct b.
    + apply legalp_true_validp in Hb.
      destruct (decide (validp move = true)); [|contradiction]. cbn [length]. lia.
    + destruct (decide (validp move = true)); cbn [length]; lia.
Qed.

(** X2.  Whatever the board, [legal_moves] returns at most 64 moves: with
    the count kept in cell 0, the 65 cells ([LEGALMOVSBUFSIZE]) of the
    [moves] buffer are never overrun. *)
Theorem legal_moves_fits_buffer (g : Board) (player : Z) :
  match legal_moves g player with
  | Ok l => (length l <= 64)%nat /\ Z.of_nat (length l) + 1 <= 65
  | Err _ => True
  end.
Proof.
  rewrite legal_moves_eq.
  destruct (legal_moves_loop 78 11 g player) as [l|] eqn:Hl; [|exact I].
  apply legal_moves_loop_length in Hl.
  assert (length (filter (fun m => validp m = true) (seqZ 11 (Z.of_nat 78))) = 64%nat)
    as E by (vm_compute; reflexivity).
  rewrite E in Hl. lia.
Qed.

Lemma num_valid_moves_loop_length (g : Board) (player : Z) (n : nat) :
  forall move i,
    num_valid_moves_loop n move g player i
    = rbind (legal_moves_loop n move g player)
        (fun l => Ok (i + Z.of_nat (length l))).
Proof.
  induction n as [|n IH]; intros move i.
  - cbn [num_valid_moves_loop legal_moves_loop rbind length]. f_equal. lia.
  - cbn [num_valid_moves_loop legal_moves_loop].
    destruct (legalp g move player) as [b|]; cbn [rbind]; [|reflexivity].
    rewrite IH.
    destruct (legal_moves_loop n (move + 1) g player) as [rest|]; cbn [rbind];
      [|reflexivity].
    destruct b; cbn [length]; f_equal; lia.
Qed.

(** X3.  [num_valid_moves] returns the length of the list [legal_moves]
    returns for the same player on the global board (and fails when it
    fails); its own [board] argument plays no part. *)
Theorem num_valid_moves_counts_legal_moves (g : Board) (player : Z) (board : Board) :
  num_valid_moves g player board
  = rbind (legal_moves g player) (fun l => Ok (Z.of_nat (length l))).
Proof.
  rewrite num_valid_moves_eq, legal_moves_eq, num_valid_moves_loop_length.
  destruct (legal_moves_loop 78 11 g player); cbn [rbind]; [|reflexivity].
  f_equal.
Qed.


(** ** Legality is bracketing *)

Section Bracket.
Variables (g : Board) (player : Z).
Hypothesis Hborder : border_outer g.
Hypothesis Hplayer : is_player player.

Lemma player_on_grid (i : Z) : rd g i = Ok player -> validp i = true.
Proof.
  intros H. eapply piece_is_interior; eauto.
  - apply rd_Ok_range in H. rewrite (border_outer_length g Hborder) in H.
    unfold in_grid, BOARDSIZE. lia.
  - destruct Hplayer as [-> | ->]; discriminate.
Qed.

Lemma opponent_on_grid (i : Z) : rd g i = Ok (opponent player) -> validp i = true.
Proof.
  intros H. eapply piece_is_interior; eauto.
  - apply rd_Ok_range in H. rewrite (border_outer_length g Hborder) in H.
    unfold in_grid, BOARDSIZE. lia.
  - apply opponent_player, Hplayer.
Qed.

(** A bracket in a direction is what [would_flip] finds there. *)
Lemma would_flip_bracket (move dir k : Z) :
  validp move = true -> In dir ALLDIRECTIONS ->
  bracket g move dir player k ->
  would_flip g move dir player = Ok (move + k * dir) /\ move + k * dir <> 0.
Proof.
  intros Hv Hd (Hk & Hrun & Hend).
  destruct (opponent_player player Hplayer) as (_ & Hne & _).
  assert (move + k * dir <> 0) as Hnz.
  { intros E. rewrite E in Hend. apply player_on_grid in Hend. discriminate Hend. }
  split; [|exact Hnz].
  assert (rd g (move + dir) = Ok (opponent player)) as H1.
  { specialize (Hrun 1). rewrite Z.mul_1_l in Hrun. apply Hrun. lia. }
  rewrite would_flip_eq, H1. cbn [rbind]. rewrite Z.eqb_refl.
  destruct (step_in_grid (move + dir) dir (opponent_on_grid _ H1) Hd)
    as (Hg2 & Hroom & Hr1).
  destruct (find_bracket_piece_scan g dir player Hborder Hplayer Hd ray_fuel
              (move + dir + dir) Hg2) as (n & v & Hn & Hscan & Hstop & Hvo & Hres).
  { pose proof ray_fuel_bound. lia. }
  assert (n + 2 = k) as Hnk.
  { destruct (Z.lt_trichotomy (n + 2) k) as [Hlt|[E|Hgt]]; [|exact E|].
    - exfalso. specialize (Hrun (n + 2)).
      replace (move + (n + 2) * dir) with (move + dir + dir + n * dir) in Hrun by lia.
      rewrite Hstop in Hrun. assert (Ok v = Ok (opponent player)) as E by (apply Hrun; lia).
      congruence.
    - exfalso. specialize (Hscan (k - 2)).
      replace (move + dir + dir + (k - 2) * dir) with (move + k * dir) in Hscan by lia.
      rewrite Hend in Hscan.
      assert (Ok player = Ok (opponent player)) as E by (apply Hscan; lia).
      congruence. }
  replace (move + dir + dir + n * dir) with (move + k * dir) in Hstop, Hres by lia.
  rewrite Hend in Hstop. invert Hstop. rewrite Z.eqb_refl in Hres. exact Hres.
Qed.

(** And a non-zero answer of [would_flip] is the end of a bracket. *)
Lemma would_flip_nonzero (move dir r : Z) :
  validp move = true -> In dir ALLDIRECTIONS ->
  would_flip g move dir player = Ok r -> r <> 0 ->
  exists k, bracket g move dir player k /\ r = move + k * dir.
Proof.
  intros Hv Hd Hr Hnz.
  destruct (would_flip_scan g dir player Hborder Hplayer Hd move Hv)
    as (r' & Hr' & [->|(k & Hk & -> & _ & _ & Hend & Hrun)]).
  - congruence.
  - exists k. split; [|congruence]. unfold bracket. split; [lia|]. auto.
Qed.

Lemma some_dir_flips_bracket (move : Z) (dirs : list Z) :
  validp move = true ->
  (forall d, In d dirs -> In d ALLDIRECTIONS) ->
  exists b,
    some_dir_flips g move player dirs = Ok b
    /\ (b = true <-> exists dir k, In dir dirs /\ bracket g move dir player k).
Proof.
  intros Hv. induction dirs as [|d dirs IH]; intros Hd.
  - exists false. split; [reflexivity|]. split; [discriminate|].
    intros (dir & k & [] & _).
  - assert (In d ALLDIRECTIONS) as Hdd by (apply Hd; left; reflexivity).
    destruct (would_flip_scan g d player Hborder Hplayer Hdd move Hv)
      as (r & Hr & _).
    cbn [some_dir_flips]. rewrite Hr. cbn [rbind].
    destruct (Z.eqb_spec r 0) as [->|Hnz].
    + destruct (IH (fun d' H => Hd d' (or_intror H))) as (b & Hb & Hiff).
      exists b. split; [exact Hb|]. rewrite Hiff. split.
      * intros (dir & k & Hin & Hbr). exists dir, k. split; [right; exact Hin|exact Hbr].
      * intros (dir & k & [<-|Hin] & Hbr); [|eauto].
        destruct (would_flip_bracket move d k Hv Hdd Hbr) as [E Hne]. congruence.
    + exists true. split; [reflexivity|]. split; [|reflexivity]. intros _.
      destruct (would_flip_nonzero move d r Hv Hdd Hr Hnz) as (k & Hbr & _).
      exists d, k. split; [left; reflexivity|exact Hbr].
Qed.
End Bracket.

(** X4.  On a board with an [OUTER] border and for a player BLACK or
    WHITE, [legalp] returns, and it answers true exactly for an interior
    cell that is [EMPTY] and from which, in at least one of the eight
    directions, a run of one or more opponent pieces ends on a piece of the
    player. *)
Theorem legalp_is_bracketing (g : Board) (player move : Z) :
  border_outer g -> is_player player ->
  exists b,
    legalp g move player = Ok b
    /\ (b = true <->
        validp move = true /\ rd g move = Ok EMPTY
        /\ exists dir k, In dir ALLDIRECTIONS /\ bracket g move dir player k).
Proof.
  intros Hb Hp. rewrite legalp_eq. destruct (validp move) eqn:Hv; cbn [negb].
  - destruct (border_outer_total g move Hb (validp_in_grid move Hv)) as [v Hrd].
    rewrite Hrd. cbn [rbind].
    destruct (Z.eqb_spec v EMPTY) as [->|Hne].
    + destruct (some_dir_flips_bracket g player Hb Hp move ALLDIRECTIONS Hv
                  (fun d H => H)) as (b & Hs & Hiff).
      exists b. split; [exact Hs|]. rewrite Hiff. tauto.
    + exists false. split; [reflexivity|]. split; [discriminate|].
      intros (_ & E & _). congruence.
  - exists false. split; [reflexivity|]. split; [discriminate|].
    intros (E & _). discriminate E.
Qed.

Lemma legalp_is_bracketing_witness :
  border_outer initialise_board /\ is_player BLACK
  /\ exists b,
    legalp initialise_board 34 BLACK = Ok b
    /\ (b = true <->
        validp 34 = true /\ rd initialise_board 34 = Ok EMPTY
        /\ exists dir k, In dir ALLDIRECTIONS
                         /\ bracket initialise_board 34 dir BLACK k).
Proof.
  assert (border_outer initialise_board) as Hb by (vm_compute; reflexivity).
  assert (is_player BLACK) as Hp by (left; reflexivity).
  split; [exact Hb|]. split; [exact Hp|].
  exact (legalp_is_bracketing initialise_board BLACK 34 Hb Hp).
Defined.


(** ** The exact effect of a move *)

(** Two different directions never meet again within eight steps. *)
Lemma rays_disjoint (d d' j j' : Z) :
  In d ALLDIRECTIONS -> In d' ALLDIRECTIONS -> d <> d' ->
  1 <= j <= 8 -> 1 <= j' <= 8 -> j * d <> j' * d'.
Proof.
  intros Hd Hd' Hne Hj Hj'.
  apply in_ALLDIRECTIONS in Hd. apply in_ALLDIRECTIONS in Hd'.
  destruct Hd as [->|[->|[->|[->|[->|[->|[->| ->]]]]]]];
    destruct Hd' as [->|[->|[->|[->|[->|[->|[->| ->]]]]]]];
    try congruence; lia.
Qed.

Lemma NoDup_ALLDIRECTIONS : NoDup ALLDIRECTIONS.
Proof. apply (bool_decide_unpack _). vm_compute. exact I. Qed.

Lemma bracket_ext (g g' : Board) (move dir player k : Z) :
  (forall j, 1 <= j <= k -> rd g' (move + j * dir) = rd g (move + j * dir)) ->
  bracket g move dir player k -> bracket g' move dir player k.
Proof.
  intros H (Hk & Hrun & Hend). split; [exact Hk|]. split.
  - intros j Hj. rewrite H by lia. apply Hrun, Hj.
  - rewrite H by lia. exact Hend.
Qed.

Section Exact.
Variables (player move : Z).
Hypothesis Hplayer : is_player player.
Hypothesis Hmove : validp move = true.

Lemma bracket_unique (g : Board) (dir k k' : Z) :
  border_outer g -> In dir ALLDIRECTIONS ->
  bracket g move dir player k -> bracket g move dir player k' ->
  k = k' /\ 2 <= k <= 8.
Proof.
  intros Hb Hd H H'.
  destruct (would_flip_bracket g player Hb Hplayer move dir k Hmove Hd H) as [E _].
  destruct (would_flip_bracket g player Hb Hplayer move dir k' Hmove Hd H') as [E' Hnz].
  destruct (would_flip_nonzero g player Hb Hplayer move dir _ Hmove Hd E' Hnz)
    as (k2 & _ & Hk2).
  destruct (would_flip_scan g dir player Hb Hplayer Hd move Hmove)
    as (r & Hr & [->|(k3 & Hk3 & -> & _)]); [congruence|].
  pose proof (dir_nonzero dir Hd) as Hd0.
  assert (k = k3) as Ek.
  { rewrite E in Hr. invert Hr. assert ((k - k3) * dir = 0) as Hz by lia.
    apply Z.mul_eq_0 in Hz. lia. }
  assert (k' = k3) as Ek'.
  { rewrite E' in Hr. invert Hr. assert ((k' - k3) * dir = 0) as Hz by lia.
    apply Z.mul_eq_0 in Hz. lia. }
  lia.
Qed.

Lemma flip_run_exact (dir : Z) (fuel : nat) :
  dir <> 0 ->
  forall (n c : Z) (g : Board),
    1 <= n <= Z.of_nat fuel ->
    (forall j, 0 <= j < n -> 0 <= c + j * dir < Z.of_nat (length g)) ->
    exists g',
      flip_run fuel g c dir player (c + n * dir) = Ok g'
      /\ (forall j, 0 <= j < n -> rd g' (c + j * dir) = Ok player)
      /\ (forall i, (forall j, 0 <= j < n -> i <> c + j * dir) -> rd g' i = rd g i).
Proof.
  intros Hd. induction fuel as [|fuel IH]; intros n c g Hn Hrange; [lia|].
  assert (0 <= c < Z.of_nat (length g)) as Hc.
  { specialize (Hrange 0). rewrite Z.mul_0_l, Z.add_0_r in Hrange. apply Hrange. lia. }
  pose proof (wr_total g c player Hc) as Hw.
  cbn [flip_run]. rewrite Hw. cbn [rbind].
  destruct (Z.eqb_spec (c + dir) (c + n * dir)) as [He|Hne].
  - assert (n = 1) as ->.
    { assert ((n - 1) * dir = 0) as H0 by lia. apply Z.mul_eq_0 in H0. lia. }
    eexists. split; [reflexivity|]. split.
    + intros j Hj. assert (j = 0) as -> by lia. rewrite Z.mul_0_l, Z.add_0_r.
      exact (rd_wr_same g _ c player Hw).
    + intros i Hi. apply (rd_wr_other g _ c i player Hw).
      specialize (Hi 0). rewrite Z.mul_0_l, Z.add_0_r in Hi. apply Hi. lia.
  - assert (n <> 1) as Hn1 by (intros ->; lia).
    destruct (IH (n - 1) (c + dir) (<[Z.to_nat c := player]> g))
      as (g' & Hg' & Hin & Hout).
    + lia.
    + intros j Hj. rewrite (wr_length g _ c player Hw).
      replace (c + dir + j * dir) with (c + (j + 1) * dir) by lia.
      apply Hrange. lia.
    + replace (c + dir + (n - 1) * dir) with (c + n * dir) in Hg' by lia.
      exists g'. split; [exact Hg'|]. split.
      * intros j Hj. destruct (Z.eq_dec j 0) as [->|Hj0].
        -- rewrite Z.mul_0_l, Z.add_0_r. rewrite Hout.
           ++ exact (rd_wr_same g _ c player Hw).
           ++ intros j' Hj' E.
              assert ((j' + 1) * dir = 0) as H0 by lia.
              apply Z.mul_eq_0 in H0. lia.
        -- replace (c + j * dir) with (c + dir + (j - 1) * dir) by lia.
           apply Hin. lia.
      * intros i Hi. rewrite Hout.
        -- apply (rd_wr_other g _ c i player Hw).
           specialize (Hi 0). rewrite Z.mul_0_l, Z.add_0_r in Hi. apply Hi. lia.
        -- intros j Hj E. apply (Hi (j + 1)); lia.
Qed.

(** One direction: exactly the cells inside its bracket change hands. *)
Lemma make_flips_exact (g : Board) (dir : Z) :
  border_outer g -> In dir ALLDIRECTIONS ->
  exists g',
    make_flips g move dir player = Ok g'
    /\ border_outer g'
    /\ (forall i, on_ray g move player dir i -> rd g' i = Ok player)
    /\ (forall i, ~ on_ray g move player dir i -> rd g' i = rd g i).
Proof.
  intros Hb Hd.
  destruct (make_flips_converts player move Hplayer Hmove g dir Hb Hd)
    as (r & g' & kc & Hr & Hg' & Hconv & Hzero & _).
  exists g'. split; [exact Hg'|].
  split; [exact (converts_border _ _ _ _ _ Hconv Hb)|].
  destruct (Z.eq_dec r 0) as [->|Hnz].
  - destruct (Hzero eq_refl) as [-> _]. split; [|reflexivity].
    intros i (k & j & Hbr & _).
    destruct (would_flip_bracket g player Hb Hplayer move dir k Hmove Hd Hbr).
    congruence.
  - destruct (would_flip_nonzero g player Hb Hplayer move dir r Hmove Hd Hr Hnz)
      as (k & Hbr & ->).
    destruct (bracket_unique g dir k k Hb Hd Hbr Hbr) as [_ Hk].
    destruct (flip_run_exact dir ray_fuel (dir_nonzero dir Hd) (k - 1)
                (move + dir) g) as (g2 & Hg2 & Hin & Hout).
    + pose proof ray_fuel_bound. lia.
    + intros j Hj. destruct Hbr as (_ & Hrun & _).
      replace (move + dir + j * dir) with (move + (j + 1) * dir) by lia.
      eapply rd_Ok_range. apply Hrun. lia.
    + replace (move + dir + (k - 1) * dir) with (move + k * dir) in Hg2 by lia.
      unfold make_flips in Hg'. rewrite Hr in Hg'. cbn [rbind] in Hg'.
      destruct (Z.eqb_spec (move + k * dir) 0) as [E|_]; [congruence|].
      rewrite Hg2 in Hg'. invert Hg'. split.
      * intros i (k' & j & Hbr' & Hj & ->).
        destruct (bracket_unique g dir k k' Hb Hd Hbr Hbr') as [<- _].
        replace (move + j * dir) with (move + dir + (j - 1) * dir) by lia.
        apply Hin. lia.
      * intros i Hi. apply Hout. intros j Hj E. apply Hi.
        exists k, (j + 1). split; [exact Hbr|]. split; [lia|]. lia.
Qed.

Lemma on_ray_stable (g g1 : Board) (d d' i : Z) :
  border_outer g -> border_outer g1 ->
  In d ALLDIRECTIONS -> In d' ALLDIRECTIONS -> d <> d' ->
  (forall i, ~ on_ray g move player d i -> rd g1 i = rd g i) ->
  on_ray g1 move player d' i <-> on_ray g move player d' i.
Proof.
  intros Hb Hb1 Hd Hd' Hne Hout.
  assert (forall j, 1 <= j <= 8 -> rd g1 (move + j * d') = rd g (move + j * d')) as Hsame.
  { intros j Hj. apply Hout. intros (k & j2 & Hbr & Hj2 & E).
    destruct (bracket_unique g d k k Hb Hd Hbr Hbr) as [_ Hk].
    apply (rays_disjoint d d' j2 j Hd Hd' Hne); lia. }
  split; intros (k & j & Hbr & Hj & ->).
  - destruct (bracket_unique g1 d' k k Hb1 Hd' Hbr Hbr) as [_ Hk].
    exists k, j. split; [|auto].
    apply (bracket_ext g1 g); [|exact Hbr].
    intros j' Hj'. symmetry. apply Hsame. lia.
  - destruct (bracket_unique g d' k k Hb Hd' Hbr Hbr) as [_ Hk].
    exists k, j. split; [|auto].
    apply (bracket_ext g g1); [|exact Hbr].
    intros j' Hj'. apply Hsame. lia.
Qed.

(** All directions in turn: the flips of one direction do not disturb the
    brackets of the others, so the result is the union of the brackets
    seen on the board the loop started from. *)
Lemma make_flips_all_exact (dirs : list Z) :
  (forall d, In d dirs -> In d ALLDIRECTIONS) -> NoDup dirs ->
  forall g : Board,
    border_outer g ->
    exists g',
      make_flips_all g move player dirs = Ok g'
      /\ border_outer g'
      /\ (forall i, (exists d, In d dirs /\ on_ray g move player d i) -> rd g' i = Ok player)
      /\ (forall i, ~ (exists d, In d dirs /\ on_ray g move player d i) -> rd g' i = rd g i).
Proof.
  induction dirs as [|d dirs IH]; intros Hd Hnd g Hb.
  - exists g. split; [reflexivity|]. split; [exact Hb|]. split; [|reflexivity].
    intros i (d & [] & _).
  - assert (In d ALLDIRECTIONS) as Hdd by (apply Hd; left; reflexivity).
    apply NoDup_cons in Hnd as [Hnotin Hnd].
    destruct (make_flips_exact g d Hb Hdd) as (g1 & Hg1 & Hb1 & Hin1 & Hout1).
    destruct (IH (fun d' H => Hd d' (or_intror H)) Hnd g1 Hb1)
      as (g' & Hg' & Hb' & Hin & Hout).
    assert (forall d' i, In d' dirs -> on_ray g1 move player d' i <-> on_ray g move player d' i) as Hst.
    { intros d' i Hd'. apply (on_ray_stable g g1 d d' i Hb Hb1 Hdd); auto.
      - apply Hd. right. exact Hd'.
      - intros ->. apply Hnotin. apply list_elem_of_In. exact Hd'. }
    exists g'. unfold make_flips_all in *. cbn [rfoldl]. rewrite Hg1. cbn [rbind].
    split; [exact Hg'|]. split; [exact Hb'|]. split.
    + intros i (d0 & [<-|Hd0] & Hray).
      * destruct (make_flips_all_cells move player dirs g1 g' Hg' i) as [E|E];
          [|exact E].
        rewrite E. apply Hin1, Hray.
      * apply Hin. exists d0. split; [exact Hd0|]. apply Hst; assumption.
    + intros i Hi. rewrite Hout.
      * apply Hout1. intros Hray. apply Hi. exists d. split; [left; reflexivity|exact Hray].
      * intros (d0 & Hd0 & Hray). apply Hi. exists d0.
        split; [right; exact Hd0|]. apply Hst; assumption.
Qed.
End Exact.

(** X5.  [make_move] on a bordered board, for BLACK or WHITE and any
    interior cell (legal or not, empty or not): it returns a bordered
    board in which the cell holds the player's colour, every cell lying
    strictly inside a bracket of the original board holds the player's
    colour, and every other cell is as before. *)
Theorem make_move_exact (B : Board) (player move : Z) :
  border_outer B -> is_player player -> validp move = true ->
  exists B',
    make_move B move player = Ok B'
    /\ border_outer B'
    /\ rd B' move = Ok player
    /\ (forall i, flipped B move player i -> rd B' i = Ok player)
    /\ (forall i, i <> move -> ~ flipped B move player i -> rd B' i = rd B i).
Proof.
  intros Hb Hp Hv.
  destruct (border_outer_total B move Hb (validp_in_grid move Hv)) as [x Hx].
  pose proof (wr_total B move player (rd_Ok_range B move x Hx)) as Hw.
  set (B1 := <[Z.to_nat move := player]> B) in *.
  assert (border_outer B1) as Hb1.
  { apply border_outer_intro.
    - rewrite (wr_length B B1 move player Hw). apply border_outer_length, Hb.
    - intros i Hi Hvi. rewrite (rd_wr_other B B1 move i player Hw) by congruence.
      apply border_outer_rd; assumption. }
  assert (forall d k, In d ALLDIRECTIONS ->
                      bracket B1 move d player k <-> bracket B move d player k) as Hbr.
  { intros d k Hd. pose proof (dir_nonzero d Hd) as Hd0.
    assert (forall j, 1 <= j -> rd B1 (move + j * d) = rd B (move + j * d)) as Hsame.
    { intros j Hj. apply (rd_wr_other B B1 move _ player Hw).
      intros E. assert (j * d = 0) as H0 by lia. apply Z.mul_eq_0 in H0. lia. }
    split; apply bracket_ext; intros j Hj; [symmetry|]; apply Hsame; lia. }
  destruct (make_flips_all_exact player move Hp Hv ALLDIRECTIONS (fun d H => H)
              NoDup_ALLDIRECTIONS B1 Hb1) as (B' & HB' & Hb' & Hin & Hout).
  exists B'. rewrite make_move_eq, Hw. cbn [rbind].
  split; [exact HB'|]. split; [exact Hb'|]. split.
  - destruct (make_flips_all_cells move player _ B1 B' HB' move) as [E|E]; [|exact E].
    rewrite E. exact (rd_wr_same B B1 move player Hw).
  - split.
    + intros i (d & k & j & Hd & Hk & Hj & ->). apply Hin.
      exists d. split; [exact Hd|]. exists k, j. split; [apply Hbr; assumption|auto].
    + intros i Hne Hnf. rewrite Hout.
      * apply (rd_wr_other B B1 move i player Hw Hne).
      * intros (d & Hd & k & j & Hk & Hj & ->). apply Hnf.
        exists d, k, j. split; [exact Hd|]. split; [apply Hbr; assumption|auto].
Qed.

Lemma make_move_exact_witness :
  border_outer initialise_board /\ is_player BLACK /\ validp 34 = true
  /\ exists B',
    make_move initialise_board 34 BLACK = Ok B'
    /\ border_outer B'
    /\ rd B' 34 = Ok BLACK
    /\ (forall i, flipped initialise_board 34 BLACK i -> rd B' i = Ok BLACK)
    /\ (forall i, i <> 34 -> ~ flipped initialise_board 34 BLACK i ->
                  rd B' i = rd initialise_board i).
Proof.
  assert (border_outer initialise_board) as Hb by (vm_compute; reflexivity).
  assert (is_player BLACK) as Hp by (left; reflexivity).
  assert (validp 34 = true) as Hv by reflexivity.
  split; [exact Hb|]. split; [exact Hp|]. split; [exact Hv|].
  exact (make_move_exact initialise_board BLACK 34 Hb Hp Hv).
Defined.

(** A move keeps a board well formed. *)
Lemma make_move_wf (B : Board) (player move : Z) :
  wf_board B -> is_player player -> validp move = true ->
  exists B', make_move B move player = Ok B' /\ wf_board B'.
Proof.
  intros Hwf Hp Hv.
  destruct (wf_board_piece B move Hwf Hv) as (x & Hx & _).
  destruct (make_move_effect B player move x Hwf Hp Hv Hx)
    as (B1 & B' & k & Hw & HB' & Hconv & _).
  exists B'. split; [exact HB'|].
  destruct (make_move_cells B B' move player HB') as [_ Hcells].
  apply wf_board_intro.
  - apply (converts_border _ _ _ _ _ Hconv).
    apply border_outer_intro.
    + rewrite (wr_length B B1 move player Hw).
      apply border_outer_length, wf_board_border, Hwf.
    + intros i Hi Hvi. rewrite (rd_wr_other B B1 move i player Hw) by congruence.
      apply border_outer_rd; [apply wf_board_border, Hwf|assumption..].
  - intros i Hvi. destruct (Hcells i) as [E|E]; rewrite E.
    + apply wf_board_piece; assumption.
    + exists player. split; [reflexivity|].
      destruct Hp as [-> | ->]; reflexivity.
Qed.

(** ** Piece counts of well-formed boards *)

(** Cells that agree on holding [q] are counted alike. *)
Lemma count_loop_ext (q : Z) (g g' : Board) (n : nat) :
  forall s acc,
    (forall i, s <= i < s + Z.of_nat n ->
               exists v v', rd g i = Ok v /\ rd g' i = Ok v'
                            /\ (v = q <-> v' = q)) ->
    count_loop n s q g acc = count_loop n s q g' acc.
Proof.
  induction n as [|n IH]; intros s acc H; [reflexivity|].
  cbn [count_loop].
  destruct (H s) as (v & v' & -> & -> & Hvq); [lia|]. cbn [rbind].
  replace (v' =? q) with (v =? q).
  - apply IH. intros i Hi. apply H. lia.
  - destruct (Z.eqb_spec v q) as [E|E], (Z.eqb_spec v' q) as [E'|E']; tauto.
Qed.

(** Every cell adds one to exactly one of the four counts. *)
Lemma count_loop_four (g : Board) (n : nat) :
  forall s ae ab aw ao e b w o,
    (forall i, s <= i < s + Z.of_nat n ->
               exists v, rd g i = Ok v /\ (v = OUTER \/ pieceb v = true)) ->
    count_loop n s EMPTY g ae = Ok e ->
    count_loop n s BLACK g ab = Ok b ->
    count_loop n s WHITE g aw = Ok w ->
    count_loop n s OUTER g ao = Ok o ->
    e + b + w + o = ae + ab + aw + ao + Z.of_nat n
    /\ ae <= e /\ ab <= b /\ aw <= w /\ ao <= o.
Proof.
  induction n as [|n IH]; intros s ae ab aw ao e b w o H He Hb Hw Ho.
  - cbn [count_loop] in *. invert He. invert Hb. invert Hw. invert Ho. lia.
  - cbn [count_loop] in *.
    destruct (H s) as (v & Hv & Hcase); [lia|]. rewrite Hv in *. cbn [rbind] in *.
    assert (forall i, s + 1 <= i < s + 1 + Z.of_nat n ->
                      exists v, rd g i = Ok v /\ (v = OUTER \/ pieceb v = true)) as H'
      by (intros i Hi; apply H; lia).
    pose proof (IH (s + 1) _ _ _ _ e b w o H' He Hb Hw Ho) as Hsum.
    destruct Hcase as [->|Hp].
    + cbn in Hsum. lia.
    + apply pieceb_cases in Hp. destruct Hp as [->|[->| ->]]; cbn in Hsum; lia.
Qed.

Lemma wf_board_cell (g : Board) (i : Z) :
  wf_board g -> in_grid i ->
  exists v, rd g i = Ok v
            /\ (validp i = false /\ v = OUTER \/ validp i = true /\ pieceb v = true).
Proof.
  intros Hwf Hi. destruct (validp i) eqn:Hv.
  - destruct (wf_board_piece g i Hwf Hv) as (v & Hr & Hp). eauto.
  - exists OUTER. split; [|auto].
    apply border_outer_rd; [apply wf_board_border, Hwf|assumption..].
Qed.

Lemma count_OUTER_wf (g : Board) : wf_board g -> count OUTER g = Ok 24.
Proof.
  intros Hwf.
  assert (count OUTER initialise_board = Ok 24) as <- by (vm_compute; reflexivity).
  assert (wf_board initialise_board) as Hwf0 by (vm_compute; reflexivity).
  rewrite !count_eq. apply count_loop_ext. intros i Hi.
  assert (in_grid i) as Hg by (unfold in_grid, BOARDSIZE; lia).
  destruct (wf_board_cell g i Hwf Hg) as (v & Hv & Hc).
  destruct (wf_board_cell initialise_board i Hwf0 Hg) as (v' & Hv' & Hc').
  exists v, v'. split; [exact Hv|]. split; [exact Hv'|].
  destruct Hc as [[Hn ->]|[Hy Hp]], Hc' as [[Hn' ->]|[Hy' Hp']]; try congruence.
  - tauto.
  - apply pieceb_cases in Hp, Hp'.
    split; intros ->; [destruct Hp as [E|[E|E]]|destruct Hp' as [E|[E|E]]];
      discriminate E.
Qed.

Lemma counts_of_wf_board (g : Board) :
  wf_board g ->
  exists e b w,
    count EMPTY g = Ok e /\ count BLACK g = Ok b /\ count WHITE g = Ok w
    /\ e + b + w = 64 /\ 0 <= e /\ 0 <= b /\ 0 <= w.
Proof.
  intros Hwf.
  pose proof (border_outer_length g (wf_board_border g Hwf)) as Hlen.
  destruct (count_total EMPTY g Hlen) as [e He].
  destruct (count_total BLACK g Hlen) as [b Hb].
  destruct (count_total WHITE g Hlen) as [w Hw].
  pose proof (count_OUTER_wf g Hwf) as Ho.
  exists e, b, w. split; [exact He|]. split; [exact Hb|]. split; [exact Hw|].
  rewrite count_eq in He, Hb, Hw, Ho.
  destruct (count_loop_four g 88 1 0 0 0 0 e b w 24) as (Hsum & ? & ? & ? & _);
    try assumption.
  - intros i Hi.
    destruct (wf_board_cell g i Hwf) as (v & Hv & Hc);
      [unfold in_grid, BOARDSIZE; lia|].
    exists v. split; [exact Hv|]. tauto.
  - change (Z.of_nat 88) with 88 in Hsum. lia.
Qed.

(** X6.  On a well-formed board [count] returns for EMPTY, BLACK and WHITE,
    the three counts are non-negative and add up to 64, the number of
    interior cells. *)
Theorem counts_sum_to_64 (g : Board) :
  wf_board g ->
  exists e b w,
    count EMPTY g = Ok e /\ count BLACK g = Ok b /\ count WHITE g = Ok w
    /\ e + b + w = 64 /\ 0 <= e /\ 0 <= b /\ 0 <= w.
Proof. exact (counts_of_wf_board g). Qed.

Lemma counts_sum_to_64_witness :
  wf_board initialise_board
  /\ exists e b w,
    count EMPTY initialise_board = Ok e /\ count BLACK initialise_board = Ok b
    /\ count WHITE initialise_board = Ok w
    /\ e + b + w = 64 /\ 0 <= e /\ 0 <= b /\ 0 <= w.
Proof.
  assert (wf_board initialise_board) as Hwf by (vm_compute; reflexivity).
  split; [exact Hwf|]. exact (counts_sum_to_64 initialise_board Hwf).
Defined.

(** A legal move fills one empty cell. *)
Lemma legal_move_fills_one (B : Board) (player move : Z) (e : Z) :
  wf_board B -> is_player player ->
  legalp B move player = Ok true -> count EMPTY B = Ok e ->
  exists B', make_move B move player = Ok B' /\ wf_board B'
             /\ count EMPTY B' = Ok (e - 1).
Proof.
  intros Hwf Hp Hl He.
  pose proof (legalp_true_validp B move player Hl) as Hv.
  destruct (wf_board_piece B move Hwf Hv) as (x & Hx & _).
  assert (x = EMPTY) as ->.
  { rewrite legalp_eq, Hv, Hx in Hl. cbn [negb rbind] in Hl.
    destruct (Z.eqb_spec x EMPTY); [assumption|discriminate]. }
  destruct (make_move_wf B player move Hwf Hp Hv) as (B' & HB' & Hwf').
  destruct (make_move_effect B player move EMPTY Hwf Hp Hv Hx)
    as (B1 & B'' & k & Hw & HB'' & Hconv & _).
  rewrite HB' in HB''. invert HB''.
  exists B''. split; [exact HB'|]. split; [exact Hwf'|].
  pose proof (count_wr B B1 move player EMPTY _ _ Hw Hx Hv He) as He1.
  destruct Hconv as (_ & _ & _ & Hcnt). rewrite (Hcnt _ _ He1). f_equal.
  destruct (opponent_player player Hp) as (_ & _ & _ & Hoe & _).
  destruct Hp as [-> | ->]; cbn; lia.
Qed.

Lemma play_game_invariant (moves : list Z) :
  forall (B0 B : Board) (player e0 : Z),
    wf_board B0 -> is_player player -> count EMPTY B0 = Ok e0 ->
    play_game B0 player moves = Some B ->
    wf_board B /\ count EMPTY B = Ok (e0 - Z.of_nat (length moves)).
Proof.
  induction moves as [|m moves IH]; intros B0 B player e0 Hwf Hp He H.
  - cbn [play_game] in H. invert H. split; [exact Hwf|].
    rewrite He. f_equal. cbn. lia.
  - cbn [play_game] in H.
    destruct (legalp B0 m player) as [[|]|] eqn:Hl; try discriminate.
    destruct (legal_move_fills_one B0 player m e0 Hwf Hp Hl He)
      as (B1 & HB1 & Hwf1 & He1).
    rewrite HB1 in H.
    destruct (IH B1 B (opponent player) (e0 - 1) Hwf1
                (proj1 (opponent_player player Hp)) He1 H) as [HwfB HeB].
    split; [exact HwfB|]. rewrite HeB. f_equal.
    rewrite length_cons, Nat2Z.inj_succ. lia.
Qed.

(** X7.  Every position of a game played from the board of
    [initialise_board], BLACK moving first and each move being legal for
    the player who makes it, is well formed, has one empty cell less per
    move, and holds four pieces plus one per move. *)
Theorem game_positions_well_formed (moves : list Z) (B : Board) :
  play_game initialise_board BLACK moves = Some B ->
  wf_board B
  /\ exists e b w,
       count EMPTY B = Ok e /\ count BLACK B = Ok b /\ count WHITE B = Ok w
       /\ e = 60 - Z.of_nat (length moves)
       /\ b + w = 4 + Z.of_nat (length moves).
Proof.
  intros H.
  assert (wf_board initialise_board) as Hwf0 by (vm_compute; reflexivity).
  assert (count EMPTY initialise_board = Ok 60) as He0 by (vm_compute; reflexivity).
  destruct (play_game_invariant moves initialise_board B BLACK 60 Hwf0
              (or_introl eq_refl) He0 H) as [Hwf He].
  split; [exact Hwf|].
  destruct (counts_of_wf_board B Hwf) as (e & b & w & He' & Hb & Hw & Hsum & _).
  exists e, b, w. split; [exact He'|]. split; [exact Hb|]. split; [exact Hw|].
  rewrite He in He'. invert He'. lia.
Qed.

Lemma game_positions_well_formed_witness :
  play_game initialise_board BLACK [34; 33] = Some two_moves_board
  /\ wf_board two_moves_board
  /\ exists e b w,
       count EMPTY two_moves_board = Ok e /\ count BLACK two_moves_board = Ok b
       /\ count WHITE two_moves_board = Ok w
       /\ e = 60 - Z.of_nat (length [34; 33])
       /\ b + w = 4 + Z.of_nat (length [34; 33]).
Proof.
  assert (play_game initialise_board BLACK [34; 33] = Some two_moves_board) as H
    by (vm_compute; reflexivity).
  split; [exact H|].
  exact (game_positions_well_formed [34; 33] two_moves_board H).
Defined.


(** ** Move strings and the referee protocol *)

Lemma digit_cases (r : Z) :
  0 <= r <= 7 ->
  r = 0 \/ r = 1 \/ r = 2 \/ r = 3 \/ r = 4 \/ r = 5 \/ r = 6 \/ r = 7.
Proof. lia. Qed.

(** X8.  A move string that starts with a row digit and a column digit,
    both in 0..7, is decoded by [get_loc] to the interior cell of row
    [r + 1] and column [c + 1], whatever follows the two digits; and
    [get_move_string] encodes that cell as the same two digits followed by
    a newline. *)
Theorem move_string_decodes (r c : Z) (rest : string) :
  0 <= r <= 7 -> 0 <= c <= 7 ->
  get_loc (String (char_of (r + code "0")) (String (char_of (c + code "0")) rest))
  = Ok (10 * (r + 1) + c + 1)
  /\ validp (10 * (r + 1) + c + 1) = true
  /\ get_move_string (10 * (r + 1) + c + 1)
     = String (char_of (r + code "0"))
         (String (char_of (c + code "0")) (String "010" EmptyString)).
Proof.
  intros Hr Hc.
  apply digit_cases in Hr. apply digit_cases in Hc.
  destruct Hr as [->|[->|[->|[->|[->|[->|[->| ->]]]]]]];
    destruct Hc as [->|[->|[->|[->|[->|[->|[->| ->]]]]]]];
    (split; [reflexivity|]; split; reflexivity).
Qed.

Lemma move_string_decodes_witness :
  0 <= 2 <= 7 /\ 0 <= 3 <= 7
  /\ get_loc (String (char_of (2 + code "0"))
                (String (char_of (3 + code "0")) (String "010" EmptyString)))
     = Ok (10 * (2 + 1) + 3 + 1).
Proof.
  assert (0 <= 2 <= 7) as Hr by lia.
  assert (0 <= 3 <= 7) as Hc by lia.
  split; [exact Hr|]. split; [exact Hc|].
  exact (proj1 (move_string_decodes 2 3 (String "010" EmptyString) Hr Hc)).
Defined.

Lemma validp_quot_rem (loc : Z) :
  validp loc = true -> 1 <= Z.quot loc 10 <= 8 /\ 1 <= Z.rem loc 10 <= 8.
Proof.
  intros H. apply validp_spec in H.
  assert (0 <= loc) by (Z.to_euclidean_division_equations; lia).
  rewrite Z.quot_div_nonneg, Z.rem_mod_nonneg by lia. exact H.
Qed.

(** What [get_move_string] writes for an interior cell is not taken for a
    pass and decodes to the cell. *)
Lemma get_move_string_not_pass (loc : Z) :
  validp loc = true ->
  strcmp0 (get_move_string loc) pass_string = false
  /\ get_loc (get_move_string loc) = Ok loc.
Proof.
  intros Hv. apply validp_quot_rem in Hv as [Hr Hc].
  destruct (interior_cases loc Hr Hc) as (r & c & -> & Hr' & Hc' & _).
  assert (r = 1 \/ r = 2 \/ r = 3 \/ r = 4 \/ r = 5 \/ r = 6 \/ r = 7 \/ r = 8)
    as Hrs by lia.
  assert (c = 1 \/ c = 2 \/ c = 3 \/ c = 4 \/ c = 5 \/ c = 6 \/ c = 7 \/ c = 8)
    as Hcs by lia.
  destruct Hrs as [->|[->|[->|[->|[->|[->|[->| ->]]]]]]];
    destruct Hcs as [->|[->|[->|[->|[->|[->|[->| ->]]]]]]];
    (split; reflexivity).
Qed.

Lemma run_make_move_Ok (s : state) (g g' : Board) (move player : Z) :
  s_heap s !! s_board s = Some g -> make_move g move player = Ok g' ->
  run_make_move move player s
  = Ok (tt, State (<[s_board s := g']> (s_heap s)) (s_board s)
              (s_my_colour s) (s_size s)).
Proof.
  intros Hg Hm. unfold run_make_move, bind, get_board, deref, lift, store.
  rewrite Hg, Hm.
  assert (s_board s < length (s_heap s))%nat as Hp by (eapply lookup_lt_Some; eauto).
  apply Nat.ltb_lt in Hp. rewrite Hp. reflexivity.
Qed.

(** X9.  [apply_opp_move] with the global board pointing to a well-formed
    board, for a player BLACK or WHITE: on the string that
    [get_move_string] writes for an interior cell it plays [make_move] on
    that cell for the opponent's colour, storing the result in the block
    of the global board and touching nothing else; on ["pass\n"] it leaves
    the state as it is.  Whether the move is legal is not checked. *)
Theorem apply_opp_move_plays (s : state) (B : Board) (my_colour loc : Z) :
  s_heap s !! s_board s = Some B -> wf_board B ->
  is_player my_colour -> validp loc = true ->
  (exists B',
     make_move B loc (opponent my_colour) = Ok B'
     /\ wf_board B'
     /\ apply_opp_move (get_move_string loc) my_colour s
        = Ok (tt, State (<[s_board s := B']> (s_heap s)) (s_board s)
                    (s_my_colour s) (s_size s)))
  /\ apply_opp_move pass_string my_colour s = Ok (tt, s).
Proof.
  intros Hg Hwf Hp Hv. split; [|reflexivity].
  destruct (make_move_wf B (opponent my_colour) loc Hwf
              (proj1 (opponent_player my_colour Hp)) Hv) as (B' & HB' & Hwf').
  exists B'. split; [exact HB'|]. split; [exact Hwf'|].
  destruct (get_move_string_not_pass loc Hv) as [Hnp Hloc].
  unfold apply_opp_move. rewrite Hnp.
  unfold bind at 1. unfold lift. rewrite Hloc.
  exact (run_make_move_Ok s B B' loc _ Hg HB').
Qed.

Lemma apply_opp_move_plays_witness :
  s_heap (serial_state initialise_board) !! s_board (serial_state initialise_board)
  = Some initialise_board
  /\ wf_board initialise_board /\ is_player WHITE /\ validp 34 = true
  /\ apply_opp_move pass_string WHITE (serial_state initialise_board)
     = Ok (tt, serial_state initialise_board).
Proof.
  assert (s_heap (serial_state initialise_board)
            !! s_board (serial_state initialise_board)
          = Some initialise_board) as Hg by reflexivity.
  assert (wf_board initialise_board) as Hwf by (vm_compute; reflexivity).
  assert (is_player WHITE) as Hp by (right; reflexivity).
  assert (validp 34 = true) as Hv by reflexivity.
  split; [exact Hg|]. split; [exact Hwf|]. split; [exact Hp|]. split; [exact Hv|].
  exact (proj2 (apply_opp_move_plays (serial_state initialise_board)
                  initialise_board WHITE 34 Hg Hwf Hp Hv)).
Defined.

(** ** The random player *)

(** X10.  [random_strategy] with the global board pointing to a board
    with an [OUTER] border, for a player BLACK or WHITE and a non-negative
    value of [rand()]: the state is left as it is, and the answer is -1
    when the player has no legal move and otherwise the legal move of
    index [rand() % n] in increasing order, [n] being the number of legal
    moves. *)
Theorem random_strategy_picks_legal (s : state) (g : Board) (rand my_colour : Z) :
  s_heap s !! s_board s = Some g -> border_outer g ->
  is_player my_colour -> 0 <= rand ->
  exists l r,
    legal_moves g my_colour = Ok l
    /\ random_strategy rand my_colour s = Ok (r, s)
    /\ (l = [] -> r = -1)
    /\ (l <> [] ->
        l !! Z.to_nat (Z.rem rand (Z.of_nat (length l))) = Some r
        /\ legalp g r my_colour = Ok true).
Proof.
  intros Hg Hb Hp Hr.
  destruct (legal_moves_loop_total g my_colour 78 Hb Hp 11) as [l Hl].
  rewrite <- legal_moves_eq in Hl.
  exists l. unfold random_strategy.
  rewrite (bind_Ok _ _ s s l (run_legal_moves_Ok s g _ l Hg Hl)). cbv zeta.
  destruct l as [|m l'].
  - exists (-1). split; [exact Hl|]. split; [reflexivity|].
    split; [reflexivity|congruence].
  - set (l := m :: l') in *. set (n := Z.of_nat (length l)).
    assert (0 < n) as Hn by (unfold n, l; rewrite length_cons; lia).
    destruct (Z.eqb_spec n 0) as [E|_]; [lia|].
    assert (0 <= Z.rem rand n < n) as Hi by (apply Z.rem_bound_pos; lia).
    destruct (lookup_lt_is_Some_2 l (Z.to_nat (Z.rem rand n))) as [r Hlr];
      [unfold n in Hi |- *; lia|].
    exists r. split; [exact Hl|].
    assert (rd (n :: l) (Z.rem rand n + 1) = Ok r) as Hrd.
    { unfold rd. destruct (Z.leb_spec 0 (Z.rem rand n + 1)); [|lia].
      replace (Z.to_nat (Z.rem rand n + 1)) with (S (Z.to_nat (Z.rem rand n))) by lia.
      change ((n :: l) !! S (Z.to_nat (Z.rem rand n)))
        with (l !! Z.to_nat (Z.rem rand n)).
      rewrite Hlr. reflexivity. }
    unfold lift. rewrite Hrd. split; [reflexivity|].
    split; [intros E; discriminate E|]. intros _. split; [exact Hlr|].
    rewrite legal_moves_eq in Hl.
    destruct (legal_moves_loop_spec g my_colour 78 11 l Hl) as (_ & _ & Hin).
    apply Hin. apply list_elem_of_In. eapply list_elem_of_lookup_2, Hlr.
Qed.

Lemma random_strategy_picks_legal_witness :
  s_heap (serial_state initialise_board) !! s_board (serial_state initialise_board)
  = Some initialise_board
  /\ border_outer initialise_board /\ is_player BLACK /\ 0 <= 6
  /\ random_strategy 6 BLACK (serial_state initialise_board)
     = Ok (56, serial_state initialise_board).
Proof.
  assert (s_heap (serial_state initialise_board)
            !! s_board (serial_state initialise_board)
          = Some initialise_board) as Hg by reflexivity.
  assert (border_outer initialise_board) as Hb by (vm_compute; reflexivity).
  assert (is_player BLACK) as Hp by (left; reflexivity).
  assert (0 <= 6) as Hr by lia.
  split; [exact Hg|]. split; [exact Hb|]. split; [exact Hp|]. split; [exact Hr|].
  destruct (random_strategy_picks_legal (serial_state initialise_board)
              initialise_board 6 BLACK Hg Hb Hp Hr) as (l & r & Hl & Hrs & _ & _).
  rewrite Hrs. vm_compute in Hrs. congruence.
Defined.


(** ** What the evaluator computes *)

Lemma weights_length : length weights = 100%nat.
Proof. reflexivity. Qed.

(** The coin counters of the main loop are the counts of [count]. *)
Lemma tally_loop_counts (player opp : Z) (board : Board) (n : nat) :
  player <> opp ->
  forall (i : Z) (t : tally),
    0 <= i -> i + Z.of_nat n <= Z.of_nat (length board) -> i + Z.of_nat n <= 100 ->
    exists t',
      tally_loop n i player opp board t = Ok t'
      /\ count_loop n i player board (pcoins t) = Ok (pcoins t')
      /\ count_loop n i opp board (ocoins t) = Ok (ocoins t').
Proof.
  intros Hne. induction n as [|n IH]; intros i t Hi Hn Hw.
  - exists t. split; [reflexivity|]. split; reflexivity.
  - cbn [tally_loop count_loop].
    destruct (rd_total board i) as [v Hv]; [lia|]. rewrite Hv. cbn [rbind].
    destruct (rd_total weights i) as [w Hwt]; [rewrite weights_length; lia|].
    destruct (Z.eqb_spec v player) as [->|Hvp].
    + rewrite Hwt. cbn [rbind].
      destruct (Z.eqb_spec player opp) as [E|_]; [congruence|].
      destruct (IH (i + 1) (Tally (pcnt t + w) (pcoins t + 1) (ocnt t) (ocoins t)))
        as (t' & Ht' & Hp & Ho); [lia..|].
      exists t'. split; [exact Ht'|]. split; [exact Hp|exact Ho].
    + destruct (Z.eqb_spec v opp) as [->|Hvo].
      * rewrite Hwt. cbn [rbind].
        destruct (IH (i + 1) (Tally (pcnt t) (pcoins t) (ocnt t + w) (ocoins t + 1)))
          as (t' & Ht' & Hp & Ho); [lia..|].
        exists t'. split; [exact Ht'|]. split; [exact Hp|exact Ho].
      * destruct (IH (i + 1) t) as (t' & Ht' & Hp & Ho); [lia..|].
        exists t'. split; [exact Ht'|]. split; [exact Hp|exact Ho].
Qed.

Lemma tick_total (player opp : Z) (board : Board) (c : Z) (po : Z * Z) :
  0 <= c < Z.of_nat (length board) ->
  exists po', tick player opp board c po = Ok po'.
Proof.
  intros Hc. unfold tick. destruct (rd_total board c Hc) as [v ->].
  cbn [rbind]. eauto.
Qed.

Lemma corners_captured_total (player opp : Z) (board : Board) :
  length board = 100%nat ->
  exists occ, corners_captured player opp board = Ok occ.
Proof.
  intros Hl. unfold corners_captured. cbn [rfoldl].
  destruct (tick_total player opp board 11 (0, 0)) as [p1 ->]; [lia|]. cbn [rbind].
  destruct (tick_total player opp board 18 p1) as [p2 ->]; [lia|]. cbn [rbind].
  destruct (tick_total player opp board 81 p2) as [p3 ->]; [lia|]. cbn [rbind].
  destruct (tick_total player opp board 88 p3) as [p4 ->]; [lia|]. cbn [rbind].
  eauto.
Qed.

Lemma near_corner_wf (player opp : Z) (board : Board) (corner : Z)
  (adjacent : list Z) (po : Z * Z) :
  wf_board board -> validp corner = true ->
  near_corner player opp board corner adjacent po = Ok po.
Proof.
  intros Hwf Hv. unfold near_corner.
  destruct (wf_board_piece board corner Hwf Hv) as (v & -> & Hp). cbn [rbind].
  apply pieceb_cases in Hp. destruct Hp as [->|[->| ->]]; reflexivity.
Qed.

Lemma corner_closeness_wf (player opp : Z) (board : Board) :
  wf_board board -> corner_closeness player opp board = Ok 0.
Proof.
  intros Hwf. unfold corner_closeness.
  do 4 (rewrite (near_corner_wf player opp board _ _ _ Hwf) by reflexivity;
        cbn [rbind]).
  reflexivity.
Qed.

(** The five terms on a well-formed board: mobility and corner closeness
    vanish, and neither the global board nor the global colour matter. *)
Lemma evaluate_terms_wf (g : Board) (my_colour player : Z) (board : Board) :
  border_outer g -> wf_board board -> is_player player ->
  exists t occ,
    tally_loop 88 1 player (opponent player) board (Tally 0 0 0 0) = Ok t
    /\ count player board = Ok (pcoins t)
    /\ count (opponent player) board = Ok (ocoins t)
    /\ corners_captured player (opponent player) board = Ok occ
    /\ evaluate_terms g my_colour player board
       = rbind (parity_of (pcoins t) (ocoins t))
           (fun par => Ok (Terms (pcnt t - ocnt t) par 0 occ 0)).
Proof.
  intros Hg Hwf Hp.
  pose proof (border_outer_length board (wf_board_border board Hwf)) as Hl.
  destruct (opponent_player player Hp) as (_ & Hne & _).
  destruct (tally_loop_counts player (opponent player) board 88
              (fun E => Hne (eq_sym E)) 1 (Tally 0 0 0 0))
    as (t & Ht & Hcp & Hco); [lia|rewrite Hl; lia|lia|].
  destruct (corners_captured_total player (opponent player) board Hl) as [occ Hocc].
  exists t, occ. split; [exact Ht|].
  rewrite !count_eq. split; [exact Hcp|]. split; [exact Hco|]. split; [exact Hocc|].
  unfold evaluate_terms.
  destruct (num_valid_moves_total g player board Hg Hp) as [n ->]. cbn [rbind].
  rewrite Ht. cbn [rbind].
  destruct (parity_of (pcoins t) (ocoins t)) as [par|e]; [|reflexivity]. cbn [rbind].
  rewrite Hocc. cbn [rbind].
  rewrite (corner_closeness_wf player (opponent player) board Hwf). cbn [rbind].
  destruct (game_stage_total g my_colour Hg) as [stage ->]. cbn [rbind].
  rewrite mobility_of_same, Z.mul_0_r. reflexivity.
Qed.

(** The score of a well-formed board does not depend on the global board
    or on the global colour. *)
Lemma evaluate_globals (g g' : Board) (my_colour my_colour' player : Z)
  (board : Board) :
  border_outer g -> border_outer g' -> wf_board board -> is_player player ->
  evaluate g my_colour player board = evaluate g' my_colour' player board.
Proof.
  intros Hg Hg' Hwf Hp. unfold evaluate.
  destruct (evaluate_terms_wf g my_colour player board Hg Hwf Hp)
    as (t & occ & Ht & _ & _ & Hocc & ->).
  destruct (evaluate_terms_wf g' my_colour' player board Hg' Hwf Hp)
    as (t' & occ' & Ht' & _ & _ & Hocc' & ->).
  rewrite Ht in Ht'. invert Ht'. rewrite Hocc in Hocc'. invert Hocc'. reflexivity.
Qed.

(** X11.  [evaluate] for a player BLACK or WHITE on a well-formed board,
    the global board having an [OUTER] border: with [p] and [o] the piece
    counts of the player and of the opponent, the call divides by zero
    when [p + o = 0]; otherwise it returns the sum, in thousandths and
    truncated toward zero, of the weighted position difference, ten times
    the parity [100 * (p - o) / (p + o)] and 801.724 times the corner
    term.  The mobility and corner-closeness terms contribute nothing, and
    the global board and the global colour have no influence. *)
Theorem evaluate_formula (g : Board) (my_colour player : Z) (board : Board) :
  border_outer g -> wf_board board -> is_player player ->
  exists t occ,
    tally_loop 88 1 player (opponent player) board (Tally 0 0 0 0) = Ok t
    /\ count player board = Ok (pcoins t)
    /\ count (opponent player) board = Ok (ocoins t)
    /\ corners_captured player (opponent player) board = Ok occ
    /\ evaluate g my_colour player board
       = if pcoins t + ocoins t =? 0 then Err DivisionByZero
         else Ok (Z.quot (1000 * (pcnt t - ocnt t
                                  + 10 * Z.quot (100 * (pcoins t - ocoins t))
                                           (pcoins t + ocoins t))
                          + 801724 * occ) 1000).
Proof.
  intros Hg Hwf Hp.
  destruct (evaluate_terms_wf g my_colour player board Hg Hwf Hp)
    as (t & occ & Ht & Hcp & Hco & Hocc & He).
  exists t, occ. split; [exact Ht|]. split; [exact Hcp|]. split; [exact Hco|].
  split; [exact Hocc|].
  unfold evaluate. rewrite He. unfold parity_of.
  destruct (pcoins t + ocoins t =? 0); [reflexivity|]. cbn [rbind].
  unfold final_score. cbn [position parity mobility corner_occ cc].
  do 2 f_equal. lia.
Qed.

Lemma evaluate_formula_witness :
  border_outer initialise_board /\ wf_board two_moves_board /\ is_player BLACK
  /\ exists t occ,
    tally_loop 88 1 BLACK (opponent BLACK) two_moves_board (Tally 0 0 0 0) = Ok t
    /\ count BLACK two_moves_board = Ok (pcoins t)
    /\ count (opponent BLACK) two_moves_board = Ok (ocoins t)
    /\ corners_captured BLACK (opponent BLACK) two_moves_board = Ok occ
    /\ evaluate initialise_board WHITE BLACK two_moves_board
       = if pcoins t + ocoins t =? 0 then Err DivisionByZero
         else Ok (Z.quot (1000 * (pcnt t - ocnt t
                                  + 10 * Z.quot (100 * (pcoins t - ocoins t))
                                           (pcoins t + ocoins t))
                          + 801724 * occ) 1000).
Proof.
  assert (border_outer initialise_board) as Hg by (vm_compute; reflexivity).
  assert (wf_board two_moves_board) as Hwf by (vm_compute; reflexivity).
  assert (is_player BLACK) as Hp by (left; reflexivity).
  split; [exact Hg|]. split; [exact Hwf|]. split; [exact Hp|].
  exact (evaluate_formula initialise_board WHITE BLACK two_moves_board Hg Hwf Hp).
Defined.

(** A well-formed board with a piece on it has a score. *)
Lemma evaluate_total (g : Board) (my_colour player : Z) (board : Board) (i q : Z) :
  border_outer g -> wf_board board -> is_player player ->
  rd board i = Ok q -> is_player q ->
  exists v, evaluate g my_colour player board = Ok v.
Proof.
  intros Hg Hwf Hp Hi Hq.
  destruct (evaluate_terms_wf g my_colour player board Hg Hwf Hp)
    as (t & occ & _ & Hcp & Hco & _ & He).
  unfold evaluate. rewrite He.
  assert (pcoins t + ocoins t > 0) as Hpos.
  { pose proof (wf_board_border board Hwf) as Hb.
    assert (validp i = true) as Hv.
    { eapply piece_is_interior; eauto.
      - apply rd_Ok_range in Hi. rewrite (border_outer_length board Hb) in Hi.
        unfold in_grid, BOARDSIZE. lia.
      - destruct Hq as [-> | ->]; discriminate. }
    destruct (counts_of_wf_board board Hwf)
      as (e & b & w & He' & Hb' & Hw' & Hsum & He0 & Hb0 & Hw0).
    pose proof (wr_total board i EMPTY (rd_Ok_range board i q Hi)) as Hwr.
    pose proof (count_wr board _ i EMPTY q BLACK b Hwr Hi Hv Hb') as Hb1.
    pose proof (count_wr board _ i EMPTY q WHITE w Hwr Hi Hv Hw') as Hw1.
    assert (wf_board (<[Z.to_nat i := EMPTY]> board)) as Hwf1.
    { apply wf_board_intro.
      - apply border_outer_intro.
        + rewrite (wr_length board _ i EMPTY Hwr). apply border_outer_length, Hb.
        + intros j Hj Hvj. rewrite (rd_wr_other board _ i j EMPTY Hwr) by congruence.
          apply border_outer_rd; assumption.
      - intros j Hvj. destruct (Z.eq_dec j i) as [->|Hne].
        + rewrite (rd_wr_same board _ i EMPTY Hwr). eexists. split; reflexivity.
        + rewrite (rd_wr_other board _ i j EMPTY Hwr Hne).
          apply wf_board_piece; assumption. }
    destruct (counts_of_wf_board _ Hwf1)
      as (e1 & b1 & w1 & _ & Hb1' & Hw1' & _ & _ & Hb10 & Hw10).
    rewrite Hb1 in Hb1'. rewrite Hw1 in Hw1'. invert Hb1'. invert Hw1'.
    destruct Hp as [-> | ->]; cbn [opponent] in Hco;
      change (opponent BLACK) with WHITE in Hco;
      change (opponent WHITE) with BLACK in Hco;
      rewrite ?Hb' in *; rewrite ?Hw' in *; invert Hcp; invert Hco;
      destruct Hq as [-> | ->]; cbn in Hb10, Hw10; lia. }
  rewrite (parity_of_defined _ _ Hpos). cbn [rbind]. eauto.
Qed.


(** ** What the selection loop returns *)

Lemma select_loop_spec (rec_Moves rec_Scores : list Z) (n : nat) :
  forall (i best_move best_score : Z),
    0 <= i ->
    i + Z.of_nat n <= Z.of_nat (length rec_Moves) ->
    i + Z.of_nat n <= Z.of_nat (length rec_Scores) ->
    exists mv,
      select_loop n i rec_Moves rec_Scores best_move best_score = Ok mv
      /\ ((mv = best_move
           /\ forall j sc, i <= j < i + Z.of_nat n -> rd rec_Scores j = Ok sc ->
                           sc <= best_score)
          \/ exists k sc,
               i <= k < i + Z.of_nat n
               /\ rd rec_Scores k = Ok sc /\ rd rec_Moves k = Ok mv
               /\ best_score < sc
               /\ (forall j sc', i <= j < i + Z.of_nat n ->
                                 rd rec_Scores j = Ok sc' -> sc' <= sc)
               /\ (forall j sc', i <= j < k ->
                                 rd rec_Scores j = Ok sc' -> sc' < sc)).
Proof.
  induction n as [|n IH]; intros i bm bs Hi HM HS.
  - exists bm. split; [reflexivity|]. left. split; [reflexivity|]. intros; lia.
  - cbn [select_loop].
    destruct (rd_total rec_Scores i) as [sc Hsc]; [lia|].
    destruct (rd_total rec_Moves i) as [m Hm]; [lia|].
    rewrite Hsc. cbn [rbind].
    destruct (Z.gtb_spec sc bs) as [Hgt|Hle].
    + rewrite Hm. cbn [rbind].
      destruct (IH (i + 1) m sc) as (mv & Hmv & Hcase); [lia..|].
      exists mv. split; [exact Hmv|]. right.
      destruct Hcase as [[-> Hall]|(k & sck & Hk & Hsk & Hmk & Hlt & Hmax & Hfirst)].
      * exists i, sc. split; [lia|]. split; [exact Hsc|]. split; [exact Hm|].
        split; [lia|]. split; [|intros; lia].
        intros j sc' Hj Hj'. destruct (Z.eq_dec j i) as [->|Hne].
        -- rewrite Hsc in Hj'. invert Hj'. lia.
        -- apply (Hall j sc'); [lia|exact Hj'].
      * exists k, sck. split; [lia|]. split; [exact Hsk|]. split; [exact Hmk|].
        split; [lia|]. split.
        -- intros j sc' Hj Hj'. destruct (Z.eq_dec j i) as [->|Hne].
           ++ rewrite Hsc in Hj'. invert Hj'. lia.
           ++ apply (Hmax j sc'); [lia|exact Hj'].
        -- intros j sc' Hj Hj'. destruct (Z.eq_dec j i) as [->|Hne].
           ++ rewrite Hsc in Hj'. invert Hj'. lia.
           ++ apply (Hfirst j sc'); [lia|exact Hj'].
    + destruct (IH (i + 1) bm bs) as (mv & Hmv & Hcase); [lia..|].
      exists mv. split; [exact Hmv|].
      destruct Hcase as [[-> Hall]|(k & sck & Hk & Hsk & Hmk & Hlt & Hmax & Hfirst)].
      * left. split; [reflexivity|].
        intros j sc' Hj Hj'. destruct (Z.eq_dec j i) as [->|Hne].
        -- rewrite Hsc in Hj'. invert Hj'. lia.
        -- apply (Hall j sc'); [lia|exact Hj'].
      * right. exists k, sck. split; [lia|]. split; [exact Hsk|]. split; [exact Hmk|].
        split; [lia|]. split.
        -- intros j sc' Hj Hj'. destruct (Z.eq_dec j i) as [->|Hne].
           ++ rewrite Hsc in Hj'. invert Hj'. lia.
           ++ apply (Hmax j sc'); [lia|exact Hj'].
        -- intros j sc' Hj Hj'. destruct (Z.eq_dec j i) as [->|Hne].
           ++ rewrite Hsc in Hj'. invert Hj'. lia.
           ++ apply (Hfirst j sc'); [lia|exact Hj'].
Qed.

(** X12.  The selection at the end of the parallel branch of
    [gen_move_master], with at least one recorded result and both arrays
    long enough: it returns the move recorded at index 0 when no recorded
    score exceeds -2000, and otherwise the move recorded at the first
    index holding the greatest recorded score. *)
Theorem select_best_first_maximum (rec_Moves rec_Scores : list Z) (moves_rec : nat) :
  (1 <= moves_rec)%nat ->
  (moves_rec <= length rec_Moves)%nat -> (moves_rec <= length rec_Scores)%nat ->
  exists mv,
    select_best rec_Moves rec_Scores moves_rec = Ok mv
    /\ ((rd rec_Moves 0 = Ok mv
         /\ forall j sc, 0 <= j < Z.of_nat moves_rec -> rd rec_Scores j = Ok sc ->
                         sc <= -2000)
        \/ exists k sc,
             0 <= k < Z.of_nat moves_rec
             /\ rd rec_Scores k = Ok sc /\ rd rec_Moves k = Ok mv
             /\ -2000 < sc
             /\ (forall j sc', 0 <= j < Z.of_nat moves_rec ->
                               rd rec_Scores j = Ok sc' -> sc' <= sc)
             /\ (forall j sc', 0 <= j < k ->
                               rd rec_Scores j = Ok sc' -> sc' < sc)).
Proof.
  intros H1 HM HS. unfold select_best.
  destruct (rd_total rec_Moves 0) as [first Hf]; [lia|]. rewrite Hf. cbn [rbind].
  destruct (select_loop_spec rec_Moves rec_Scores moves_rec 0 first (-2000))
    as (mv & Hmv & Hcase); [lia..|].
  exists mv. split; [exact Hmv|]. rewrite Z.add_0_l in Hcase.
  destruct Hcase as [[-> Hall]|Hk]; [left|right; exact Hk].
  split; [reflexivity|exact Hall].
Qed.

Lemma select_best_first_maximum_witness :
  Nat.le 1 4 /\ Nat.le 4 (length [58; 34; 47; 53])
  /\ Nat.le 4 (length [-20453; 7; 9; 9])
  /\ exists mv, select_best [58; 34; 47; 53] [-20453; 7; 9; 9] 4 = Ok mv.
Proof.
  assert (Nat.le 1 4) as H1 by (unfold Nat.le; lia).
  assert (Nat.le 4 (length [58; 34; 47; 53])) as HM by (cbn [length]; unfold Nat.le; lia).
  assert (Nat.le 4 (length [-20453; 7; 9; 9])) as HS
    by (cbn [length]; unfold Nat.le; lia).
  split; [exact H1|]. split; [exact HM|]. split; [exact HS|].
  destruct (select_best_first_maximum [58; 34; 47; 53] [-20453; 7; 9; 9] 4 H1 HM HS)
    as (mv & Hmv & _).
  exists mv. exact Hmv.
Defined.


(** ** The search on well-formed boards *)

Lemma legal_moves_valid (g : Board) (player : Z) :
  border_outer g -> is_player player ->
  exists l, legal_moves g player = Ok l
            /\ forall m, In m l -> validp m = true /\ legalp g m player = Ok true.
Proof.
  intros Hb Hp.
  destruct (legal_moves_loop_total g player 78 Hb Hp 11) as [l Hl].
  exists l. split; [rewrite legal_moves_eq; exact Hl|].
  destruct (legal_moves_loop_spec g player 78 11 l Hl) as (_ & _ & Hin).
  intros m Hm. apply Hin in Hm as [_ Hm]. split; [|exact Hm].
  eapply legalp_true_validp, Hm.
Qed.

Lemma search_frame_refl (s : state) (g : Board) :
  s_heap s !! s_board s = Some g -> wf_board g -> search_frame s s.
Proof.
  intros Hg Hwf. unfold search_frame.
  split; [reflexivity|]. split; [reflexivity|]. split; [lia|].
  split; [auto|]. split; [left; reflexivity|]. eauto.
Qed.

Lemma search_frame_trans (s1 s2 s3 : state) :
  search_frame s1 s2 -> search_frame s2 s3 -> search_frame s1 s3.
Proof.
  intros (Hc1 & Hz1 & Hl1 & Hk1 & Hb1 & _) (Hc2 & Hz2 & Hl2 & Hk2 & Hb2 & Hg2).
  unfold search_frame.
  split; [congruence|]. split; [congruence|]. split; [lia|].
  split; [|split; [|exact Hg2]].
  - intros p b Hp Hpb. apply Hk2; [|apply Hk1; assumption].
    apply lookup_lt_Some in Hpb. destruct Hb1 as [->|Hn]; [exact Hp|lia].
  - destruct Hb2 as [->|Hn]; [|right; lia].
    destruct Hb1 as [->|Hn]; [left; reflexivity|right; lia].
Qed.

(** [copy_board] in a search. *)
Lemma search_frame_copy (s : state) (g b : Board) :
  s_heap s !! s_board s = Some g -> wf_board g ->
  search_frame s (State (s_heap s ++ [b]) (s_board s) (s_my_colour s) (s_size s)).
Proof.
  intros Hg Hwf. unfold search_frame. cbn [s_heap s_board s_my_colour s_size].
  split; [reflexivity|]. split; [reflexivity|].
  split; [rewrite length_app; lia|]. split; [|split; [left; reflexivity|]].
  - intros p c _ Hp. rewrite lookup_app_l; [exact Hp|]. eapply lookup_lt_Some, Hp.
  - exists g. split; [|exact Hwf].
    rewrite lookup_app_l; [exact Hg|]. eapply lookup_lt_Some, Hg.
Qed.

(** [make_move] on the global board in a search. *)
Lemma search_frame_move (s : state) (g' : Board) :
  (s_board s < length (s_heap s))%nat -> wf_board g' ->
  search_frame s (State (<[s_board s := g']> (s_heap s)) (s_board s)
                    (s_my_colour s) (s_size s)).
Proof.
  intros Hlt Hwf. unfold search_frame. cbn [s_heap s_board s_my_colour s_size].
  split; [reflexivity|]. split; [reflexivity|].
  split; [rewrite length_insert; lia|]. split; [|split; [left; reflexivity|]].
  - intros p c Hne Hp. rewrite list_lookup_insert_ne by congruence. exact Hp.
  - exists g'. split; [|exact Hwf]. apply list_lookup_insert_eq. exact Hlt.
Qed.

(** [board = copy_board(p); make_move(m, colour)]: the global board moves
    to a new block. *)
Lemma search_frame_restore (s : state) (b' : Board) :
  wf_board b' ->
  search_frame s (State (s_heap s ++ [b']) (length (s_heap s))
                    (s_my_colour s) (s_size s)).
Proof.
  intros Hwf. unfold search_frame. cbn [s_heap s_board s_my_colour s_size].
  split; [reflexivity|]. split; [reflexivity|].
  split; [rewrite length_app; lia|]. split; [|split; [right; lia|]].
  - intros p c _ Hp. rewrite lookup_app_l; [exact Hp|]. eapply lookup_lt_Some, Hp.
  - exists b'. split; [|exact Hwf].
    rewrite lookup_app_r by lia. rewrite Nat.sub_diag. reflexivity.
Qed.

Lemma restore_Ok {A : Type} (s : state) (src : nat) (b b' : Board) (m colour : Z)
  (k : M A) :
  s_heap s !! src = Some b -> make_move b m colour = Ok b' ->
  bind (copy_board src)
    (fun nb => bind (set_board nb) (fun _ => bind (run_make_move m colour) (fun _ => k)))
    s
  = k (State (s_heap s ++ [b']) (length (s_heap s)) (s_my_colour s) (s_size s)).
Proof.
  intros Hb Hm.
  rewrite (bind_Ok _ _ _ _ _ (copy_board_Ok s src b Hb)).
  unfold bind at 1. unfold set_board at 1. cbn [s_heap s_board s_my_colour s_size].
  erewrite (bind_Ok (run_make_move m colour)).
  2:{ apply (run_make_move_Ok _ b b').
      - cbn [s_heap s_board]. rewrite lookup_app_r by lia.
        rewrite Nat.sub_diag. reflexivity.
      - exact Hm. }
  cbn [s_heap s_board s_my_colour s_size].
  rewrite insert_app_r_alt by lia. rewrite Nat.sub_diag. reflexivity.
Qed.

Section Leaves.
Variables (mc : Z) (S : Board) (v : Z).
Hypothesis Hmc : is_player mc.
Hypothesis HS : wf_board S.
Hypothesis Hv : forall g, border_outer g -> evaluate g mc mc S = Ok v.

(** The replies of one node: every recursive call returns a value of
    [search_values], and so do the bounds the loop ends with. *)
Lemma alpha_beta_loop_ok (recur : Z -> Z -> Z -> M Z) (colour : Z) (nb : nat) :
  is_player colour ->
  (forall m a b s,
     validp m = true -> a < b -> search_state s nb S -> s_my_colour s = mc ->
     exists r s', recur m a b s = Ok (r, s') /\ search_frame s s'
                  /\ search_values a b v r) ->
  forall (moves : list Z) (alpha beta : Z) (s : state),
    (forall m, In m moves -> validp m = true) ->
    alpha < beta -> search_state s nb S -> s_my_colour s = mc ->
    exists alpha' beta' s',
      alpha_beta_loop recur colour nb moves alpha beta s = Ok ((alpha', beta'), s')
      /\ search_frame s s'
      /\ (if colour =? mc
          then beta' = beta
               /\ match moves with
                  | [] => alpha' = alpha
                  | _ :: _ => alpha' = Z.max alpha v
                              \/ alpha' = Z.max alpha (Z.min beta v)
                  end
          else alpha' = alpha
               /\ match moves with
                  | [] => beta' = beta
                  | _ :: _ => beta' = Z.min beta v
                              \/ beta' = Z.max alpha (Z.min beta v)
                  end).
Proof.
  intros Hcol Hrec.
  induction moves as [|m moves IH]; intros alpha beta s Hval Hab Hst Hsmc.
  - exists alpha, beta, s. split; [reflexivity|].
    destruct Hst as (_ & (g & Hg & Hwf) & _). split; [eapply search_frame_refl; eauto|].
    destruct (colour =? mc); auto.
  - destruct (Hrec m alpha beta s (Hval m (or_introl eq_refl)) Hab Hst Hsmc)
      as (r & s1 & Hr & Hf1 & Hvals).
    destruct Hst as (Hpl & (g & Hg & Hwfg) & Hnb & Hne).
    pose proof Hf1 as (Hc1 & Hz1 & Hl1 & Hk1 & Hb1 & (g1 & Hg1 & Hwf1)).
    assert (s_heap s1 !! nb = Some S) as Hnb1 by (apply Hk1; assumption).
    destruct (make_move_wf S colour m HS Hcol (Hval m (or_introl eq_refl)))
      as (S' & HS' & HwfS').
    set (s4 := State (s_heap s1 ++ [S']) (length (s_heap s1)) (s_my_colour s1)
                 (s_size s1)).
    assert (search_frame s s4) as Hf4.
    { eapply search_frame_trans; [exact Hf1|]. apply search_frame_restore, HwfS'. }
    assert (search_state s4 nb S) as Hst4.
    { unfold search_state, s4. cbn [s_heap s_board s_my_colour].
      split; [rewrite Hc1; exact Hpl|]. split.
      - exists S'. split; [|exact HwfS'].
        rewrite lookup_app_r by lia. rewrite Nat.sub_diag. reflexivity.
      - apply lookup_lt_Some in Hnb1 as Hlt.
        split; [rewrite lookup_app_l by exact Hlt; exact Hnb1|lia]. }
    assert (s_my_colour s4 = mc) as Hmc4 by (unfold s4; cbn [s_my_colour]; congruence).
    cbn [alpha_beta_loop].
    rewrite (bind_Ok _ _ _ _ _ Hr).
    rewrite (restore_Ok s1 nb S S' m colour _ Hnb1 HS'). fold s4.
    rewrite (bind_Ok get_my_colour _ s4 s4 (s_my_colour s4)) by reflexivity.
    rewrite Hmc4. cbv zeta.
    set (alpha1 := if colour =? mc then (if r >? alpha then r else alpha) else alpha).
    set (beta1 := if colour =? mc then beta else (if r <? beta then r else beta)).
    assert (if colour =? mc
            then beta1 = beta
                 /\ (alpha1 = Z.max alpha v \/ alpha1 = Z.max alpha (Z.min beta v))
            else alpha1 = alpha
                 /\ (beta1 = Z.min beta v \/ beta1 = Z.max alpha (Z.min beta v)))
      as H1.
    { unfold alpha1, beta1, search_values in *.
      destruct (colour =? mc).
      - split; [reflexivity|]. destruct (Z.gtb_spec r alpha); lia.
      - split; [reflexivity|]. destruct (Z.ltb_spec r beta); lia. }
    destruct (Z.geb_spec alpha1 beta1) as [Hcut|Hgo].
    + exists alpha1, beta1, s4. split; [reflexivity|]. split; [exact Hf4|].
      destruct (colour =? mc); exact H1.
    + destruct (IH alpha1 beta1 s4 (fun m' H => Hval m' (or_intror H)) Hgo Hst4 Hmc4)
        as (alpha' & beta' & s' & Hloop & Hf' & Hout).
      exists alpha', beta', s'. split; [exact Hloop|].
      split; [eapply search_frame_trans; eauto|].
      destruct (colour =? mc).
      * destruct H1 as [Hb1' Ha1], Hout as [-> Ha'].
        split; [exact Hb1'|]. destruct moves; lia.
      * destruct H1 as [Ha1 Hb1'], Hout as [-> Hb'].
        split; [exact Ha1|]. destruct moves; lia.
Qed.

Lemma run_evaluate_leaf (s : state) (g : Board) (p : nat) :
  s_my_colour s = mc ->
  s_heap s !! s_board s = Some g -> wf_board g -> s_heap s !! p = Some S ->
  run_evaluate mc p s = Ok (v, s).
Proof.
  intros Hsmc Hg Hwf Hp. rewrite (run_evaluate_eq s g S mc p Hg Hp).
  rewrite Hsmc, (Hv g (wf_board_border g Hwf)). reflexivity.
Qed.

(** A node below the root: [sent_board] is not the block of the global
    board, so it holds [S] throughout, and the node returns a value of
    [search_values]. *)
Lemma alpha_beta_inner (fuel : nat) :
  forall (move alpha beta colour depth : Z) (sent : nat) (s : state),
    0 <= depth < Z.of_nat fuel -> alpha < beta ->
    is_player colour -> validp move = true ->
    search_state s sent S -> s_my_colour s = mc ->
    exists r s',
      alpha_beta fuel move alpha beta colour depth sent s = Ok (r, s')
      /\ search_frame s s' /\ search_values alpha beta v r.
Proof.
  induction fuel as [|fuel IH];
    intros move alpha beta colour depth sent s Hd Hab Hcol Hval Hst Hsmc; [lia|].
  destruct Hst as (Hpl & (g & Hg & Hwfg) & Hsent & Hne).
  apply lookup_lt_Some in Hg as Hglt. apply lookup_lt_Some in Hsent as Hslt.
  destruct (legal_moves_valid g mc (wf_board_border g Hwfg) Hmc) as (l & Hl & _).
  cbn [alpha_beta].
  rewrite (bind_Ok get_my_colour _ s s (s_my_colour s)) by reflexivity.
  rewrite Hsmc.
  rewrite (bind_Ok _ _ s s l (run_legal_moves_Ok s g mc l Hg Hl)).
  rewrite (bind_Ok _ _ _ _ _ (copy_board_Ok s sent S Hsent)).
  set (s1 := State (s_heap s ++ [S]) (s_board s) (s_my_colour s) (s_size s)).
  assert (search_frame s s1) as Hf1 by (eapply search_frame_copy; eauto).
  assert (s_heap s1 !! s_board s1 = Some g) as Hg1
    by (unfold s1; cbn [s_heap s_board]; rewrite lookup_app_l by exact Hglt; exact Hg).
  assert (s_my_colour s1 = mc) as Hmc1 by exact Hsmc.
  destruct (Z.eqb_spec depth 0) as [->|Hd0].
  { exists v, s1. split; [|split; [exact Hf1|left; reflexivity]].
    apply (run_evaluate_leaf s1 g _ Hmc1 Hg1 Hwfg).
    unfold s1. cbn [s_heap]. rewrite lookup_app_r by lia.
    rewrite Nat.sub_diag. reflexivity. }
  destruct (make_move_wf g colour move Hwfg Hcol Hval) as (g' & Hg' & Hwfg').
  rewrite (bind_Ok _ _ _ _ _ (run_make_move_Ok s1 g g' move colour Hg1 Hg')).
  set (s2 := State (<[s_board s1 := g']> (s_heap s1)) (s_board s1) (s_my_colour s1)
               (s_size s1)).
  assert (s_board s1 < length (s_heap s1))%nat as Hglt1
    by (eapply lookup_lt_Some, Hg1).
  assert (search_frame s1 s2) as Hf2 by (apply search_frame_move; assumption).
  assert (s_heap s2 !! sent = Some S) as Hsent2.
  { unfold s2, s1. cbn [s_heap s_board].
    rewrite list_lookup_insert_ne by congruence.
    rewrite lookup_app_l by exact Hslt. exact Hsent. }
  assert (s_heap s2 !! s_board s2 = Some g') as Hg2
    by (unfold s2; cbn [s_heap s_board]; apply list_lookup_insert_eq; exact Hglt1).
  rewrite (bind_Ok _ _ _ _ _ (copy_board_Ok s2 sent S Hsent2)).
  set (s3 := State (s_heap s2 ++ [S]) (s_board s2) (s_my_colour s2) (s_size s2)).
  assert (search_frame s2 s3) as Hf3 by (eapply search_frame_copy; eauto).
  assert (search_frame s s3) as Hf
    by (eapply search_frame_trans; [|eapply search_frame_trans]; eauto).
  apply lookup_lt_Some in Hg2 as Hglt2.
  assert (s_heap s3 !! s_board s3 = Some g') as Hg3
    by (unfold s3; cbn [s_heap s_board]; rewrite lookup_app_l by exact Hglt2;
        exact Hg2).
  assert (s_heap s3 !! length (s_heap s2) = Some S) as Hnb3.
  { unfold s3. cbn [s_heap]. rewrite lookup_app_r by lia.
    rewrite Nat.sub_diag. reflexivity. }
  assert (s_my_colour s3 = mc) as Hmc3 by exact Hsmc.
  destruct (legal_moves_valid g' (opponent colour) (wf_board_border g' Hwfg')
              (proj1 (opponent_player colour Hcol))) as (l' & Hl' & Hval').
  rewrite (bind_Ok _ _ s3 s3 l' (run_legal_moves_Ok s3 g' _ l' Hg3 Hl')).
  destruct l' as [|m' l'].
  { exists v, s3. split; [|split; [exact Hf|left; reflexivity]].
    exact (run_evaluate_leaf s3 g' _ Hmc3 Hg3 Hwfg' Hnb3). }
  assert (search_state s3 (length (s_heap s2)) S) as Hst3.
  { unfold search_state. split; [rewrite Hmc3; exact Hmc|].
    split; [eauto|]. split; [exact Hnb3|].
    unfold s3. cbn [s_board]. lia. }
  destruct (alpha_beta_loop_ok
              (fun m a b => alpha_beta fuel m a b (opponent colour) (depth - 1)
                              (length (s_heap s2)))
              colour (length (s_heap s2)) Hcol) with (moves := m' :: l')
      (alpha := alpha) (beta := beta) (s := s3)
    as (alpha' & beta' & s' & Hloop & Hf' & Hout).
  - intros m a b t Hm Hab' Ht Htmc.
    apply IH; try assumption; [lia|]. apply opponent_player, Hcol.
  - intros m Hm. apply Hval', Hm.
  - exact Hab.
  - exact Hst3.
  - exact Hmc3.
  - rewrite (bind_Ok _ _ _ _ _ Hloop).
    exists (if colour =? mc then (alpha', beta').1 else (alpha', beta').2), s'.
    split; [reflexivity|]. split; [eapply search_frame_trans; eauto|].
    unfold search_values. cbn [fst snd].
    destruct (colour =? mc); destruct Hout as [_ Hout]; lia.
Qed.
End Leaves.

Lemma make_move_has_piece (B B' : Board) (move colour : Z) :
  is_player colour -> make_move B move colour = Ok B' -> has_piece B'.
Proof.
  intros Hc H. exists move, colour. split; [|exact Hc].
  apply (make_move_cells B B' move colour H).
Qed.

Lemma evaluate_leaf_value (mc : Z) (B : Board) :
  is_player mc -> wf_board B -> has_piece B ->
  exists v, forall g, border_outer g -> evaluate g mc mc B = Ok v.
Proof.
  intros Hmc Hwf (i & q & Hi & Hq).
  destruct (evaluate_total B mc mc B i q (wf_board_border B Hwf) Hwf Hmc Hi Hq)
    as [v Hv].
  exists v. intros g Hg. rewrite <- Hv.
  apply evaluate_globals; auto using wf_board_border.
Qed.

(** The root of a search: [sent_board] is the global board itself, so the
    root move is written into it before it is copied for the replies. *)
Lemma alpha_beta_root (fuel : nat) (move alpha beta colour depth : Z)
  (s : state) (B : Board) :
  0 <= depth < Z.of_nat fuel -> alpha < beta ->
  is_player colour -> validp move = true ->
  is_player (s_my_colour s) ->
  s_heap s !! s_board s = Some B -> wf_board B -> has_piece B ->
  exists r s',
    alpha_beta fuel move alpha beta colour depth (s_board s) s = Ok (r, s')
    /\ search_frame s s'
    /\ if depth =? 0
       then evaluate B (s_my_colour s) (s_my_colour s) B = Ok r
       else exists B1 v,
              make_move B move colour = Ok B1
              /\ evaluate B1 (s_my_colour s) (s_my_colour s) B1 = Ok v
              /\ search_values alpha beta v r.
Proof.
  intros Hd Hab Hcol Hval Hmc Hg Hwf Hpiece.
  destruct fuel as [|fuel]; [lia|].
  set (mc := s_my_colour s) in *.
  apply lookup_lt_Some in Hg as Hglt.
  destruct (legal_moves_valid B mc (wf_board_border B Hwf) Hmc) as (l & Hl & _).
  cbn [alpha_beta].
  rewrite (bind_Ok get_my_colour _ s s (s_my_colour s)) by reflexivity.
  fold mc.
  rewrite (bind_Ok _ _ s s l (run_legal_moves_Ok s B mc l Hg Hl)).
  rewrite (bind_Ok _ _ _ _ _ (copy_board_Ok s (s_board s) B Hg)).
  set (s1 := State (s_heap s ++ [B]) (s_board s) (s_my_colour s) (s_size s)).
  assert (search_frame s s1) as Hf1 by (eapply search_frame_copy; eauto).
  assert (s_heap s1 !! s_board s1 = Some B) as Hg1
    by (unfold s1; cbn [s_heap s_board]; rewrite lookup_app_l by exact Hglt; exact Hg).
  destruct (Z.eqb_spec depth 0) as [->|Hd0].
  { destruct (evaluate_leaf_value mc B Hmc Hwf Hpiece) as [v0 Hv0].
    exists v0, s1. split; [|split; [exact Hf1|]].
    - apply (run_evaluate_leaf mc B v0 Hv0 s1 B _ eq_refl Hg1 Hwf).
      unfold s1. cbn [s_heap]. rewrite lookup_app_r by lia.
      rewrite Nat.sub_diag. reflexivity.
    - apply Hv0, wf_board_border, Hwf. }
  destruct (make_move_wf B colour move Hwf Hcol Hval) as (B1 & HB1 & Hwf1).
  rewrite (bind_Ok _ _ _ _ _ (run_make_move_Ok s1 B B1 move colour Hg1 HB1)).
  set (s2 := State (<[s_board s1 := B1]> (s_heap s1)) (s_board s1) (s_my_colour s1)
               (s_size s1)).
  assert (s_board s1 < length (s_heap s1))%nat as Hglt1
    by (eapply lookup_lt_Some, Hg1).
  assert (search_frame s1 s2) as Hf2 by (apply search_frame_move; assumption).
  assert (s_heap s2 !! s_board s2 = Some B1) as Hg2
    by (unfold s2; cbn [s_heap s_board]; apply list_lookup_insert_eq; exact Hglt1).
  assert (s_heap s2 !! s_board s = Some B1) as Hsent2 by exact Hg2.
  rewrite (bind_Ok _ _ _ _ _ (copy_board_Ok s2 (s_board s) B1 Hsent2)).
  set (s3 := State (s_heap s2 ++ [B1]) (s_board s2) (s_my_colour s2) (s_size s2)).
  assert (search_frame s2 s3) as Hf3 by (eapply search_frame_copy; eauto).
  assert (search_frame s s3) as Hf
    by (eapply search_frame_trans; [|eapply search_frame_trans]; eauto).
  apply lookup_lt_Some in Hg2 as Hglt2.
  assert (s_heap s3 !! s_board s3 = Some B1) as Hg3
    by (unfold s3; cbn [s_heap s_board]; rewrite lookup_app_l by exact Hglt2;
        exact Hg2).
  assert (s_heap s3 !! length (s_heap s2) = Some B1) as Hnb3.
  { unfold s3. cbn [s_heap]. rewrite lookup_app_r by lia.
    rewrite Nat.sub_diag. reflexivity. }
  assert (s_my_colour s3 = mc) as Hmc3 by reflexivity.
  destruct (evaluate_leaf_value mc B1 Hmc Hwf1
              (make_move_has_piece B B1 move colour Hcol HB1)) as [v Hv].
  assert (evaluate B1 mc mc B1 = Ok v) as HvB1 by (apply Hv, wf_board_border, Hwf1).
  destruct (legal_moves_valid B1 (opponent colour) (wf_board_border B1 Hwf1)
              (proj1 (opponent_player colour Hcol))) as (l' & Hl' & Hval').
  rewrite (bind_Ok _ _ s3 s3 l' (run_legal_moves_Ok s3 B1 _ l' Hg3 Hl')).
  destruct l' as [|m' l'].
  { exists v, s3. split; [|split; [exact Hf|]].
    - exact (run_evaluate_leaf mc B1 v Hv s3 B1 _ Hmc3 Hg3 Hwf1 Hnb3).
    - exists B1, v. split; [exact HB1|]. split; [exact HvB1|]. left. reflexivity. }
  assert (search_state s3 (length (s_heap s2)) B1) as Hst3.
  { unfold search_state. split; [exact Hmc|].
    split; [eauto|]. split; [exact Hnb3|].
    unfold s3. cbn [s_board]. lia. }
  destruct (alpha_beta_loop_ok mc B1 v Hwf1
              (fun m a b => alpha_beta fuel m a b (opponent colour) (depth - 1)
                              (length (s_heap s2)))
              colour (length (s_heap s2)) Hcol) with (moves := m' :: l')
      (alpha := alpha) (beta := beta) (s := s3)
    as (alpha' & beta' & s' & Hloop & Hf' & Hout).
  - intros m a b t Hm Hab' Ht Htmc.
    apply (alpha_beta_inner mc B1 v Hmc Hwf1 Hv); try assumption; [lia|].
    apply opponent_player, Hcol.
  - intros m Hm. apply Hval', Hm.
  - exact Hab.
  - exact Hst3.
  - exact Hmc3.
  - rewrite (bind_Ok _ _ _ _ _ Hloop).
    exists (if colour =? mc then (alpha', beta').1 else (alpha', beta').2), s'.
    split; [reflexivity|]. split; [eapply search_frame_trans; eauto|].
    exists B1, v. split; [exact HB1|]. split; [exact HvB1|].
    unfold search_values. cbn [fst snd].
    destruct (colour =? mc); destruct Hout as [_ Hout]; lia.
Qed.

Lemma dynamic_depth_range (moves size : Z) :
  0 <= dynamic_depth moves size <= 7.
Proof.
  unfold dynamic_depth.
  destruct ((3 <=? moves) && (moves <? 8)); [lia|].
  destruct ((8 <=? moves) && (moves <? 15)); [lia|].
  destruct (15 <=? moves); [lia|]. destruct (size =? 1); lia.
Qed.

Lemma minimax_ok (move colour : Z) (s : state) (B : Board) :
  s_heap s !! s_board s = Some B -> wf_board B -> has_piece B ->
  is_player (s_my_colour s) -> is_player colour -> validp move = true ->
  exists l r s',
    legal_moves B (s_my_colour s) = Ok l
    /\ minimax move colour (s_board s) s = Ok (r, s')
    /\ search_frame s s'
    /\ if dynamic_depth (Z.of_nat (length l)) (s_size s) =? 0
       then evaluate B (s_my_colour s) (s_my_colour s) B = Ok r
       else exists B1 v,
              make_move B move colour = Ok B1
              /\ evaluate B1 (s_my_colour s) (s_my_colour s) B1 = Ok v
              /\ search_values (-10000) 10000 v r.
Proof.
  intros Hg Hwf Hpiece Hmc Hcol Hval.
  destruct (legal_moves_valid B (s_my_colour s) (wf_board_border B Hwf) Hmc)
    as (l & Hl & _).
  exists l. unfold minimax.
  rewrite (bind_Ok get_my_colour _ s s (s_my_colour s)) by reflexivity.
  rewrite (bind_Ok _ _ s s l (run_legal_moves_Ok s B _ l Hg Hl)).
  rewrite (bind_Ok get_size _ s s (s_size s)) by reflexivity.
  cbv zeta.
  pose proof (dynamic_depth_range (Z.of_nat (length l)) (s_size s)) as Hd.
  destruct (alpha_beta_root (search_fuel (dynamic_depth (Z.of_nat (length l)) (s_size s)))
              move (-10000) 10000 colour
              (dynamic_depth (Z.of_nat (length l)) (s_size s)) s B)
    as (r & s' & Hr & Hf & Hout); try assumption.
  - unfold search_fuel. lia.
  - lia.
  - exists r, s'. split; [exact Hl|]. split; [exact Hr|]. split; [exact Hf|exact Hout].
Qed.

(** X13.  [minimax] on the global board, which holds a well-formed board
    [B] with at least one piece, for a root move on an interior cell and
    colours BLACK or WHITE: the call returns.  When the depth table gives
    depth 0 the result is the evaluation of [B] itself; otherwise it is
    the evaluation [v] of the board after the root move, or [v] cut to the
    window from -10000 to 10000 on one or both sides.  The replies that
    the search tries have no influence on the result. *)
Theorem minimax_is_static_evaluation (move colour : Z) (s : state) (B : Board) :
  s_heap s !! s_board s = Some B -> wf_board B -> has_piece B ->
  is_player (s_my_colour s) -> is_player colour -> validp move = true ->
  exists l r s',
    legal_moves B (s_my_colour s) = Ok l
    /\ minimax move colour (s_board s) s = Ok (r, s')
    /\ if dynamic_depth (Z.of_nat (length l)) (s_size s) =? 0
       then evaluate B (s_my_colour s) (s_my_colour s) B = Ok r
       else exists B1 v,
              make_move B move colour = Ok B1
              /\ evaluate B1 (s_my_colour s) (s_my_colour s) B1 = Ok v
              /\ search_values (-10000) 10000 v r.
Proof.
  intros Hg Hwf Hpiece Hmc Hcol Hval.
  destruct (minimax_ok move colour s B Hg Hwf Hpiece Hmc Hcol Hval)
    as (l & r & s' & Hl & Hr & _ & Hout).
  exists l, r, s'. split; [exact Hl|]. split; [exact Hr|exact Hout].
Qed.

Lemma minimax_is_static_evaluation_witness :
  s_heap (serial_state initialise_board) !! s_board (serial_state initialise_board)
  = Some initialise_board
  /\ wf_board initialise_board /\ has_piece initialise_board
  /\ is_player (s_my_colour (serial_state initialise_board))
  /\ is_player BLACK /\ validp 34 = true
  /\ exists l r s',
    legal_moves initialise_board (s_my_colour (serial_state initialise_board)) = Ok l
    /\ minimax 34 BLACK (s_board (serial_state initialise_board))
         (serial_state initialise_board) = Ok (r, s')
    /\ if dynamic_depth (Z.of_nat (length l)) (s_size (serial_state initialise_board))
          =? 0
       then evaluate initialise_board (s_my_colour (serial_state initialise_board))
              (s_my_colour (serial_state initialise_board)) initialise_board = Ok r
       else exists B1 v,
              make_move initialise_board 34 BLACK = Ok B1
              /\ evaluate B1 (s_my_colour (serial_state initialise_board))
                   (s_my_colour (serial_state initialise_board)) B1 = Ok v
              /\ search_values (-10000) 10000 v r.
Proof.
  assert (s_heap (serial_state initialise_board)
            !! s_board (serial_state initialise_board)
          = Some initialise_board) as Hg by reflexivity.
  assert (wf_board initialise_board) as Hwf by (vm_compute; reflexivity).
  assert (has_piece initialise_board) as Hpiece.
  { exists 44, WHITE. split; [vm_compute; reflexivity|right; reflexivity]. }
  assert (is_player (s_my_colour (serial_state initialise_board))) as Hmc
    by (left; reflexivity).
  assert (is_player BLACK) as Hcol by (left; reflexivity).
  assert (validp 34 = true) as Hval by reflexivity.
  split; [exact Hg|]. split; [exact Hwf|]. split; [exact Hpiece|].
  split; [exact Hmc|]. split; [exact Hcol|]. split; [exact Hval|].
  exact (minimax_is_static_evaluation 34 BLACK (serial_state initialise_board)
           initialise_board Hg Hwf Hpiece Hmc Hcol Hval).
Defined.


(** ** The serial player *)

(** A board on which some move is legal holds a piece. *)
Lemma legal_move_has_piece (g : Board) (move player : Z) :
  border_outer g -> is_player player ->
  legalp g move player = Ok true -> has_piece g.
Proof.
  intros Hb Hp Hl.
  pose proof (legalp_true_validp g move player Hl) as Hv.
  rewrite legalp_eq, Hv in Hl. cbn [negb] in Hl.
  destruct (rd g move) as [x|]; [|discriminate]. cbn [rbind] in Hl.
  destruct (x =? EMPTY); [|discriminate].
  destruct (some_dir_flips_bracket g player Hb Hp move ALLDIRECTIONS Hv
              (fun d H => H)) as (b & Hs & Hiff).
  rewrite Hs in Hl. invert Hl.
  destruct (proj1 Hiff eq_refl) as (dir & k & _ & _ & _ & Hend).
  exists (move + k * dir), player. split; [exact Hend|exact Hp].
Qed.

Section Serial.
Variables (my_colour : Z) (B : Board) (nb : nat).
Hypothesis Hcol : is_player my_colour.
Hypothesis HB : wf_board B.

(** The loop of [serial]: each round runs [minimax] from the global board
    as the previous round left it, then points the global board to a new
    copy of the saved board and plays the move on it. *)
Lemma serial_loop_ok (moves : list Z) :
  forall (best_move best_score : Z) (s : state),
    (forall m, In m moves -> validp m = true) ->
    search_state s nb B ->
    (exists g, s_heap s !! s_board s = Some g /\ wf_board g /\ has_piece g) ->
    exists r s',
      serial_loop my_colour nb moves best_move best_score s = Ok (r, s')
      /\ (r = best_move \/ In r moves)
      /\ search_frame s s'
      /\ match last moves with
         | None => s' = s
         | Some ml =>
             exists Bl, make_move B ml my_colour = Ok Bl /\ wf_board Bl
                        /\ s_heap s' !! s_board s' = Some Bl
                        /\ (length (s_heap s) <= s_board s')%nat
         end.
Proof.
  induction moves as [|m moves IH]; intros bm bs s Hval Hst Hglob.
  - exists bm, s. split; [reflexivity|]. split; [left; reflexivity|].
    destruct Hglob as (g & Hg & Hwf & _).
    split; [eapply search_frame_refl; eauto|reflexivity].
  - destruct Hglob as (g & Hg & Hwfg & Hpg).
    destruct Hst as (Hmc & _ & Hnb & Hne).
    assert (validp m = true) as Hm by (apply Hval; left; reflexivity).
    destruct (minimax_ok m my_colour s g Hg Hwfg Hpg Hmc Hcol Hm)
      as (l & r & s1 & _ & Hr & Hf1 & _).
    pose proof Hf1 as (Hc1 & Hz1 & Hl1 & Hk1 & Hb1 & _).
    assert (s_heap s1 !! nb = Some B) as Hnb1 by (apply Hk1; assumption).
    destruct (make_move_wf B my_colour m HB Hcol Hm) as (Bm & HBm & HwfBm).
    set (s4 := State (s_heap s1 ++ [Bm]) (length (s_heap s1)) (s_my_colour s1)
                 (s_size s1)).
    assert (search_frame s s4) as Hf4.
    { eapply search_frame_trans; [exact Hf1|]. apply search_frame_restore, HwfBm. }
    assert (s_heap s4 !! s_board s4 = Some Bm) as Hg4.
    { unfold s4. cbn [s_heap s_board]. rewrite lookup_app_r by lia.
      rewrite Nat.sub_diag. reflexivity. }
    assert (search_state s4 nb B) as Hst4.
    { unfold search_state. split; [unfold s4; cbn [s_my_colour]; congruence|].
      split; [exists Bm; split; [exact Hg4|exact HwfBm]|].
      apply lookup_lt_Some in Hnb1 as Hlt.
      unfold s4. cbn [s_heap s_board].
      split; [rewrite lookup_app_l by exact Hlt; exact Hnb1|lia]. }
    assert (exists g, s_heap s4 !! s_board s4 = Some g /\ wf_board g /\ has_piece g)
      as Hglob4.
    { exists Bm. split; [exact Hg4|]. split; [exact HwfBm|].
      exact (make_move_has_piece B Bm m my_colour Hcol HBm). }
    cbn [serial_loop].
    rewrite (bind_Ok get_board _ s s (s_board s)) by reflexivity.
    rewrite (bind_Ok _ _ _ _ _ Hr).
    rewrite (restore_Ok s1 nb B Bm m my_colour _ Hnb1 HBm). fold s4.
    assert (forall bm' bs',
              exists r' s',
                serial_loop my_colour nb moves bm' bs' s4 = Ok (r', s')
                /\ (r' = bm' \/ In r' moves)
                /\ search_frame s s'
                /\ match last (m :: moves) with
                   | None => s' = s
                   | Some ml =>
                       exists Bl, make_move B ml my_colour = Ok Bl /\ wf_board Bl
                                  /\ s_heap s' !! s_board s' = Some Bl
                                  /\ (length (s_heap s) <= s_board s')%nat
                   end) as Hrest.
    { intros bm' bs'.
      destruct (IH bm' bs' s4 (fun m' H => Hval m' (or_intror H)) Hst4 Hglob4)
        as (r' & s' & Hr' & Hin & Hf' & Hlast).
      exists r', s'. split; [exact Hr'|]. split; [exact Hin|].
      split; [eapply search_frame_trans; eauto|].
      rewrite last_cons. destruct (last moves) as [ml|].
      - destruct Hlast as (Bl & HBl & HwfBl & Hgl & Hlen).
        exists Bl. split; [exact HBl|]. split; [exact HwfBl|]. split; [exact Hgl|].
        unfold s4 in Hlen. cbn [s_heap] in Hlen. rewrite length_app in Hlen. lia.
      - subst s'. exists Bm. split; [exact HBm|]. split; [exact HwfBm|].
        split; [exact Hg4|]. unfold s4. cbn [s_board]. lia. }
    destruct (r >? bs).
    + destruct (Hrest m r) as (r' & s' & Hr' & Hin & Hrest').
      exists r', s'. split; [exact Hr'|]. split; [|exact Hrest'].
      right. destruct Hin as [->|Hin]; [left; reflexivity|right; exact Hin].
    + destruct (Hrest bm bs) as (r' & s' & Hr' & Hin & Hrest').
      exists r', s'. split; [exact Hr'|]. split; [|exact Hrest'].
      destruct Hin as [->|Hin]; [left; reflexivity|right; right; exact Hin].
Qed.
End Serial.

Lemma serial_ok (my_colour : Z) (s : state) (B : Board) :
  s_heap s !! s_board s = Some B -> wf_board B ->
  is_player (s_my_colour s) -> is_player my_colour ->
  exists l r s',
    legal_moves B my_colour = Ok l
    /\ serial my_colour s = Ok (r, s')
    /\ match last l with
       | None => r = -1 /\ s' = s
       | Some ml =>
           (r = -100 \/ In r l)
           /\ exists Bl, make_move B ml my_colour = Ok Bl /\ wf_board Bl
                         /\ s_heap s' !! s_board s' = Some Bl
                         /\ s_board s' <> s_board s
       end.
Proof.
  intros Hg Hwf Hmc Hcol.
  destruct (legal_moves_valid B my_colour (wf_board_border B Hwf) Hcol)
    as (l & Hl & Hval).
  exists l. unfold serial.
  rewrite (bind_Ok _ _ s s l (run_legal_moves_Ok s B _ l Hg Hl)).
  destruct l as [|m l'].
  { exists (-1), s. split; [exact Hl|]. split; [reflexivity|]. split; reflexivity. }
  set (l := m :: l') in *.
  rewrite (bind_Ok get_board _ s s (s_board s)) by reflexivity.
  rewrite (bind_Ok _ _ _ _ _ (copy_board_Ok s (s_board s) B Hg)).
  set (s1 := State (s_heap s ++ [B]) (s_board s) (s_my_colour s) (s_size s)).
  apply lookup_lt_Some in Hg as Hglt.
  assert (s_heap s1 !! s_board s1 = Some B) as Hg1
    by (unfold s1; cbn [s_heap s_board]; rewrite lookup_app_l by exact Hglt; exact Hg).
  assert (has_piece B) as Hpiece.
  { apply (legal_move_has_piece B m my_colour (wf_board_border B Hwf) Hcol).
    apply Hval. left. reflexivity. }
  destruct (serial_loop_ok my_colour B (length (s_heap s)) Hcol Hwf l (-100) (-2000) s1)
    as (r & s' & Hr & Hin & Hf & Hlast).
  - intros m' Hm'. apply Hval, Hm'.
  - unfold search_state. split; [exact Hmc|]. split; [eauto|].
    unfold s1. cbn [s_heap s_board]. split; [|lia].
    rewrite lookup_app_r by lia. rewrite Nat.sub_diag. reflexivity.
  - eauto.
  - exists r, s'. split; [exact Hl|]. split; [exact Hr|].
    assert (exists ml, last l = Some ml) as [ml Hml].
    { unfold l. rewrite last_cons. destruct (last l'); eauto. }
    rewrite Hml in Hlast |- *. split; [exact Hin|].
    destruct Hlast as (Bl & HBl & HwfBl & Hgl & Hlen).
    exists Bl. split; [exact HBl|]. split; [exact HwfBl|]. split; [exact Hgl|].
    unfold s1 in Hlen. cbn [s_heap] in Hlen. rewrite length_app in Hlen.
    cbn [length] in Hlen. lia.
Qed.

(** X14.  [serial] with the global board pointing to a well-formed board
    [B], for colours BLACK or WHITE: the call returns.  Without a legal
    move the answer is -1 and the state is as before.  Otherwise the
    answer is one of the legal moves or the initial value -100 of
    [best_move], and the global board is left pointing to a new block that
    holds [B] with the last legal move of the list played on it. *)
Theorem serial_returns (my_colour : Z) (s : state) (B : Board) :
  s_heap s !! s_board s = Some B -> wf_board B ->
  is_player (s_my_colour s) -> is_player my_colour ->
  exists l r s',
    legal_moves B my_colour = Ok l
    /\ serial my_colour s = Ok (r, s')
    /\ match last l with
       | None => r = -1 /\ s' = s
       | Some ml =>
           (r = -100 \/ In r l)
           /\ exists Bl, make_move B ml my_colour = Ok Bl /\ wf_board Bl
                         /\ s_heap s' !! s_board s' = Some Bl
                         /\ s_board s' <> s_board s
       end.
Proof. exact (serial_ok my_colour s B). Qed.

Lemma serial_returns_witness :
  s_heap (serial_state initialise_board) !! s_board (serial_state initialise_board)
  = Some initialise_board
  /\ wf_board initialise_board
  /\ is_player (s_my_colour (serial_state initialise_board))
  /\ is_player BLACK
  /\ exists l r s',
    legal_moves initialise_board BLACK = Ok l
    /\ serial BLACK (serial_state initialise_board) = Ok (r, s')
    /\ match last l with
       | None => r = -1 /\ s' = serial_state initialise_board
       | Some ml =>
           (r = -100 \/ In r l)
           /\ exists Bl, make_move initialise_board ml BLACK = Ok Bl /\ wf_board Bl
                         /\ s_heap s' !! s_board s' = Some Bl
                         /\ s_board s' <> s_board (serial_state initialise_board)
       end.
Proof.
  assert (s_heap (serial_state initialise_board)
            !! s_board (serial_state initialise_board)
          = Some initialise_board) as Hg by reflexivity.
  assert (wf_board initialise_board) as Hwf by (vm_compute; reflexivity).
  assert (is_player (s_my_colour (serial_state initialise_board))) as Hmc
    by (left; reflexivity).
  assert (is_player BLACK) as Hcol by (left; reflexivity).
  split; [exact Hg|]. split; [exact Hwf|]. split; [exact Hmc|]. split; [exact Hcol|].
  exact (serial_returns BLACK (serial_state initialise_board) initialise_board
           Hg Hwf Hmc Hcol).
Defined.

(** ** The move of the engine in a single-process run *)

(** X15.  [gen_move_master] in a single-process run ([size == 1]), the
    global board pointing to a well-formed board [B]: without a legal
    move it answers ["pass\n"] and leaves the state as it is.  Otherwise
    [serial] answers some [r] and leaves the global board on [B] with the
    last legal move of the list played on it; when [r] is a legal move the
    answer is the string of [get_move_string] for [r] and [r] is played on
    top of that board, so that the cell of the last legal move, [EMPTY] in
    [B], holds a piece of the engine whether or not it is the move
    answered; and when [r] is -100 the write of [make_move] falls outside
    the board. *)
Theorem gen_move_master_serial (parallel : list Z -> M Z) (my_colour : Z)
  (s : state) (B : Board) :
  s_heap s !! s_board s = Some B -> wf_board B ->
  is_player (s_my_colour s) -> is_player my_colour -> s_size s = 1 ->
  exists l,
    legal_moves B my_colour = Ok l
    /\ match last l with
       | None => gen_move_master parallel my_colour s = Ok (pass_string, s)
       | Some ml =>
           exists r s1 Bl,
             serial my_colour s = Ok (r, s1)
             /\ make_move B ml my_colour = Ok Bl
             /\ s_heap s1 !! s_board s1 = Some Bl
             /\ ((r = -100
                  /\ gen_move_master parallel my_colour s = Err OutOfBounds)
                 \/ (In r l
                     /\ exists B2,
                          make_move Bl r my_colour = Ok B2
                          /\ gen_move_master parallel my_colour s
                             = Ok (get_move_string r,
                                   State (<[s_board s1 := B2]> (s_heap s1))
                                     (s_board s1) (s_my_colour s1) (s_size s1))
                          /\ rd B ml = Ok EMPTY
                          /\ rd B2 ml = Ok my_colour))
       end.
Proof.
  intros Hg Hwf Hmc Hcol Hsize.
  destruct (serial_ok my_colour s B Hg Hwf Hmc Hcol) as (l & r & s1 & Hl & Hr & Hlast).
  destruct (legal_moves_valid B my_colour (wf_board_border B Hwf) Hcol)
    as (l0 & Hl0 & Hval).
  rewrite Hl in Hl0. invert Hl0.
  exists l0. split; [exact Hl|].
  assert (forall k : Z -> M string,
            bind (run_legal_moves my_colour)
              (fun moves => bind get_size
                 (fun size => bind (if size =? 1 then serial my_colour
                                    else parallel moves) k)) s
            = k r s1) as Hgen.
  { intros k.
    rewrite (bind_Ok _ _ s s l0 (run_legal_moves_Ok s B _ l0 Hg Hl)).
    rewrite (bind_Ok get_size _ s s (s_size s)) by reflexivity.
    rewrite Hsize. cbn [Z.eqb Pos.eqb].
    rewrite (bind_Ok _ _ _ _ _ Hr). reflexivity. }
  unfold gen_move_master. rewrite Hgen. cbv zeta.
  destruct (last l0) as [ml|] eqn:Hlastl.
  - destruct Hlast as (Hin & Bl & HBl & HwfBl & Hgl & _).
    exists r, s1, Bl. split; [exact Hr|]. split; [exact HBl|]. split; [exact Hgl|].
    destruct Hin as [->|Hin].
    + left. split; [reflexivity|]. cbn [Z.eqb Pos.eqb].
      unfold bind, run_make_move, bind, get_board, deref, lift.
      rewrite Hgl. reflexivity.
    + right. split; [exact Hin|].
      destruct (Hval r Hin) as [Hvr _].
      destruct (make_move_wf Bl my_colour r HwfBl Hcol Hvr) as (B2 & HB2 & _).
      exists B2. split; [exact HB2|].
      destruct (Z.eqb_spec r (-1)) as [->|_]; [discriminate Hvr|].
      rewrite (bind_Ok _ _ _ _ _ (run_make_move_Ok s1 Bl B2 r my_colour Hgl HB2)).
      split; [reflexivity|]. split.
      * assert (In ml l0) as Hml.
        { apply list_elem_of_In. apply last_Some_elem_of. exact Hlastl. }
        destruct (Hval ml Hml) as [Hvm Hlm].
        rewrite legalp_eq, Hvm in Hlm. cbn [negb] in Hlm.
        destruct (rd B ml) as [x|]; [|discriminate]. cbn [rbind] in Hlm.
        destruct (Z.eqb_spec x EMPTY) as [E|_]; [rewrite E; reflexivity|discriminate].
      * destruct (make_move_cells B Bl ml my_colour HBl) as [Hcell _].
        destruct (make_move_cells Bl B2 r my_colour HB2) as [_ Hcells].
        destruct (Hcells ml) as [E|E]; [rewrite E; exact Hcell|exact E].
  - destruct Hlast as [-> ->]. reflexivity.
Qed.

Lemma gen_move_master_serial_witness :
  s_heap (serial_state initialise_board) !! s_board (serial_state initialise_board)
  = Some initialise_board
  /\ wf_board initialise_board
  /\ is_player (s_my_colour (serial_state initialise_board))
  /\ is_player BLACK
  /\ s_size (serial_state initialise_board) = 1
  /\ exists l, legal_moves initialise_board BLACK = Ok l.
Proof.
  assert (s_heap (serial_state initialise_board)
            !! s_board (serial_state initialise_board)
          = Some initialise_board) as Hg by reflexivity.
  assert (wf_board initialise_board) as Hwf by (vm_compute; reflexivity).
  assert (is_player (s_my_colour (serial_state initialise_board))) as Hmc
    by (left; reflexivity).
  assert (is_player BLACK) as Hcol by (left; reflexivity).
  assert (s_size (serial_state initialise_board) = 1) as Hsize by reflexivity.
  split; [exact Hg|]. split; [exact Hwf|]. split; [exact Hmc|]. split; [exact Hcol|].
  split; [exact Hsize|].
  destruct (gen_move_master_serial (fun _ => ret 0) BLACK
              (serial_state initialise_board) initialise_board
              Hg Hwf Hmc Hcol Hsize) as (l & Hl & _).
  exists l. exact Hl.
Defined.


(** ** The stage of the game *)

Lemma game_stage_loop_counts (g : Board) (my_colour opp : Z) (n : nat) :
  my_colour <> opp ->
  forall i p o,
    0 <= i -> i + Z.of_nat n <= Z.of_nat (length g) ->
    exists p' o',
      game_stage_loop n i g my_colour opp p o = Ok (p', o')
      /\ count_loop n i my_colour g p = Ok p'
      /\ count_loop n i opp g o = Ok o'.
Proof.
  intros Hne. induction n as [|n IH]; intros i p o Hi Hn.
  - exists p, o. split; [reflexivity|]. split; reflexivity.
  - cbn [game_stage_loop count_loop].
    destruct (rd_total g i) as [v Hv]; [lia|]. rewrite Hv. cbn [rbind].
    destruct (Z.eqb_spec v my_colour) as [->|Hvm].
    + destruct (Z.eqb_spec my_colour opp) as [E|_]; [congruence|].
      apply IH; lia.
    + destruct (Z.eqb_spec v opp) as [->|Hvo]; apply IH; lia.
Qed.

(** X16.  [game_stage] on a global board of 100 cells, for a global
    colour BLACK or WHITE: with [p] and [o] the numbers of cells that
    [count] finds for the colour and for its opponent, the stage is 1 when
    [p + o <= 20], 2 when [20 < p + o <= 40] and 3 above that; the initial
    value 0 is never returned. *)
Theorem game_stage_thresholds (g : Board) (my_colour : Z) :
  length g = 100%nat -> is_player my_colour ->
  exists p o,
    count my_colour g = Ok p /\ count (opponent my_colour) g = Ok o
    /\ game_stage g my_colour
       = Ok (if p + o <=? 20 then 1 else if p + o <=? 40 then 2 else 3).
Proof.
  intros Hl Hp.
  destruct (opponent_player my_colour Hp) as (_ & Hne & _).
  destruct (game_stage_loop_counts g my_colour (opponent my_colour) 88
              (fun E => Hne (eq_sym E)) 1 0 0) as (p & o & Hgs & Hcp & Hco);
    [lia|rewrite Hl; lia|].
  exists p, o. rewrite !count_eq. split; [exact Hcp|]. split; [exact Hco|].
  unfold game_stage. rewrite Hgs. cbn [rbind fst snd]. f_equal.
  destruct (Z.leb_spec (p + o) 20); [reflexivity|].
  destruct (Z.ltb_spec 20 (p + o)); [|lia]. cbn [andb].
  destruct (Z.leb_spec (p + o) 40); [reflexivity|].
  destruct (Z.ltb_spec 40 (p + o)); [reflexivity|lia].
Qed.

Lemma game_stage_thresholds_witness :
  length initialise_board = 100%nat /\ is_player BLACK
  /\ exists p o,
    count BLACK initialise_board = Ok p
    /\ count (opponent BLACK) initialise_board = Ok o
    /\ game_stage initialise_board BLACK
       = Ok (if p + o <=? 20 then 1 else if p + o <=? 40 then 2 else 3).
Proof.
  assert (length initialise_board = 100%nat) as Hl by (vm_compute; reflexivity).
  assert (is_player BLACK) as Hp by (left; reflexivity).
  split; [exact Hl|]. split; [exact Hp|].
  exact (game_stage_thresholds initialise_board BLACK Hl Hp).
Defined.


(** ** The score is zero-sum *)

Section ZeroSum.
Variables (player opp : Z) (board : Board).
Hypothesis Hne : player <> opp.

Lemma tally_loop_flip (n : nat) :
  forall (i : Z) (t : tally),
    tally_loop n i opp player board (Tally (ocnt t) (ocoins t) (pcnt t) (pcoins t))
    = match tally_loop n i player opp board t with
      | Ok t' => Ok (Tally (ocnt t') (ocoins t') (pcnt t') (pcoins t'))
      | Err e => Err e
      end.
Proof.
  induction n as [|n IH]; intros i t; [reflexivity|].
  cbn [tally_loop]. destruct (rd board i) as [v|e]; [|reflexivity]. cbn [rbind].
  destruct (Z.eqb_spec v player) as [->|Hvp].
  - destruct (Z.eqb_spec player opp) as [E|_]; [contradiction|].
    destruct (rd weights i) as [w|e]; [|reflexivity]. cbn [rbind].
    cbn [pcnt pcoins ocnt ocoins].
    apply (IH (i + 1) (Tally (pcnt t + w) (pcoins t + 1) (ocnt t) (ocoins t))).
  - destruct (Z.eqb_spec v opp) as [->|Hvo].
    + destruct (rd weights i) as [w|e]; [|reflexivity]. cbn [rbind].
      cbn [pcnt pcoins ocnt ocoins].
      apply (IH (i + 1) (Tally (pcnt t) (pcoins t) (ocnt t + w) (ocoins t + 1))).
    + apply IH.
Qed.

Lemma tick_flip (c : Z) (po : Z * Z) :
  tick opp player board c (snd po, fst po)
  = match tick player opp board c po with
    | Ok po' => Ok (snd po', fst po')
    | Err e => Err e
    end.
Proof.
  unfold tick. destruct (rd board c) as [v|e]; [|reflexivity]. cbn [rbind fst snd].
  destruct (Z.eqb_spec v player) as [->|Hvp].
  - destruct (Z.eqb_spec player opp) as [E|_]; [contradiction|]. reflexivity.
  - destruct (Z.eqb_spec v opp); reflexivity.
Qed.

Lemma ticks_flip (cells : list Z) :
  forall po : Z * Z,
    rfoldl (fun po c => tick opp player board c po) (snd po, fst po) cells
    = match rfoldl (fun po c => tick player opp board c po) po cells with
      | Ok po' => Ok (snd po', fst po')
      | Err e => Err e
      end.
Proof.
  induction cells as [|c cells IH]; intros po; [reflexivity|].
  cbn [rfoldl]. rewrite tick_flip.
  destruct (tick player opp board c po) as [po'|e]; [|reflexivity]. cbn [rbind].
  apply IH.
Qed.

Lemma corners_captured_flip :
  corners_captured opp player board
  = match corners_captured player opp board with
    | Ok occ => Ok (- occ)
    | Err e => Err e
    end.
Proof.
  unfold corners_captured.
  pose proof (ticks_flip [11; 18; 81; 88] (0, 0)) as H.
  cbn [fst snd] in H. rewrite H. clear H.
  destruct (rfoldl _ (0, 0) [11; 18; 81; 88]) as [po|e]; [|reflexivity].
  cbn [rbind fst snd]. f_equal. lia.
Qed.
End ZeroSum.

(** X17.  On a well-formed board the score is zero-sum: for a player BLACK
    or WHITE, [evaluate] for the opponent returns the negated score of
    [evaluate] for the player, and fails when it fails, whatever bordered
    global boards and global colours the two calls run with. *)
Theorem evaluate_zero_sum (g g' : Board) (my_colour my_colour' player : Z)
  (board : Board) :
  border_outer g -> border_outer g' -> wf_board board -> is_player player ->
  evaluate g' my_colour' (opponent player) board
  = match evaluate g my_colour player board with
    | Ok v => Ok (- v)
    | Err e => Err e
    end.
Proof.
  intros Hg Hg' Hwf Hp.
  destruct (opponent_player player Hp) as (Hpo & Hne & _ & _ & Hinv).
  destruct (evaluate_terms_wf g my_colour player board Hg Hwf Hp)
    as (t & occ & Ht & _ & _ & Hocc & He).
  destruct (evaluate_terms_wf g' my_colour' (opponent player) board Hg' Hwf Hpo)
    as (t' & occ' & Ht' & _ & _ & Hocc' & He').
  rewrite Hinv in Ht', Hocc'.
  pose proof (tally_loop_flip player (opponent player) board
                (fun E => Hne (eq_sym E)) 88 1 (Tally 0 0 0 0)) as Hflip.
  cbn [pcnt pcoins ocnt ocoins] in Hflip. rewrite Ht, Ht' in Hflip. invert Hflip.
  pose proof (corners_captured_flip player (opponent player) board
                (fun E => Hne (eq_sym E))) as Hcf.
  rewrite Hocc, Hocc' in Hcf. invert Hcf.
  unfold evaluate. rewrite He, He'. cbn [pcnt pcoins ocnt ocoins].
  unfold parity_of. rewrite (Z.add_comm (ocoins t) (pcoins t)).
  destruct (Z.eqb_spec (pcoins t + ocoins t) 0) as [E|E]; [reflexivity|].
  cbn [rbind]. f_equal. unfold final_score. cbn [position parity mobility corner_occ cc].
  rewrite <- Z.quot_opp_l by lia. f_equal.
  replace (100 * (ocoins t - pcoins t)) with (- (100 * (pcoins t - ocoins t))) by lia.
  rewrite Z.quot_opp_l by exact E. lia.
Qed.

Lemma evaluate_zero_sum_witness :
  border_outer initialise_board /\ border_outer two_moves_board
  /\ wf_board two_moves_board /\ is_player BLACK
  /\ evaluate two_moves_board WHITE (opponent BLACK) two_moves_board
     = match evaluate initialise_board BLACK BLACK two_moves_board with
       | Ok v => Ok (- v)
       | Err e => Err e
       end.
Proof.
  assert (border_outer initialise_board) as Hg by (vm_compute; reflexivity).
  assert (border_outer two_moves_board) as Hg' by (vm_compute; reflexivity).
  assert (wf_board two_moves_board) as Hwf by (vm_compute; reflexivity).
  assert (is_player BLACK) as Hp by (left; reflexivity).
  split; [exact Hg|]. split; [exact Hg'|]. split; [exact Hwf|]. split; [exact Hp|].
  exact (evaluate_zero_sum initialise_board two_moves_board BLACK WHITE BLACK
           two_moves_board Hg Hg' Hwf Hp).
Defined.


